(** * ARTIST: the rigid-body kinematic ([artist/field/kinematic_rigid_body.py])

    A shallow embedding of [RigidBody.__init__], [RigidBody.align] and
    [RigidBody.align_surface], and what holds of them.

    - Tensor entries are elements of a type [T] with the operations of
      class [Scalar], about which nothing is assumed: what is proved for
      every [Scalar] holds of IEEE float32 as of exact arithmetic.  Two
      arithmetics are given: the real numbers ([Exact]), and the real
      numbers with a not-a-number ([XR]) for the statements about values
      and about what leaves the finite numbers.
    - A tensor of shape (B,4) is a list of [vec4], one of shape (B,4,4) a
      list of [mat4], one of shape (B,) a list of entries; a tensor of
      shape (4,) is a [vec4].  Points carry 1 and directions 0 as their
      fourth entry.  Batch sizes broadcast as in torch.
    - [artist.util.utils] is not among the sources: its four matrix
      builders are the operations of class [Utils], and [SpecUtils] gives
      them as the specification describes them.
    - [align] divides the caller's incident ray by its norm in place; the
      ray is threaded through the loop as state, and a call yields what it
      returns or raises, the ray afterwards, and a log of its rounds.
    - [__init__] writes to objects it shares with its caller: it is
      modelled on a heap of objects, in module [Init].

    The definitions come first, the lemmas and theorems after them. *)

From Stdlib Require Import Reals Lra ZArith Bool.
From stdpp Require Import base option list gmap strings.

(** ** Scalars, homogeneous vectors and matrices *)

Class Scalar (T : Type) := {
  szero : T;
  sone : T;
  spi : T;
  sadd : T → T → T;
  ssub : T → T → T;
  smul : T → T → T;
  sdiv : T → T → T;
  sneg : T → T;
  sabs : T → T;
  ssqrt : T → T;
  ssin : T → T;
  scos : T → T;
  sasin : T → T;
  satan2 : T → T → T;
  sleb : T → T → bool;
  s1e_4 : T
}.

Declare Scope scalar_scope.
Delimit Scope scalar_scope with S.
Infix "+" := sadd : scalar_scope.
Infix "-" := ssub : scalar_scope.
Infix "*" := smul : scalar_scope.
Infix "/" := sdiv : scalar_scope.
Notation "- x" := (sneg x) : scalar_scope.

Record vec4 (T : Type) := V4 { vE : T; vN : T; vU : T; vW : T }.
Arguments V4 {T} _ _ _ _.
Arguments vE {T} _.
Arguments vN {T} _.
Arguments vU {T} _.
Arguments vW {T} _.

Record mat4 (T : Type) := M4 { row0 : vec4 T; row1 : vec4 T; row2 : vec4 T; row3 : vec4 T }.
Arguments M4 {T} _ _ _ _.
Arguments row0 {T} _.
Arguments row1 {T} _.
Arguments row2 {T} _.
Arguments row3 {T} _.

(** ** Exceptions *)

Inductive exn := AssertionError | TypeError | RuntimeError.

Inductive result (A : Type) := Ok (a : A) | Raise (e : exn).
Arguments Ok {A} _.
Arguments Raise {A} _.

Global Instance result_ret : MRet result := λ A a, Ok a.

Global Instance result_bind : MBind result := λ A B f r,
  match r with
  | Ok a => f a
  | Raise e => Raise e
  end.

Section Tensors.
Context {T : Type} `{SC : Scalar T}.
Local Open Scope scalar_scope.

Definition vmap (f : T → T) (v : vec4 T) : vec4 T :=
  V4 (f (vE v)) (f (vN v)) (f (vU v)) (f (vW v)).

Definition vzip (f : T → T → T) (v w : vec4 T) : vec4 T :=
  V4 (f (vE v) (vE w)) (f (vN v) (vN w)) (f (vU v) (vU w)) (f (vW v) (vW w)).

Definition vadd : vec4 T → vec4 T → vec4 T := vzip sadd.
Definition vsub : vec4 T → vec4 T → vec4 T := vzip ssub.
Definition vabs : vec4 T → vec4 T := vmap sabs.

(** The inner product of a matrix row with a column, summed left to right. *)
Definition dot (v w : vec4 T) : T :=
  vE v * vE w + vN v * vN w + vU v * vU w + vW v * vW w.

Definition col0 (m : mat4 T) := V4 (vE (row0 m)) (vE (row1 m)) (vE (row2 m)) (vE (row3 m)).
Definition col1 (m : mat4 T) := V4 (vN (row0 m)) (vN (row1 m)) (vN (row2 m)) (vN (row3 m)).
Definition col2 (m : mat4 T) := V4 (vU (row0 m)) (vU (row1 m)) (vU (row2 m)) (vU (row3 m)).
Definition col3 (m : mat4 T) := V4 (vW (row0 m)) (vW (row1 m)) (vW (row2 m)) (vW (row3 m)).

Definition row_mat (v : vec4 T) (m : mat4 T) : vec4 T :=
  V4 (dot v (col0 m)) (dot v (col1 m)) (dot v (col2 m)) (dot v (col3 m)).

(** [a @ b] on two 4x4 matrices. *)
Definition mat_mul (a b : mat4 T) : mat4 T :=
  M4 (row_mat (row0 a) b) (row_mat (row1 a) b) (row_mat (row2 a) b) (row_mat (row3 a) b).

(** [m @ v] on a 4x4 matrix and a 4-vector. *)
Definition mat_vec (m : mat4 T) (v : vec4 T) : vec4 T :=
  V4 (dot (row0 m) v) (dot (row1 m) v) (dot (row2 m) v) (dot (row3 m) v).

(** [torch.eye(4)]. *)
Definition eye : mat4 T :=
  M4 (V4 sone szero szero szero) (V4 szero sone szero szero)
     (V4 szero szero sone szero) (V4 szero szero szero sone).

(** Broadcasting of the leading (batch) dimension: equal sizes pair up, a
    size of one is repeated, anything else is torch's RuntimeError. *)
Definition bcast2 {A B C} (f : A → B → C) (xs : list A) (ys : list B) : result (list C) :=
  if decide (length xs = length ys) then Ok (zip_with f xs ys)
  else match xs, ys with
       | [x], _ => Ok (map (f x) ys)
       | _, [y] => Ok (map (λ x, f x y) xs)
       | _, _ => Raise RuntimeError
       end.

(** [a @ b] on two batches of matrices. *)
Definition bmm : list (mat4 T) → list (mat4 T) → result (list (mat4 T)) :=
  bcast2 mat_mul.

(** [t.norm()]: the 2-norm over every entry of the whole tensor. *)
Definition sumsq (v : vec4 T) : T :=
  vE v * vE v + vN v * vN v + vU v * vU v + vW v * vW v.

Definition tensor_sumsq (t : list (vec4 T)) : T :=
  foldl (λ acc v, acc + sumsq v) szero t.

Definition norm (t : list (vec4 T)) : T := ssqrt (tensor_sumsq t).

(** [t /= t.norm()]: the value the tensor holds afterwards. *)
Definition div_norm (t : list (vec4 T)) : list (vec4 T) :=
  let n := norm t in map (vmap (λ x, x / n)) t.

(** [torch.any(eps <= min_eps)]. *)
Definition vany (p : T → bool) (v : vec4 T) : bool :=
  p (vE v) || p (vN v) || p (vU v) || p (vW v).

Definition any_le (eps : list (vec4 T)) (min_eps : T) : bool :=
  existsb (vany (λ x, sleb x min_eps)) eps.
End Tensors.

(** ** The configuration classes and the collaborators

    [KinematicDeviations] and [KinematicOffsets] (from
    [artist.util.configuration_classes]) hold the fields that [__init__]
    names in its default arguments. *)

Record KinematicDeviations (T : Type) := {
  first_joint_translation_e : T;
  first_joint_translation_n : T;
  first_joint_translation_u : T;
  first_joint_tilt_e : T;
  first_joint_tilt_n : T;
  first_joint_tilt_u : T;
  second_joint_translation_e : T;
  second_joint_translation_n : T;
  second_joint_translation_u : T;
  second_joint_tilt_e : T;
  second_joint_tilt_n : T;
  second_joint_tilt_u : T;
  concentrator_translation_e : T;
  concentrator_translation_n : T;
  concentrator_translation_u : T;
  concentrator_tilt_e : T;
  concentrator_tilt_n : T;
  concentrator_tilt_u : T
}.

Record KinematicOffsets (T : Type) := {
  kinematic_initial_orientation_offset_e : T;
  kinematic_initial_orientation_offset_n : T;
  kinematic_initial_orientation_offset_u : T
}.

(** An actuator is used through two operations only: calling it turns motor
    steps into joint angles, [angles_to_motor_steps] goes back; both work
    entry by entry. *)
Record Actuator (T : Type) := {
  forward : T → T;
  angles_to_motor_steps : T → T
}.

(** The matrix builders of [artist.util.utils], entry by entry of their
    argument tensors. *)
Class Utils (T : Type) := {
  translate_enu : T → T → T → mat4 T;
  rotate_e : T → mat4 T;
  rotate_n : T → mat4 T;
  rotate_u : T → mat4 T
}.

(** The attributes of a [RigidBody] that [align] reads.  Of [position] only
    the entries 0, 1 and 2 are read. *)
Record RigidBody (T : Type) := {
  position : vec4 T;
  aim_point : vec4 T;
  deviation_parameters : KinematicDeviations T;
  initial_orientation_offsets : KinematicOffsets T;
  actuator_list : list (Actuator T)
}.

Arguments first_joint_translation_e {T} _.
Arguments first_joint_translation_n {T} _.
Arguments first_joint_translation_u {T} _.
Arguments first_joint_tilt_e {T} _.
Arguments first_joint_tilt_n {T} _.
Arguments first_joint_tilt_u {T} _.
Arguments second_joint_translation_e {T} _.
Arguments second_joint_translation_n {T} _.
Arguments second_joint_translation_u {T} _.
Arguments second_joint_tilt_e {T} _.
Arguments second_joint_tilt_n {T} _.
Arguments second_joint_tilt_u {T} _.
Arguments concentrator_translation_e {T} _.
Arguments concentrator_translation_n {T} _.
Arguments concentrator_translation_u {T} _.
Arguments concentrator_tilt_e {T} _.
Arguments concentrator_tilt_n {T} _.
Arguments concentrator_tilt_u {T} _.
Arguments kinematic_initial_orientation_offset_e {T} _.
Arguments kinematic_initial_orientation_offset_n {T} _.
Arguments kinematic_initial_orientation_offset_u {T} _.
Arguments forward {T} _ _.
Arguments angles_to_motor_steps {T} _ _.
Arguments position {T} _.
Arguments aim_point {T} _.
Arguments deviation_parameters {T} _.
Arguments initial_orientation_offsets {T} _.
Arguments actuator_list {T} _.

(** ** [RigidBody.align] *)

Section Align.
Context {T : Type} `{SC : Scalar T} `{UT : Utils T}.
Local Open Scope scalar_scope.

(** The local variables that live across the rounds of the loop, and the
    caller's incident ray, which the loop overwrites. *)
Record loop_state := LoopState {
  actuator_steps : list (T * T);
  orientation : option (list (mat4 T));
  last_iteration_loss : option (list (vec4 T));
  st_incident_ray_direction : list (vec4 T)
}.

(** What one round computed, kept for the statements about rounds. *)
Record round_log := RoundLog {
  log_joint_1_angles : list T;
  log_joint_2_angles : list T;
  log_orientation : list (mat4 T);
  log_concentrator_normals : list (vec4 T);
  log_concentrator_origins : list (vec4 T);
  log_ray_before : list (vec4 T);
  log_desired_reflect_vec : list (vec4 T);
  log_desired_concentrator_normal : list (vec4 T);
  log_loss : list (vec4 T);
  log_eps : option (list (vec4 T));
  log_break : bool;
  log_solved : option (list (T * T))
}.

Inductive round_outcome :=
| Next (st : loop_state) (lg : round_log)
| Broke (st : loop_state) (lg : round_log)
| Failed (e : exn) (ray : list (vec4 T)).

(** Lines 156-211: the orientation of the round. *)
Definition round_orientation (self : RigidBody T)
    (joint_1_angles joint_2_angles : list T) : result (list (mat4 T)) :=
  let dp := deviation_parameters self in
  let initial_orientations := replicate (length joint_1_angles) eye in
  initial_orientations ← bmm initial_orientations
    [translate_enu (vE (position self)) (vN (position self)) (vU (position self))];
  j1a ← bmm [rotate_n (first_joint_tilt_n dp)] [rotate_u (first_joint_tilt_u dp)];
  j1b ← bmm j1a [translate_enu (first_joint_translation_e dp)
                   (first_joint_translation_n dp) (first_joint_translation_u dp)];
  joint_1_rotations ← bmm j1b (map rotate_e joint_1_angles);
  j2a ← bmm [rotate_e (second_joint_tilt_e dp)] [rotate_n (second_joint_tilt_n dp)];
  j2b ← bmm j2a [translate_enu (second_joint_translation_e dp)
                   (second_joint_translation_n dp) (second_joint_translation_u dp)];
  joint_2_rotations ← bmm j2b (map rotate_u joint_2_angles);
  o1 ← bmm initial_orientations joint_1_rotations;
  o2 ← bmm o1 joint_2_rotations;
  bmm o2 [translate_enu (concentrator_translation_e dp)
            (concentrator_translation_n dp) (concentrator_translation_u dp)].

(** Lines 239-269: the two joint angles for one row of the desired
    normal. *)
Definition analytical_solution (self : RigidBody T) (m : vec4 T) : T * T :=
  let dp := deviation_parameters self in
  let joint_2_angle :=
    - sasin (- vE m / scos (second_joint_translation_n dp)) in
  let a :=
    - scos (second_joint_translation_e dp) * scos joint_2_angle
    + ssin (second_joint_translation_e dp)
      * ssin (second_joint_translation_n dp) * ssin joint_2_angle in
  let b :=
    - ssin (second_joint_translation_e dp) * scos joint_2_angle
    - scos (second_joint_translation_e dp)
      * ssin (second_joint_translation_n dp) * ssin joint_2_angle in
  let joint_1_angle :=
    satan2 (a * - vU m - b * - vN m) (a * - vN m + b * - vU m) - spi in
  (joint_1_angle, joint_2_angle).

(** Lines 227-234: the loss of the round and whether the loop stops. *)
Definition convergence (min_eps : T) (last_iteration_loss : option (list (vec4 T)))
    (loss : list (vec4 T)) : result (option (list (vec4 T)) * bool) :=
  match last_iteration_loss with
  | None => Ok (None, false)
  | Some last =>
      eps ← bcast2 (λ l x, vabs (vsub l x)) last loss;
      Ok (Some eps, any_le eps min_eps)
  end.

(** The body of the loop, lines 149-281. *)
Definition align_round (self : RigidBody T) (a1 a2 : Actuator T) (min_eps : T)
    (st : loop_state) : round_outcome :=
  let joint_1_angles := map (forward a1) (map fst (actuator_steps st)) in
  let joint_2_angles := map (forward a2) (map snd (actuator_steps st)) in
  match round_orientation self joint_1_angles joint_2_angles with
  | Raise e => Failed e (st_incident_ray_direction st)
  | Ok orientation =>
      let concentrator_normals :=
        map (λ o, mat_vec o (V4 szero (- sone) szero szero)) orientation in
      let concentrator_origins :=
        map (λ o, mat_vec o (V4 szero szero szero sone)) orientation in
      let desired_reflect_vec :=
        div_norm (map (vsub (aim_point self)) concentrator_origins) in
      let ray := div_norm (st_incident_ray_direction st) in
      match
        (desired ← bcast2 vadd ray desired_reflect_vec;
         let desired_concentrator_normal := div_norm desired in
         loss ← bcast2 (λ d n, vabs (vsub d n))
                  desired_concentrator_normal concentrator_normals;
         conv ← convergence min_eps (last_iteration_loss st) loss;
         Ok (desired_concentrator_normal, loss, conv))
      with
      | Raise e => Failed e ray
      | Ok (desired_concentrator_normal, loss, (eps, stop)) =>
          let lg solved :=
            RoundLog joint_1_angles joint_2_angles orientation
              concentrator_normals concentrator_origins
              (st_incident_ray_direction st) desired_reflect_vec
              desired_concentrator_normal loss eps stop solved in
          if stop then
            Broke (LoopState (actuator_steps st) (Some orientation)
                     (last_iteration_loss st) ray) (lg None)
          else
            let solved := map (analytical_solution self) desired_concentrator_normal in
            Next (LoopState
                    (map (λ j, (angles_to_motor_steps a1 j.1,
                                angles_to_motor_steps a2 j.2)) solved)
                    (Some orientation) (Some loss) ray)
                 (lg (Some solved))
      end
  end.

(** [for _ in range(n)]: the state the loop ends in, or the exception
    that leaves it together with the ray as it is then, and the rounds
    that completed. *)
Fixpoint align_loop (self : RigidBody T) (a1 a2 : Actuator T) (min_eps : T)
    (n : nat) (st : loop_state)
    : (exn * list (vec4 T) + loop_state) * list round_log :=
  match n with
  | O => (inr st, [])
  | S n =>
      match align_round self a1 a2 min_eps st with
      | Failed e ray => (inl (e, ray), [])
      | Broke st' lg => (inr st', [lg])
      | Next st' lg =>
          let '(r, lgs) := align_loop self a1 a2 min_eps n st' in (r, lg :: lgs)
      end
  end.

(** Lines 283-313: the orientation offsets, applied to the orientation
    the loop left. *)
Definition apply_offsets (self : RigidBody T) (orientation : list (mat4 T))
    : result (list (mat4 T)) :=
  let off := initial_orientation_offsets self in
  o1 ← bmm orientation [rotate_e (kinematic_initial_orientation_offset_e off)];
  o2 ← bmm o1 [rotate_n (kinematic_initial_orientation_offset_n off)];
  bmm o2 [rotate_u (kinematic_initial_orientation_offset_u off)].

(** A call of [align]: what it returns or raises, the caller's incident
    ray afterwards, and the rounds of the loop. *)
Record run := Run {
  returned : result (list (mat4 T));
  ray_after : list (vec4 T);
  rounds : list round_log
}.

Definition align (self : RigidBody T) (incident_ray_direction : list (vec4 T))
    (max_num_iterations : Z) (min_eps : T) : run :=
  match actuator_list self with
  | [a1; a2] =>
      let st0 := LoopState [(szero, szero)] None None incident_ray_direction in
      match align_loop self a1 a2 min_eps (Z.to_nat max_num_iterations) st0 with
      | (inl (e, ray), lgs) => Run (Raise e) ray lgs
      | (inr st, lgs) =>
          match orientation st with
          | None => Run (Raise TypeError) (st_incident_ray_direction st) lgs
          | Some o => Run (apply_offsets self o) (st_incident_ray_direction st) lgs
          end
      end
  | _ => Run (Raise AssertionError) incident_ray_direction []
  end.

(** [align_surface], lines 343-354, on surface tensors of shape (N,4);
    [align] runs with its defaults, two rounds and [min_eps = 0.0001]. *)
Definition align_surface (self : RigidBody T) (incident_ray_direction : list (vec4 T))
    (surface_points surface_normals : list (vec4 T))
    : result (list (vec4 T) * list (vec4 T)) * list (vec4 T) :=
  let r := align self incident_ray_direction 2 s1e_4 in
  (orientation ← returned r;
   aligned_surface_points ← bcast2 mat_vec orientation surface_points;
   aligned_surface_normals ← bcast2 mat_vec orientation surface_normals;
   Ok (aligned_surface_points, aligned_surface_normals),
   ray_after r).
End Align.

Arguments loop_state : clear implicits.
Arguments round_log : clear implicits.
Arguments round_outcome : clear implicits.
Arguments run : clear implicits.

(** ** The forward chain as the specification words it *)

Section Chain.
Context {T : Type} `{SC : Scalar T} `{UT : Utils T}.

Definition joint_1_stage (self : RigidBody T) (joint_1_angle : T) : mat4 T :=
  let dp := deviation_parameters self in
  mat_mul
    (mat_mul
       (mat_mul (rotate_n (first_joint_tilt_n dp)) (rotate_u (first_joint_tilt_u dp)))
       (translate_enu (first_joint_translation_e dp) (first_joint_translation_n dp)
          (first_joint_translation_u dp)))
    (rotate_e joint_1_angle).

Definition joint_2_stage (self : RigidBody T) (joint_2_angle : T) : mat4 T :=
  let dp := deviation_parameters self in
  mat_mul
    (mat_mul
       (mat_mul (rotate_e (second_joint_tilt_e dp)) (rotate_n (second_joint_tilt_n dp)))
       (translate_enu (second_joint_translation_e dp) (second_joint_translation_n dp)
          (second_joint_translation_u dp)))
    (rotate_u joint_2_angle).

(** Identity, mount position, joint-1 stage, joint-2 stage, concentrator
    translation, multiplied from left to right. *)
Definition forward_chain (self : RigidBody T) (joint_1_angle joint_2_angle : T) : mat4 T :=
  let dp := deviation_parameters self in
  mat_mul
    (mat_mul
       (mat_mul
          (mat_mul eye
             (translate_enu (vE (position self)) (vN (position self)) (vU (position self))))
          (joint_1_stage self joint_1_angle))
       (joint_2_stage self joint_2_angle))
    (translate_enu (concentrator_translation_e dp) (concentrator_translation_n dp)
       (concentrator_translation_u dp)).
End Chain.

(** ** What a round computes, and the rounds of a loop *)

Section Rounds.
Context {T : Type} `{SC : Scalar T} `{UT : Utils T}.
Variables (self : RigidBody T) (a1 a2 : Actuator T) (min_eps : T).

(** The entries of the log of a round that started in [st]. *)
Record round_facts (st : loop_state T) (lg : round_log T) : Prop := {
  rf_joint_1 : log_joint_1_angles lg = map (forward a1) (map fst (actuator_steps st));
  rf_joint_2 : log_joint_2_angles lg = map (forward a2) (map snd (actuator_steps st));
  rf_orientation :
    log_orientation lg =
    zip_with (forward_chain self) (log_joint_1_angles lg) (log_joint_2_angles lg);
  rf_normals :
    log_concentrator_normals lg =
    map (λ o, mat_vec o (V4 szero (sneg sone) szero szero)) (log_orientation lg);
  rf_origins :
    log_concentrator_origins lg =
    map (λ o, mat_vec o (V4 szero szero szero sone)) (log_orientation lg);
  rf_ray : log_ray_before lg = st_incident_ray_direction st;
  rf_reflect :
    log_desired_reflect_vec lg =
    div_norm (map (vsub (aim_point self)) (log_concentrator_origins lg));
  rf_desired : ∃ d0,
    bcast2 vadd (div_norm (log_ray_before lg)) (log_desired_reflect_vec lg) = Ok d0
    ∧ log_desired_concentrator_normal lg = div_norm d0;
  rf_loss :
    bcast2 (λ d n, vabs (vsub d n))
      (log_desired_concentrator_normal lg) (log_concentrator_normals lg)
    = Ok (log_loss lg);
  rf_convergence :
    convergence min_eps (last_iteration_loss st) (log_loss lg)
    = Ok (log_eps lg, log_break lg);
  rf_solved :
    log_solved lg =
    if log_break lg then None
    else Some (map (analytical_solution self) (log_desired_concentrator_normal lg))
}.

(** The state a round that did not stop hands to the next one. *)
Definition next_state (st : loop_state T) (lg : round_log T) : loop_state T :=
  LoopState
    (map (λ j, (angles_to_motor_steps a1 j.1, angles_to_motor_steps a2 j.2))
       (map (analytical_solution self) (log_desired_concentrator_normal lg)))
    (Some (log_orientation lg)) (Some (log_loss lg))
    (div_norm (st_incident_ray_direction st)).

(** The state a round that stopped leaves. *)
Definition break_state (st : loop_state T) (lg : round_log T) : loop_state T :=
  LoopState (actuator_steps st) (Some (log_orientation lg))
    (last_iteration_loss st) (div_norm (st_incident_ray_direction st)).

(** The rounds of a loop, one after the other: each has the entries of
    [round_facts] for the state the round before it left, and only the
    last one can have stopped the loop. *)
Fixpoint rounds_from (st : loop_state T) (lgs : list (round_log T)) : Prop :=
  match lgs with
  | [] => True
  | lg :: lgs =>
      round_facts st lg
      ∧ if log_break lg then lgs = [] else rounds_from (next_state st lg) lgs
  end.

(** The batch sizes while the loop runs: the actuator steps have one row
    before the first round and as many as the incident ray from then
    on. *)
Definition shaped (st : loop_state T) : Prop :=
  (length (actuator_steps st) = 1 ∧ last_iteration_loss st = None)
  ∨ (length (actuator_steps st) = length (st_incident_ray_direction st)
     ∧ ∀ l, last_iteration_loss st = Some l →
            length l = length (st_incident_ray_direction st)).

Definition initial_state (incident_ray_direction : list (vec4 T)) : loop_state T :=
  LoopState [(szero, szero)] None None incident_ray_direction.
End Rounds.

(** ** Two kinematics that differ in the concentrator tilts only *)

Definition set_concentrator_tilts {T : Type} (dp : KinematicDeviations T)
    (e n u : T) : KinematicDeviations T :=
  {| first_joint_translation_e := first_joint_translation_e dp;
     first_joint_translation_n := first_joint_translation_n dp;
     first_joint_translation_u := first_joint_translation_u dp;
     first_joint_tilt_e := first_joint_tilt_e dp;
     first_joint_tilt_n := first_joint_tilt_n dp;
     first_joint_tilt_u := first_joint_tilt_u dp;
     second_joint_translation_e := second_joint_translation_e dp;
     second_joint_translation_n := second_joint_translation_n dp;
     second_joint_translation_u := second_joint_translation_u dp;
     second_joint_tilt_e := second_joint_tilt_e dp;
     second_joint_tilt_n := second_joint_tilt_n dp;
     second_joint_tilt_u := second_joint_tilt_u dp;
     concentrator_translation_e := concentrator_translation_e dp;
     concentrator_translation_n := concentrator_translation_n dp;
     concentrator_translation_u := concentrator_translation_u dp;
     concentrator_tilt_e := e;
     concentrator_tilt_n := n;
     concentrator_tilt_u := u |}.

Definition with_concentrator_tilts {T : Type} (self : RigidBody T)
    (e n u : T) : RigidBody T :=
  {| position := position self;
     aim_point := aim_point self;
     deviation_parameters := set_concentrator_tilts (deviation_parameters self) e n u;
     initial_orientation_offsets := initial_orientation_offsets self;
     actuator_list := actuator_list self |}.

(** ** The matrix builders, from the specification *)

(** Modelled from the spec: [utils.translate_enu], [utils.rotate_e],
    [utils.rotate_n] and [utils.rotate_u] of [artist.util.utils], which is
    not among the sources.  The specification calls them a translation by
    three deviations and a single-angle rotation about the E, the N and
    the U axis; they are the homogeneous 4x4 matrices of these, the
    rotations right-handed. *)
Section SpecUtils.
Context {T : Type} `{SC : Scalar T}.
Local Open Scope scalar_scope.

Definition spec_translate_enu (e n u : T) : mat4 T :=
  M4 (V4 sone szero szero e) (V4 szero sone szero n)
     (V4 szero szero sone u) (V4 szero szero szero sone).

Definition spec_rotate_e (e : T) : mat4 T :=
  M4 (V4 sone szero szero szero) (V4 szero (scos e) (- ssin e) szero)
     (V4 szero (ssin e) (scos e) szero) (V4 szero szero szero sone).

Definition spec_rotate_n (n : T) : mat4 T :=
  M4 (V4 (scos n) szero (ssin n) szero) (V4 szero sone szero szero)
     (V4 (- ssin n) szero (scos n) szero) (V4 szero szero szero sone).

Definition spec_rotate_u (u : T) : mat4 T :=
  M4 (V4 (scos u) (- ssin u) szero szero) (V4 (ssin u) (scos u) szero szero)
     (V4 szero szero sone szero) (V4 szero szero szero sone).

Definition SpecUtils : Utils T :=
  {| translate_enu := spec_translate_enu;
     rotate_e := spec_rotate_e;
     rotate_n := spec_rotate_n;
     rotate_u := spec_rotate_u |}.
End SpecUtils.

(** ** Exact arithmetic *)

(** [torch.arctan2] on real numbers. *)
Definition atan2 (y x : R) : R :=
  if Rlt_dec 0 x then atan (y / x)
  else if Rlt_dec x 0 then
    if Rle_dec 0 y then (atan (y / x) + PI)%R else (atan (y / x) - PI)%R
  else if Rlt_dec 0 y then (PI / 2)%R
  else if Rlt_dec y 0 then (- (PI / 2))%R
  else 0%R.


(** The real numbers: every value is finite and no operation rounds.
    Division by zero, the square root of a negative number and the arcsine
    outside [-1,1] have the values the Standard Library gives them; no
    statement below rests on these values. *)
Module Exact.

Global Instance real_scalar : Scalar R :=
  {| szero := 0%R;
     sone := 1%R;
     spi := PI;
     sadd := Rplus;
     ssub := Rminus;
     smul := Rmult;
     sdiv := Rdiv;
     sneg := Ropp;
     sabs := Rabs;
     ssqrt := sqrt;
     ssin := sin;
     scos := cos;
     sasin := asin;
     satan2 := atan2;
     sleb := λ a b, if Rle_dec a b then true else false;
     s1e_4 := (1 / 10000)%R |}.



Definition zero_offsets : KinematicOffsets R :=
  {| kinematic_initial_orientation_offset_e := 0%R;
     kinematic_initial_orientation_offset_n := 0%R;
     kinematic_initial_orientation_offset_u := 0%R |}.



End Exact.

(** The real numbers and one more value, [None], for what IEEE arithmetic
    gives outside the finite numbers (the NaN of 0/0, of the square root of
    a negative number, of the arcsine outside [-1,1], and what becomes of
    it): it is absorbing and compares false, as NaN does. *)
Module XR.

Abbreviation xreal := (option R).

Definition lift1 (f : R → R) (x : xreal) : xreal :=
  match x with
  | Some a => Some (f a)
  | None => None
  end.

Definition lift2 (f : R → R → R) (x y : xreal) : xreal :=
  match x, y with
  | Some a, Some b => Some (f a b)
  | _, _ => None
  end.

Definition xdiv (x y : xreal) : xreal :=
  match x, y with
  | Some a, Some b => if Req_dec_T b 0 then None else Some (a / b)%R
  | _, _ => None
  end.

Definition xsqrt (x : xreal) : xreal :=
  match x with
  | Some a => if Rlt_dec a 0 then None else Some (sqrt a)
  | None => None
  end.

Definition xasin (x : xreal) : xreal :=
  match x with
  | Some a => if Rle_dec (Rabs a) 1 then Some (asin a) else None
  | None => None
  end.

Definition xleb (x y : xreal) : bool :=
  match x, y with
  | Some a, Some b => if Rle_dec a b then true else false
  | _, _ => false
  end.

Global Instance xreal_scalar : Scalar xreal :=
  {| szero := Some 0%R;
     sone := Some 1%R;
     spi := Some PI;
     sadd := lift2 Rplus;
     ssub := lift2 Rminus;
     smul := lift2 Rmult;
     sdiv := xdiv;
     sneg := lift1 Ropp;
     sabs := lift1 Rabs;
     ssqrt := xsqrt;
     ssin := lift1 sin;
     scos := lift1 cos;
     sasin := xasin;
     satan2 := lift2 atan2;
     sleb := xleb;
     s1e_4 := Some (1 / 10000)%R |}.

(** A vector of real numbers as a tensor row. *)
Definition vreal (v : vec4 R) : vec4 xreal :=
  V4 (Some (vE v)) (Some (vN v)) (Some (vU v)) (Some (vW v)).

Definition nan4 : vec4 xreal := V4 None None None None.

(** The scenario of the specification: position (0,0,0), aim point
    (0,100,0), two actuators for which angle and position are the same
    number, every deviation and offset zero, built on the matrices of
    [SpecUtils]. *)
Definition identity_actuator : Actuator xreal :=
  {| forward := λ x, x; angles_to_motor_steps := λ x, x |}.

Definition zero_deviations : KinematicDeviations xreal :=
  {| first_joint_translation_e := Some 0%R;
     first_joint_translation_n := Some 0%R;
     first_joint_translation_u := Some 0%R;
     first_joint_tilt_e := Some 0%R;
     first_joint_tilt_n := Some 0%R;
     first_joint_tilt_u := Some 0%R;
     second_joint_translation_e := Some 0%R;
     second_joint_translation_n := Some 0%R;
     second_joint_translation_u := Some 0%R;
     second_joint_tilt_e := Some 0%R;
     second_joint_tilt_n := Some 0%R;
     second_joint_tilt_u := Some 0%R;
     concentrator_translation_e := Some 0%R;
     concentrator_translation_n := Some 0%R;
     concentrator_translation_u := Some 0%R;
     concentrator_tilt_e := Some 0%R;
     concentrator_tilt_n := Some 0%R;
     concentrator_tilt_u := Some 0%R |}.

Definition zero_offsets : KinematicOffsets xreal :=
  {| kinematic_initial_orientation_offset_e := Some 0%R;
     kinematic_initial_orientation_offset_n := Some 0%R;
     kinematic_initial_orientation_offset_u := Some 0%R |}.

Definition scenario : RigidBody xreal :=
  {| position := vreal (V4 0 0 0 1)%R;
     aim_point := vreal (V4 0 100 0 1)%R;
     deviation_parameters := zero_deviations;
     initial_orientation_offsets := zero_offsets;
     actuator_list := [identity_actuator; identity_actuator] |}.

(** The incident ray (0,-1,0) of the scenario, as a direction. *)
Definition scenario_ray : list (vec4 xreal) := [vreal (V4 0 (-1) 0 0)%R].

(** The matrix every entry of which is the not-a-number. *)
Definition nan_matrix : mat4 xreal := M4 nan4 nan4 nan4 nan4.

(** The two rounds of [align] in the scenario, and the states between
    them. *)
Definition scenario_round_1 : round_log xreal :=
  RoundLog [Some 0%R] [Some 0%R] [eye]
    [vreal (V4 0 (-1) 0 0)%R] [vreal (V4 0 0 0 1)%R] scenario_ray
    [vreal (V4 0 1 0 0)%R] [nan4] [nan4] None false (Some [(None, None)]).

Definition scenario_state_1 : loop_state xreal :=
  LoopState [(None, None)] (Some [eye]) (Some [nan4]) scenario_ray.

Definition scenario_round_2 : round_log xreal :=
  RoundLog [None] [None] [nan_matrix] [nan4] [nan4] scenario_ray
    [nan4] [nan4] [nan4] (Some [nan4]) false (Some [(None, None)]).

Definition scenario_state_2 : loop_state xreal :=
  LoopState [(None, None)] (Some [nan_matrix]) (Some [nan4]) scenario_ray.

(** Two incident rays in one batch. *)
Definition two_rays : list (vec4 xreal) :=
  [vreal (V4 3 1 2 0)%R; vreal (V4 1 1 0 0)%R].


(** Every row of a tensor is a unit vector. *)
Definition unit_rows (t : list (vec4 xreal)) : Prop :=
  Forall (λ v, norm [v] = Some 1%R) t.

(** In every round of a call, every row of the desired reflect vector and
    of the desired concentrator normal is a unit vector. *)
Definition rounds_have_unit_vectors (r : run xreal) : Prop :=
  Forall (λ lg, unit_rows (log_desired_reflect_vec lg)
                ∧ unit_rows (log_desired_concentrator_normal lg)) (rounds r).

(** A finite entry within [tol] of a real number. *)
Definition near (tol : R) (x : xreal) (y : R) : Prop :=
  ∃ a, x = Some a ∧ (Rabs (a - y) <= tol)%R.

(** The outcome the specification expects of the scenario: [align], with
    its default two rounds, returns a finite orientation whose normal is
    (0,1,0) up to [tol], and the joint angles solved last are 0 up to
    [tol]. *)
Definition scenario_as_expected (tol : R) : Prop :=
  let r := align (UT := SpecUtils) scenario scenario_ray 2 s1e_4 in
  ∃ o lg j1 j2,
    returned r = Ok [o]
    ∧ (let n := mat_vec o (V4 szero (sneg sone) szero szero) in
       near tol (vE n) 0 ∧ near tol (vN n) 1 ∧ near tol (vU n) 0)
    ∧ last (rounds r) = Some lg
    ∧ log_solved lg = Some [(j1, j2)]
    ∧ near tol j1 0 ∧ near tol j2 0.

End XR.

(** ** [RigidBody.__init__] on a heap of objects *)

(** The constructor keeps references to the two configuration objects it
    is given and writes to their attributes; the objects live in a heap,
    an object being its attribute dictionary.  The calls of
    [Kinematic.__init__] and of [ActuatorArray], whose code is not among
    the sources, are left out: they are not handed the two objects. *)
Module Init.

(** A tensor, as far as [__init__] is concerned: its data, which the
    constructor does not look at and for which an integer stands, and the
    device it is on. *)
Record tensor := Tensor { t_data : Z; t_device : string }.

(** [t.to(device)]. *)
Definition to (device : string) (t : tensor) : tensor :=
  Tensor (t_data t) device.

(** An attribute value: a tensor, or anything else ([None], a number). *)
Inductive value := VTensor (t : tensor) | VOther (repr : string).

Definition loc := positive.

Abbreviation object := (gmap string value).
Abbreviation heap := (gmap loc (gmap string value)).

(** [for attr_name, attr_value in obj.__dict__.items():
       if isinstance(attr_value, torch.Tensor):
           setattr(obj, attr_name, attr_value.to(device))],
    lines 100-102 and 105-109: the dictionary the object has afterwards. *)
Definition move_attributes (device : string) (d : gmap string value) : gmap string value :=
  map_fold (λ attr_name attr_value (acc : gmap string value),
              match attr_value with
              | VTensor t => <[attr_name := VTensor (to device t)]> acc
              | VOther _ => acc
              end) d d.

(** An object every tensor attribute of which is replaced by the tensor
    moved to the device. *)
Definition moved (device : string) (d : gmap string value) : gmap string value :=
  (λ v, match v with
        | VTensor t => VTensor (to device t)
        | VOther _ => v
        end) <$> d.

(** The loop applied to the object at [l]. *)
Definition move_object (device : string) (l : loc) (h : gmap loc (gmap string value))
    : option (gmap loc (gmap string value)) :=
  d ← h !! l; Some (<[l := move_attributes device d]> h).

(** The two default arguments: objects made once, when the [def] is
    executed, of tensors [torch.tensor(0.0)] on the cpu. *)
Definition default_initial_orientation_offsets : loc := 1%positive.
Definition default_deviation_parameters : loc := 2%positive.

Definition zero_tensor : value := VTensor (Tensor 0 "cpu").

Definition default_offsets_object : gmap string value :=
  list_to_map
    [("kinematic_initial_orientation_offset_e", zero_tensor);
     ("kinematic_initial_orientation_offset_n", zero_tensor);
     ("kinematic_initial_orientation_offset_u", zero_tensor)].

Definition default_deviations_object : gmap string value :=
  list_to_map
    [("first_joint_translation_e", zero_tensor);
     ("first_joint_translation_n", zero_tensor);
     ("first_joint_translation_u", zero_tensor);
     ("first_joint_tilt_e", zero_tensor);
     ("first_joint_tilt_n", zero_tensor);
     ("first_joint_tilt_u", zero_tensor);
     ("second_joint_translation_e", zero_tensor);
     ("second_joint_translation_n", zero_tensor);
     ("second_joint_translation_u", zero_tensor);
     ("second_joint_tilt_e", zero_tensor);
     ("second_joint_tilt_n", zero_tensor);
     ("second_joint_tilt_u", zero_tensor);
     ("concentrator_translation_e", zero_tensor);
     ("concentrator_translation_n", zero_tensor);
     ("concentrator_translation_u", zero_tensor);
     ("concentrator_tilt_e", zero_tensor);
     ("concentrator_tilt_n", zero_tensor);
     ("concentrator_tilt_u", zero_tensor)].

(** The heap once the class body has been executed. *)
Definition defined_heap : gmap loc (gmap string value) :=
  <[default_deviation_parameters := default_deviations_object]>
    (<[default_initial_orientation_offsets := default_offsets_object]> ∅).

(** The attributes of the new instance that refer to the two objects. *)
Record instance := Instance {
  self_deviation_parameters : loc;
  self_initial_orientation_offsets : loc
}.

(** [__init__], lines 97-109; an argument left out is [None] here and
    stands for the default object. *)
Definition init (h : gmap loc (gmap string value))
    (initial_orientation_offsets deviation_parameters : option loc)
    (device : string) : option (gmap loc (gmap string value) * instance) :=
  let offsets := default default_initial_orientation_offsets initial_orientation_offsets in
  let deviations := default default_deviation_parameters deviation_parameters in
  h ← move_object device deviations h;
  h ← move_object device offsets h;
  Some (h, Instance deviations offsets).

(** A caller's offsets object with a tensor on the cpu, one on the gpu and
    an attribute that is no tensor. *)
Definition caller_offsets : gmap string value :=
  list_to_map
    [("kinematic_initial_orientation_offset_e", VTensor (Tensor 1 "cpu"));
     ("kinematic_initial_orientation_offset_n", VTensor (Tensor 2 "cuda"));
     ("kinematic_initial_orientation_offset_u", VOther "None")].

Definition caller_heap : gmap loc (gmap string value) :=
  <[4%positive := default_deviations_object]> (<[3%positive := caller_offsets]> defined_heap).

End Init.

(** ** Further notions for the statements about [align] *)

(** A batch all rows of which are the same. *)
Definition uniform {A : Type} (l : list A) : Prop :=
  ∀ x y, x ∈ l → y ∈ l → x = y.

(** The two joint tilts that [align] does not read, set to other values. *)
Definition set_unread_joint_tilts {T : Type} (dp : KinematicDeviations T)
    (first_e second_u : T) : KinematicDeviations T :=
  {| first_joint_translation_e := first_joint_translation_e dp;
     first_joint_translation_n := first_joint_translation_n dp;
     first_joint_translation_u := first_joint_translation_u dp;
     first_joint_tilt_e := first_e;
     first_joint_tilt_n := first_joint_tilt_n dp;
     first_joint_tilt_u := first_joint_tilt_u dp;
     second_joint_translation_e := second_joint_translation_e dp;
     second_joint_translation_n := second_joint_translation_n dp;
     second_joint_translation_u := second_joint_translation_u dp;
     second_joint_tilt_e := second_joint_tilt_e dp;
     second_joint_tilt_n := second_joint_tilt_n dp;
     second_joint_tilt_u := second_u;
     concentrator_translation_e := concentrator_translation_e dp;
     concentrator_translation_n := concentrator_translation_n dp;
     concentrator_translation_u := concentrator_translation_u dp;
     concentrator_tilt_e := concentrator_tilt_e dp;
     concentrator_tilt_n := concentrator_tilt_n dp;
     concentrator_tilt_u := concentrator_tilt_u dp |}.

(** A kinematic with other values for what [align] does not read: the two
    joint tilts above and the fourth entry of the position. *)
Definition with_unread_parts {T : Type} (self : RigidBody T)
    (first_e second_u position_w : T) : RigidBody T :=
  {| position := V4 (vE (position self)) (vN (position self)) (vU (position self))
                   position_w;
     aim_point := aim_point self;
     deviation_parameters :=
       set_unread_joint_tilts (deviation_parameters self) first_e second_u;
     initial_orientation_offsets := initial_orientation_offsets self;
     actuator_list := actuator_list self |}.

(** Entries that are zero, or one, unless they are not-a-number; a matrix
    whose last row is that of a homogeneous transform, (0,0,0,1), unless
    its entries are not-a-number. *)
Definition zero_or_nan (x : option R) : Prop := x = None ∨ x = Some 0%R.

Definition one_or_nan (x : option R) : Prop := x = None ∨ x = Some 1%R.

Definition homogeneous (m : mat4 (option R)) : Prop :=
  zero_or_nan (vE (row3 m)) ∧ zero_or_nan (vN (row3 m))
  ∧ zero_or_nan (vU (row3 m)) ∧ one_or_nan (vW (row3 m)).

(** The fourth entries of a tensor are zero or not-a-number. *)
Definition fourth_zero (t : list (vec4 (option R))) : Prop :=
  Forall (λ v, zero_or_nan (vW v)) t.

(** The scenario with the incident ray (0,1,0), which does not cancel the
    reflect vector, and what [align] computes for it: the orientation that
    turns the concentrator about the E axis by -pi, found in the first
    round and confirmed by the second, which stops the loop. *)
Module North.
Import XR.

Definition north_ray : list (vec4 (option R)) := [vreal (V4 0 1 0 0)%R].

Definition turned : mat4 (option R) :=
  M4 (vreal (V4 1 0 0 0)%R) (vreal (V4 0 (-1) 0 0)%R)
     (vreal (V4 0 0 (-1) 0)%R) (vreal (V4 0 0 0 1)%R).

Definition north_round_1 : round_log (option R) :=
  RoundLog [Some 0%R] [Some 0%R] [eye]
    [vreal (V4 0 (-1) 0 0)%R] [vreal (V4 0 0 0 1)%R] north_ray
    [vreal (V4 0 1 0 0)%R] [vreal (V4 0 1 0 0)%R] [vreal (V4 0 2 0 0)%R]
    None false (Some [(Some (- PI)%R, Some 0%R)]).

Definition north_round_2 : round_log (option R) :=
  RoundLog [Some (- PI)%R] [Some 0%R] [turned]
    [vreal (V4 0 1 0 0)%R] [vreal (V4 0 0 0 1)%R] north_ray
    [vreal (V4 0 1 0 0)%R] [vreal (V4 0 1 0 0)%R] [vreal (V4 0 0 0 0)%R]
    (Some [vreal (V4 0 2 0 0)%R]) true None.

(** Twice the same ray in one batch, and two surface points. *)
Definition twin_rays : list (vec4 (option R)) :=
  [vreal (V4 0 1 0 0)%R; vreal (V4 0 1 0 0)%R].

Definition two_points : list (vec4 (option R)) :=
  [vreal (V4 1 0 0 1)%R; vreal (V4 0 0 1 1)%R].

End North.

(** ** The inverse solve as the specification words it *)

Section InverseSolve.
Context {T : Type} `{SC : Scalar T} `{UT : Utils T}.
Local Open Scope scalar_scope.

(** The two joint angles for one row [m] of the desired normal, in the
    words of the specification: [te] and [tn] are the deviation parameters
    [second_joint_translation_e] and [second_joint_translation_n]. *)
Definition inverse_solve (te tn : T) (m : vec4 T) : T * T :=
  let joint2_angle := - sasin (- vE m / scos tn) in
  let a := - scos te * scos joint2_angle + ssin te * ssin tn * ssin joint2_angle in
  let b := - ssin te * scos joint2_angle - scos te * ssin tn * ssin joint2_angle in
  let joint1_angle :=
    satan2 (a * - vU m - b * - vN m) (a * - vN m + b * - vU m) - spi in
  (joint1_angle, joint2_angle).

(** Every round of a call solved these angles from its desired normal. *)
Definition every_round_solves (self : RigidBody T) (r : run T) : Prop :=
  Forall (λ lg,
    log_solved lg
    = Some (map (inverse_solve
                   (second_joint_translation_e (deviation_parameters self))
                   (second_joint_translation_n (deviation_parameters self)))
              (log_desired_concentrator_normal lg)))
    (rounds r).
End InverseSolve.

(** The property every state of a loop has: its batch sizes, and an
    incident ray of as many rows as the one passed in. *)
Definition sized {T : Type} (ray : list (vec4 T)) (st : loop_state T) : Prop :=
  shaped st ∧ length (st_incident_ray_direction st) = length ray.

(** ** A call of [align] on the tensors of the caller

    The tensors that a call can reach are objects of the caller: the
    incident ray, the position and the aim point of the kinematic, the
    deviation parameters and the offsets.  A call reads them where they
    are, and [incident_ray_direction /= incident_ray_direction.norm()]
    writes to the tensor that was passed in. *)

Section OnTensors.
Context {T : Type} `{SC : Scalar T} `{UT : Utils T}.

(** A tensor: rows of four entries (shape (B,4), or (4,) as one row), or
    a single entry (shape ()). *)
Inductive tensor_value :=
| Rows (rows : list (vec4 T))
| Entry (x : T).

Local Abbreviation tensors := (gmap positive tensor_value).

(** A kinematic whose attributes are references to tensors. *)
Record RigidBodyObject := {
  position_at : positive;
  aim_point_at : positive;
  deviation_parameters_at : KinematicDeviations positive;
  initial_orientation_offsets_at : KinematicOffsets positive;
  actuator_list_of : list (Actuator T)
}.

Definition rows_at (h : tensors) (l : positive) : option (list (vec4 T)) :=
  match h !! l with
  | Some (Rows t) => Some t
  | _ => None
  end.

Definition vec_at (h : tensors) (l : positive) : option (vec4 T) :=
  match h !! l with
  | Some (Rows [v]) => Some v
  | _ => None
  end.

Definition entry_at (h : tensors) (l : positive) : option T :=
  match h !! l with
  | Some (Entry x) => Some x
  | _ => None
  end.

Definition deviations_at (h : tensors) (d : KinematicDeviations positive)
    : option (KinematicDeviations T) :=
  t1e ← entry_at h (first_joint_translation_e d);
  t1n ← entry_at h (first_joint_translation_n d);
  t1u ← entry_at h (first_joint_translation_u d);
  r1e ← entry_at h (first_joint_tilt_e d);
  r1n ← entry_at h (first_joint_tilt_n d);
  r1u ← entry_at h (first_joint_tilt_u d);
  t2e ← entry_at h (second_joint_translation_e d);
  t2n ← entry_at h (second_joint_translation_n d);
  t2u ← entry_at h (second_joint_translation_u d);
  r2e ← entry_at h (second_joint_tilt_e d);
  r2n ← entry_at h (second_joint_tilt_n d);
  r2u ← entry_at h (second_joint_tilt_u d);
  tce ← entry_at h (concentrator_translation_e d);
  tcn ← entry_at h (concentrator_translation_n d);
  tcu ← entry_at h (concentrator_translation_u d);
  rce ← entry_at h (concentrator_tilt_e d);
  rcn ← entry_at h (concentrator_tilt_n d);
  rcu ← entry_at h (concentrator_tilt_u d);
  Some {| first_joint_translation_e := t1e;
          first_joint_translation_n := t1n;
          first_joint_translation_u := t1u;
          first_joint_tilt_e := r1e;
          first_joint_tilt_n := r1n;
          first_joint_tilt_u := r1u;
          second_joint_translation_e := t2e;
          second_joint_translation_n := t2n;
          second_joint_translation_u := t2u;
          second_joint_tilt_e := r2e;
          second_joint_tilt_n := r2n;
          second_joint_tilt_u := r2u;
          concentrator_translation_e := tce;
          concentrator_translation_n := tcn;
          concentrator_translation_u := tcu;
          concentrator_tilt_e := rce;
          concentrator_tilt_n := rcn;
          concentrator_tilt_u := rcu |}.

Definition offsets_at (h : tensors) (f : KinematicOffsets positive)
    : option (KinematicOffsets T) :=
  e ← entry_at h (kinematic_initial_orientation_offset_e f);
  n ← entry_at h (kinematic_initial_orientation_offset_n f);
  u ← entry_at h (kinematic_initial_orientation_offset_u f);
  Some {| kinematic_initial_orientation_offset_e := e;
          kinematic_initial_orientation_offset_n := n;
          kinematic_initial_orientation_offset_u := u |}.

(** The values that the attributes of the kinematic hold at the moment. *)
Definition self_at (h : tensors) (o : RigidBodyObject) : option (RigidBody T) :=
  p ← vec_at h (position_at o);
  a ← vec_at h (aim_point_at o);
  d ← deviations_at h (deviation_parameters_at o);
  f ← offsets_at h (initial_orientation_offsets_at o);
  Some {| position := p;
          aim_point := a;
          deviation_parameters := d;
          initial_orientation_offsets := f;
          actuator_list := actuator_list_of o |}.

Definition with_ray (st : loop_state T) (ray : list (vec4 T)) : loop_state T :=
  LoopState (actuator_steps st) (orientation st) (last_iteration_loss st) ray.

(** The loop: every round reads the attributes of the kinematic and the
    incident ray where they are (within a round all of them are read
    before line 223 writes), and leaves the incident ray of the round in
    the caller's tensor.  [None] is a call on tensors of other shapes than
    the ones modelled. *)
Fixpoint align_loop_at (o : RigidBodyObject) (a1 a2 : Actuator T) (min_eps : T)
    (ray_at : positive) (n : nat) (st : loop_state T) (h : tensors)
    : option ((exn + loop_state T) * tensors) :=
  match n with
  | O => Some (inr st, h)
  | S n =>
      self ← self_at h o;
      ray ← rows_at h ray_at;
      match align_round self a1 a2 min_eps (with_ray st ray) with
      | Failed e ray' => Some (inl e, <[ray_at := Rows ray']> h)
      | Broke st' _ =>
          Some (inr st', <[ray_at := Rows (st_incident_ray_direction st')]> h)
      | Next st' _ =>
          align_loop_at o a1 a2 min_eps ray_at n st'
            (<[ray_at := Rows (st_incident_ray_direction st')]> h)
      end
  end.

(** [align]: what the call returns or raises, and the tensors of the
    caller afterwards. *)
Definition align_at (h : tensors) (o : RigidBodyObject) (ray_at : positive)
    (max_num_iterations : Z) (min_eps : T)
    : option (result (list (mat4 T)) * tensors) :=
  match actuator_list_of o with
  | [a1; a2] =>
      ray ← rows_at h ray_at;
      '(r, h') ← align_loop_at o a1 a2 min_eps ray_at (Z.to_nat max_num_iterations)
                   (LoopState [(szero, szero)] None None ray) h;
      match r with
      | inl e => Some (Raise e, h')
      | inr st =>
          match orientation st with
          | None => Some (Raise TypeError, h')
          | Some orientation =>
              self ← self_at h' o;
              Some (apply_offsets self orientation, h')
          end
      end
  | _ => Some (Raise AssertionError, h)
  end.

(** [align_surface]: [align] with its defaults, then the surface tensors
    are read and multiplied. *)
Definition align_surface_at (h : tensors) (o : RigidBodyObject)
    (ray_at points_at normals_at : positive)
    : option (result (list (vec4 T) * list (vec4 T)) * tensors) :=
  '(r, h') ← align_at h o ray_at 2 s1e_4;
  surface_points ← rows_at h' points_at;
  surface_normals ← rows_at h' normals_at;
  Some (orientation ← r;
        aligned_surface_points ← bcast2 mat_vec orientation surface_points;
        aligned_surface_normals ← bcast2 mat_vec orientation surface_normals;
        Ok (aligned_surface_points, aligned_surface_normals),
        h').

(** After the call the tensor of the incident ray holds the ray divided
    by its norm. *)
Definition normalized_after_call (h : tensors) (o : RigidBodyObject)
    (ray_at : positive) (max_num_iterations : Z) (min_eps : T) : Prop :=
  ∃ ray res h',
    rows_at h ray_at = Some ray
    ∧ align_at h o ray_at max_num_iterations min_eps = Some (res, h')
    ∧ rows_at h' ray_at = Some (div_norm ray).
End OnTensors.

Arguments tensor_value : clear implicits.

Abbreviation tensors T := (gmap positive (tensor_value T)).
Arguments RigidBodyObject : clear implicits.

(** ** Further scenarios *)

(** The orientation of the kinematic [heliostat] with both actuators at
    zero motor steps: the tilt of the first joint about N by 1/100, then
    the concentrator translation by 1/2 along U. *)
Module AtRest.


End AtRest.

(** The scenario with the first joint tilted about the U axis by pi/2 and
    the incident ray (4,-1,8): the angles solved in the first round do
    not bring the concentrator normal onto the desired normal, and the
    loop stops in its second round all the same. *)
Module Tilted.
Import XR.

Definition tilted_deviations : KinematicDeviations (option R) :=
  {| first_joint_translation_e := Some 0%R;
     first_joint_translation_n := Some 0%R;
     first_joint_translation_u := Some 0%R;
     first_joint_tilt_e := Some 0%R;
     first_joint_tilt_n := Some 0%R;
     first_joint_tilt_u := Some (PI / 2)%R;
     second_joint_translation_e := Some 0%R;
     second_joint_translation_n := Some 0%R;
     second_joint_translation_u := Some 0%R;
     second_joint_tilt_e := Some 0%R;
     second_joint_tilt_n := Some 0%R;
     second_joint_tilt_u := Some 0%R;
     concentrator_translation_e := Some 0%R;
     concentrator_translation_n := Some 0%R;
     concentrator_translation_u := Some 0%R;
     concentrator_tilt_e := Some 0%R;
     concentrator_tilt_n := Some 0%R;
     concentrator_tilt_u := Some 0%R |}.

Definition tilted_scenario : RigidBody (option R) :=
  {| position := vreal (V4 0 0 0 1)%R;
     aim_point := vreal (V4 0 100 0 1)%R;
     deviation_parameters := tilted_deviations;
     initial_orientation_offsets := zero_offsets;
     actuator_list := [identity_actuator; identity_actuator] |}.

Definition oblique_ray : list (vec4 (option R)) := [vreal (V4 4 (-1) 8 0)%R].

Definition oblique_unit_ray : list (vec4 (option R)) :=
  [vreal (V4 (4/9) (-1/9) (8/9) 0)%R].

(** The orientation of the first round: the tilt alone. *)
Definition quarter_turn : mat4 (option R) :=
  M4 (vreal (V4 0 (-1) 0 0)%R) (vreal (V4 1 0 0 0)%R)
     (vreal (V4 0 0 1 0)%R) (vreal (V4 0 0 0 1)%R).

(** The orientation of the second round, at the joint angles pi/4 - pi
    and arcsin(1/3). *)
Definition second_orientation : mat4 (option R) :=
  M4 (vreal (V4 (sqrt 2 / 6) (2/3) (- (sqrt 2 / 2)) 0)%R)
     (vreal (V4 (2 * sqrt 2 / 3) (-1/3) 0 0)%R)
     (vreal (V4 (- (sqrt 2 / 6)) (-2/3) (- (sqrt 2 / 2)) 0)%R)
     (vreal (V4 0 0 0 1)%R).

Definition tilted_round_1 : round_log (option R) :=
  RoundLog [Some 0%R] [Some 0%R] [quarter_turn]
    [vreal (V4 1 0 0 0)%R] [vreal (V4 0 0 0 1)%R] oblique_ray
    [vreal (V4 0 1 0 0)%R] [vreal (V4 (1/3) (2/3) (2/3) 0)%R]
    [vreal (V4 (2/3) (2/3) (2/3) 0)%R]
    None false (Some [(Some (PI / 4 - PI)%R, Some (asin (1/3))%R)]).

Definition tilted_round_2 : round_log (option R) :=
  RoundLog [Some (PI / 4 - PI)%R] [Some (asin (1/3))%R] [second_orientation]
    [vreal (V4 (-2/3) (1/3) (2/3) 0)%R] [vreal (V4 0 0 0 1)%R] oblique_unit_ray
    [vreal (V4 0 1 0 0)%R] [vreal (V4 (1/3) (2/3) (2/3) 0)%R]
    [vreal (V4 1 (1/3) 0 0)%R]
    (Some [vreal (V4 (1/3) (1/3) (2/3) 0)%R]) true None.

End Tilted.

(** The tensors of a caller of the scenario: position at 1, aim point at
    2, the deviation parameters at 3 to 20, the offsets at 21 to 23, and
    an incident ray at 30, surface points at 31 and surface normals at
    32. *)
Module Caller.
Import XR.

Definition scenario_object : RigidBodyObject (option R) :=
  {| position_at := 1;
     aim_point_at := 2;
     deviation_parameters_at :=
       {| first_joint_translation_e := 3;
          first_joint_translation_n := 4;
          first_joint_translation_u := 5;
          first_joint_tilt_e := 6;
          first_joint_tilt_n := 7;
          first_joint_tilt_u := 8;
          second_joint_translation_e := 9;
          second_joint_translation_n := 10;
          second_joint_translation_u := 11;
          second_joint_tilt_e := 12;
          second_joint_tilt_n := 13;
          second_joint_tilt_u := 14;
          concentrator_translation_e := 15;
          concentrator_translation_n := 16;
          concentrator_translation_u := 17;
          concentrator_tilt_e := 18;
          concentrator_tilt_n := 19;
          concentrator_tilt_u := 20 |};
     initial_orientation_offsets_at :=
       {| kinematic_initial_orientation_offset_e := 21;
          kinematic_initial_orientation_offset_n := 22;
          kinematic_initial_orientation_offset_u := 23 |};
     actuator_list_of := [identity_actuator; identity_actuator] |}%positive.

Definition zero_entries : tensors (option R) :=
  list_to_map
    (map (λ l, (l, Entry (Some 0%R)))
       [3; 4; 5; 6; 7; 8; 9; 10; 11; 12; 13; 14; 15; 16; 17; 18; 19; 20;
        21; 22; 23]%positive).

Definition long_ray : list (vec4 (option R)) := [vreal (V4 0 2 0 0)%R].

Definition caller_tensors : tensors (option R) :=
  <[1%positive := Rows [vreal (V4 0 0 0 1)%R]]>
    (<[2%positive := Rows [vreal (V4 0 100 0 1)%R]]>
       (<[30%positive := Rows long_ray]>
          (<[31%positive := Rows [vreal (V4 1 0 0 1)%R; vreal (V4 0 0 1 1)%R]]>
             (<[32%positive := Rows [vreal (V4 0 (-1) 0 0)%R]]> zero_entries)))).

End Caller.

(** ** Shapes: broadcasting in [align] never fails *)

Section Shapes.
Context {A B C : Type} (f : A → B → C).

Lemma bcast2_same (xs : list A) (ys : list B) :
  length xs = length ys → bcast2 f xs ys = Ok (zip_with f xs ys).
Proof. intros E. unfold bcast2. by rewrite decide_True. Qed.

Lemma bcast2_one_r (xs : list A) (y : B) :
  bcast2 f xs [y] = Ok (map (λ x, f x y) xs).
Proof.
  unfold bcast2. destruct xs as [|x [|x' xs]]; simpl; try reflexivity.
Qed.

Lemma bcast2_one_l (x : A) (ys : list B) :
  bcast2 f [x] ys = Ok (map (f x) ys).
Proof.
  unfold bcast2. destruct ys as [|y [|y' ys]]; simpl; try reflexivity.
Qed.
End Shapes.

(** ** The orientation of a round is the forward chain *)

Section ChainFacts.
Context {T : Type} `{SC : Scalar T} `{UT : Utils T}.

Lemma chain_zip (X Tp J1 J2 Tc : mat4 T) (j1 j2 : list T) :
  length j1 = length j2 →
  map (λ x, mat_mul x Tc)
    (zip_with mat_mul
       (zip_with mat_mul (map (λ x, mat_mul x Tp) (replicate (length j1) X))
          (map (mat_mul J1) (map rotate_e j1)))
       (map (mat_mul J2) (map rotate_u j2)))
  = zip_with (λ a b,
      mat_mul (mat_mul (mat_mul (mat_mul X Tp) (mat_mul J1 (rotate_e a)))
                 (mat_mul J2 (rotate_u b))) Tc) j1 j2.
Proof.
  revert j2. induction j1 as [|a j1 IH]; intros [|b j2] E; simpl in *; try done.
  f_equal. apply IH. lia.
Qed.

Lemma round_orientation_ok (self : RigidBody T) (j1 j2 : list T) :
  length j1 = length j2 →
  round_orientation self j1 j2 = Ok (zip_with (forward_chain self) j1 j2).
Proof.
  intros E. unfold round_orientation, bmm.
  rewrite !bcast2_one_r. simpl.
  rewrite !bcast2_one_l. simpl.
  rewrite (bcast2_same mat_mul)
    by (by rewrite !length_map, length_replicate).
  simpl.
  rewrite (bcast2_same mat_mul)
    by (rewrite length_zip_with, !length_map, length_replicate; lia).
  simpl. rewrite bcast2_one_r. f_equal.
  rewrite chain_zip by done. reflexivity.
Qed.
End ChainFacts.

(** ** The rounds of the loop have the entries of [round_facts] *)

Section RoundFacts.
Context {T : Type} `{SC : Scalar T} `{UT : Utils T}.
Variables (self : RigidBody T) (a1 a2 : Actuator T) (min_eps : T).

Lemma angles_same_length (st : loop_state T) :
  length (map (forward a1) (map fst (actuator_steps st)))
  = length (map (forward a2) (map snd (actuator_steps st))).
Proof. by rewrite !length_map. Qed.

Lemma align_round_next (st st' : loop_state T) (lg : round_log T) :
  align_round self a1 a2 min_eps st = Next st' lg →
  round_facts self a1 a2 min_eps st lg ∧ log_break lg = false ∧ st' = next_state self a1 a2 st lg.
Proof.
  unfold align_round.
  rewrite round_orientation_ok by apply angles_same_length.
  destruct (bcast2 vadd _ _) as [d0|e] eqn:Ed; simpl; [|done].
  destruct (bcast2 _ (div_norm d0) _) as [loss|e] eqn:El; simpl; [|done].
  destruct (convergence _ _ _) as [[eps stop]|e] eqn:Ec; simpl; [|done].
  destruct stop; [done|]. intros [= <- <-].
  split; [|done]. constructor; simpl; eauto.
Qed.

Lemma align_round_broke (st st' : loop_state T) (lg : round_log T) :
  align_round self a1 a2 min_eps st = Broke st' lg →
  round_facts self a1 a2 min_eps st lg ∧ log_break lg = true ∧ st' = break_state st lg.
Proof.
  unfold align_round.
  rewrite round_orientation_ok by apply angles_same_length.
  destruct (bcast2 vadd _ _) as [d0|e] eqn:Ed; simpl; [|done].
  destruct (bcast2 _ (div_norm d0) _) as [loss|e] eqn:El; simpl; [|done].
  destruct (convergence _ _ _) as [[eps stop]|e] eqn:Ec; simpl; [|done].
  destruct stop; [|done]. intros [= <- <-].
  split; [|done]. constructor; simpl; eauto.
Qed.

Lemma align_loop_rounds (n : nat) (st : loop_state T) r (lgs : list (round_log T)) :
  align_loop self a1 a2 min_eps n st = (r, lgs) → rounds_from self a1 a2 min_eps st lgs.
Proof.
  revert st r lgs. induction n as [|n IH]; intros st r lgs; simpl.
  - by intros [= <- <-].
  - destruct (align_round _ _ _ _ st) as [st' lg|st' lg|e ray] eqn:Er.
    + apply align_round_next in Er as (F & Hb & ->).
      destruct (align_loop _ _ _ _ n _) as [r' lgs'] eqn:El.
      intros [= <- <-]. simpl. split; [done|]. rewrite Hb. eauto.
    + apply align_round_broke in Er as (F & Hb & ->).
      intros [= <- <-]. simpl. split; [done|]. by rewrite Hb.
    + by intros [= <- <-].
Qed.

Lemma rounds_from_elem (st : loop_state T) (lgs : list (round_log T)) (lg : round_log T) :
  rounds_from self a1 a2 min_eps st lgs → lg ∈ lgs → ∃ st0, round_facts self a1 a2 min_eps st0 lg.
Proof.
  revert st. induction lgs as [|l lgs IH]; intros st H Hin.
  - by apply elem_of_nil in Hin.
  - apply elem_of_cons in Hin as [->|Hin]; simpl in H; destruct H as [F H].
    + eauto.
    + destruct (log_break l); [subst; by apply elem_of_nil in Hin|eauto].
Qed.
End RoundFacts.

(** ** The loop raises nothing *)

Section Total.
Context {T : Type} `{SC : Scalar T} `{UT : Utils T}.
Variables (self : RigidBody T) (a1 a2 : Actuator T) (min_eps : T).

Lemma bcast2_total {A B C} (f : A → B → C) (xs : list A) (ys : list B) :
  length ys = 1 ∨ length ys = length xs →
  ∃ zs, bcast2 f xs ys = Ok zs ∧ length zs = length xs.
Proof.
  intros [E|E].
  - destruct ys as [|y [|??]]; try done. rewrite bcast2_one_r.
    eexists; split; [done|]. by rewrite length_map.
  - rewrite bcast2_same by done. eexists; split; [done|].
    rewrite length_zip_with. lia.
Qed.

Lemma length_div_norm (t : list (vec4 T)) : length (div_norm t) = length t.
Proof. unfold div_norm. by rewrite length_map. Qed.

Lemma align_round_total (st : loop_state T) :
  shaped st →
  ∃ st' lg,
    (align_round self a1 a2 min_eps st = Next st' lg ∧ shaped st')
    ∨ align_round self a1 a2 min_eps st = Broke st' lg.
Proof.
  intros Hs. unfold align_round.
  rewrite round_orientation_ok by apply angles_same_length.
  set (o := zip_with _ _ _).
  assert (Ho : length o = length (actuator_steps st)).
  { unfold o. rewrite length_zip_with, !length_map. lia. }
  set (ray := div_norm (st_incident_ray_direction st)).
  set (refl := div_norm _).
  assert (Hr : length refl = length (actuator_steps st)).
  { unfold refl. by rewrite length_div_norm, !length_map. }
  destruct (bcast2_total vadd ray refl) as (d0 & -> & Hd0).
  { unfold ray. rewrite length_div_norm, Hr. destruct Hs as [[-> _]|[-> _]]; auto. }
  simpl.
  set (nrm := map _ o).
  destruct (bcast2_total (λ d n, vabs (vsub d n)) (div_norm d0) nrm) as (loss & -> & Hl).
  { unfold nrm. rewrite length_div_norm, length_map, Ho, Hd0. unfold ray.
    rewrite length_div_norm. destruct Hs as [[-> _]|[-> _]]; auto. }
  simpl.
  assert (Hc : ∃ eps stop,
    convergence min_eps (last_iteration_loss st) loss = Ok (eps, stop)).
  { unfold convergence. destruct (last_iteration_loss st) as [l|] eqn:El; [|eauto].
    destruct (bcast2_total (λ l x, vabs (vsub l x)) l loss) as (eps & -> & _);
      [|simpl; eauto].
    right. rewrite Hl, length_div_norm, Hd0. unfold ray. rewrite length_div_norm.
    destruct Hs as [[_ ?]|[_ H]]; [congruence|]. symmetry. by apply H. }
  destruct Hc as (eps & stop & ->). simpl.
  destruct stop; do 2 eexists; [by right|left; split; [done|]].
  right. simpl. fold ray. rewrite !length_map, length_div_norm, Hd0.
  split; [done|]. intros l [= <-]. by rewrite Hl, length_div_norm, Hd0.
Qed.

Lemma align_loop_total (n : nat) (st : loop_state T) :
  shaped st →
  ∃ stf lgs,
    align_loop self a1 a2 min_eps n st = (inr stf, lgs)
    ∧ length lgs ≤ n
    ∧ (length lgs < n → ∃ lg, last lgs = Some lg ∧ log_break lg = true)
    ∧ st_incident_ray_direction stf
      = Nat.iter (length lgs) div_norm (st_incident_ray_direction st)
    ∧ orientation stf
      = match last lgs with
        | Some lg => Some (log_orientation lg)
        | None => orientation st
        end.
Proof.
  revert st. induction n as [|n IH]; intros st Hs; simpl.
  - exists st, []. repeat split; simpl; auto; lia.
  - destruct (align_round_total st Hs) as (st' & lg & [[Er Hs']|Er]); rewrite Er.
    + apply align_round_next in Er as (F & Hb & Hst).
      destruct (IH st' Hs') as (stf & lgs & -> & Hn & Hbr & Hray & Ho).
      exists stf, (lg :: lgs). repeat split; simpl; [lia| | |].
      * intros Hlt. destruct lgs as [|l lgs]; [simpl in *|].
        -- destruct Hbr as (? & ? & _); [lia|done].
        -- destruct Hbr as (lg' & ? & ?); [simpl in *; lia|]. exists lg'.
           split; [|done]. by rewrite last_cons_cons.
      * rewrite Hray, Hst. simpl. by rewrite <- Nat.iter_succ_r.
      * rewrite Ho, Hst. simpl. destruct lgs as [|l lgs]; [done|].
        rewrite last_cons_cons. destruct (last (l :: lgs)) eqn:E; [done|].
        by apply last_None in E.
    + apply align_round_broke in Er as (F & Hb & ->).
      exists (break_state st lg), [lg]. repeat split; simpl; auto; try lia.
      intros _. eauto.
Qed.
End Total.

(** ** A call of [align] *)

Section Call.
Context {T : Type} `{SC : Scalar T} `{UT : Utils T}.

Lemma initial_state_shaped (ray : list (vec4 T)) : shaped (initial_state ray).
Proof. by left. Qed.

Lemma align_not_two (self : RigidBody T) (ray : list (vec4 T)) (n : Z) (min_eps : T) :
  length (actuator_list self) ≠ 2 →
  align self ray n min_eps = Run (Raise AssertionError) ray [].
Proof.
  unfold align. destruct (actuator_list self) as [|a1 [|a2 [|a3 l]]]; simpl; done.
Qed.

Lemma apply_offsets_ok (self : RigidBody T) (o : list (mat4 T)) :
  ∃ o', apply_offsets self o = Ok o' ∧ length o' = length o.
Proof.
  unfold apply_offsets, bmm. rewrite bcast2_one_r. simpl.
  rewrite bcast2_one_r. simpl. rewrite bcast2_one_r.
  eexists; split; [done|]. by rewrite !length_map.
Qed.

(** With two actuators: the loop ends in a state, and the call returns
    the orientation of the last round with the offsets applied, or
    raises [TypeError] when there was no round. *)
Lemma align_two (self : RigidBody T) (a1 a2 : Actuator T)
    (ray : list (vec4 T)) (n : Z) (min_eps : T) :
  actuator_list self = [a1; a2] →
  let r := align self ray n min_eps in
  rounds_from self a1 a2 min_eps (initial_state ray) (rounds r)
  ∧ length (rounds r) ≤ Z.to_nat n
  ∧ (length (rounds r) < Z.to_nat n →
     ∃ lg, last (rounds r) = Some lg ∧ log_break lg = true)
  ∧ ray_after r = Nat.iter (length (rounds r)) div_norm ray
  ∧ returned r
    = match last (rounds r) with
      | Some lg => apply_offsets self (log_orientation lg)
      | None => Raise TypeError
      end.
Proof.
  intros Ha. cbv zeta. unfold align. rewrite Ha. fold (initial_state ray).
  destruct (align_loop_total self a1 a2 min_eps (Z.to_nat n) (initial_state ray))
    as (stf & lgs & El & Hn & Hbr & Hray & Ho); [apply initial_state_shaped|].
  rewrite El. apply align_loop_rounds in El. rewrite Ho. simpl.
  destruct (last lgs) as [lg|] eqn:Elast; simpl; rewrite ?Elast; repeat split; auto.
Qed.

Lemma two_actuators (self : RigidBody T) :
  length (actuator_list self) = 2 → ∃ a1 a2, actuator_list self = [a1; a2].
Proof. destruct (actuator_list self) as [|a1 [|a2 [|a3 l]]]; simpl; try done. eauto. Qed.

(** Every round of every call has the entries of [round_facts]. *)
Lemma align_round_facts (self : RigidBody T) (ray : list (vec4 T)) (n : Z) (min_eps : T) :
  Forall (λ lg, ∃ a1 a2 st, round_facts self a1 a2 min_eps st lg)
    (rounds (align self ray n min_eps)).
Proof.
  destruct (decide (length (actuator_list self) = 2)) as [E|NE].
  - destruct (two_actuators self E) as (a1 & a2 & Ha).
    destruct (align_two self a1 a2 ray n min_eps Ha) as (Hr & _).
    apply Forall_forall. intros lg Hin.
    destruct (rounds_from_elem _ _ _ _ _ _ _ Hr Hin) as [st F]. eauto.
  - rewrite align_not_two by done. constructor.
Qed.
End Call.

(** ** Consecutive rounds *)

Section Consecutive.
Context {T : Type} `{SC : Scalar T} `{UT : Utils T}.
Variables (self : RigidBody T) (a1 a2 : Actuator T) (min_eps : T).

Lemma bcast2_total_eq {A B C} (f : A → B → C) (xs : list A) (ys : list B) (zs : list C) :
  length ys = 1 ∨ length ys = length xs →
  bcast2 f xs ys = Ok zs → length zs = length xs.
Proof.
  intros H E. destruct (bcast2_total f xs ys H) as (zs' & E' & L). congruence.
Qed.

(** The loss of a round has as many rows as the incident ray, and so has
    the state handed on. *)
Lemma round_facts_shaped (st : loop_state T) (lg : round_log T) :
  shaped st → round_facts self a1 a2 min_eps st lg →
  length (log_loss lg) = length (st_incident_ray_direction st)
  ∧ shaped (next_state self a1 a2 st lg).
Proof.
  intros Hs F.
  assert (Ho : length (log_orientation lg) = length (actuator_steps st)).
  { rewrite (rf_orientation _ _ _ _ _ _ F), length_zip_with,
      (rf_joint_1 _ _ _ _ _ _ F), (rf_joint_2 _ _ _ _ _ _ F), !length_map. lia. }
  assert (Hb : length (actuator_steps st) = 1
               ∨ length (actuator_steps st) = length (st_incident_ray_direction st)).
  { destruct Hs as [[? _]|[? _]]; auto. }
  destruct (rf_desired _ _ _ _ _ _ F) as (d0 & Ed & Edes).
  apply bcast2_total_eq in Ed.
  2:{ rewrite (rf_reflect _ _ _ _ _ _ F), !length_div_norm, length_map,
        (rf_origins _ _ _ _ _ _ F), length_map, Ho, (rf_ray _ _ _ _ _ _ F). done. }
  rewrite length_div_norm, (rf_ray _ _ _ _ _ _ F) in Ed.
  pose proof (rf_loss _ _ _ _ _ _ F) as El. apply bcast2_total_eq in El.
  2:{ rewrite Edes, length_div_norm, Ed, (rf_normals _ _ _ _ _ _ F), length_map, Ho. done. }
  rewrite Edes, length_div_norm, Ed in El.
  split; [done|]. right. simpl.
  rewrite !length_map, Edes, !length_div_norm, Ed. split; [done|].
  by intros l [= <-].
Qed.

(** Two rounds that follow each other: the later one started in the state
    the earlier one handed on. *)
Lemma rounds_from_consecutive (st : loop_state T) (lgs : list (round_log T))
    (i : nat) (lg lg' : round_log T) :
  shaped st → rounds_from self a1 a2 min_eps st lgs →
  lgs !! i = Some lg → lgs !! S i = Some lg' →
  ∃ st0, shaped st0 ∧ round_facts self a1 a2 min_eps st0 lg ∧ log_break lg = false
         ∧ round_facts self a1 a2 min_eps (next_state self a1 a2 st0 lg) lg'.
Proof.
  revert st i. induction lgs as [|l lgs IH]; intros st i Hs H Hi Hi'; [done|].
  simpl in H. destruct H as [F H]. destruct i as [|i]; simpl in *.
  - injection Hi as ->. destruct (log_break lg) eqn:Hb; [by subst|].
    destruct lgs as [|l2 lgs]; [done|]. injection Hi' as ->.
    simpl in H. destruct H as [F' _]. eauto.
  - destruct (log_break l) eqn:Hb; [by subst|].
    apply (IH (next_state self a1 a2 st l) i); auto.
    by apply (round_facts_shaped st l).
Qed.

Lemma rounds_from_break_last (st : loop_state T) (lgs : list (round_log T))
    (i : nat) (lg : round_log T) :
  rounds_from self a1 a2 min_eps st lgs →
  lgs !! i = Some lg → log_break lg = true → length lgs = S i.
Proof.
  revert st i. induction lgs as [|l lgs IH]; intros st i H Hi Hb; [done|].
  simpl in H. destruct H as [F H]. destruct i as [|i]; simpl in *.
  - injection Hi as ->. rewrite Hb in H. by subst.
  - destruct (log_break l); [by subst|]. f_equal. eauto.
Qed.

Lemma any_le_spec (eps : list (vec4 T)) :
  any_le eps min_eps = true ↔
  ∃ v, v ∈ eps ∧ (sleb (vE v) min_eps = true ∨ sleb (vN v) min_eps = true
                  ∨ sleb (vU v) min_eps = true ∨ sleb (vW v) min_eps = true).
Proof.
  unfold any_le. rewrite existsb_exists. unfold vany.
  split; intros (v & Hin & H); exists v; (split; [by apply list_elem_of_In|]).
  - repeat (apply orb_true_iff in H as [H|H]); auto.
  - rewrite !orb_true_iff. tauto.
Qed.
End Consecutive.

(** ** The first round of a call *)

Section FirstRound.
Context {T : Type} `{SC : Scalar T} `{UT : Utils T}.

Lemma align_first_round (self : RigidBody T) (a1 a2 : Actuator T)
    (ray : list (vec4 T)) (n : Z) (min_eps : T) (st : loop_state T) (lg : round_log T) :
  actuator_list self = [a1; a2] → (0 < n)%Z →
  align_round self a1 a2 min_eps (initial_state ray) = Next st lg →
  ∃ lgs, rounds (align self ray n min_eps) = lg :: lgs.
Proof.
  intros Ha Hn Er. unfold align. rewrite Ha. fold (initial_state ray).
  destruct (Z.to_nat n) as [|k] eqn:Ek; [lia|]. simpl. rewrite Er.
  destruct (align_loop _ _ _ _ k st) as [[[e ray']|stf] lgs]; simpl; eauto.
  destruct (orientation stf); simpl; eauto.
Qed.
End FirstRound.

(** ** The statements about [align], for every scalar arithmetic *)

Section AlignFacts.
Context {T : Type} `{SC : Scalar T} `{UT : Utils T}.
Local Open Scope scalar_scope.

(** The test that stops the loop, as the code makes it: the first round of
    [align] makes no test; every later round compares its loss with the
    loss of the round before, entry by entry over the four columns of the
    loss, and stops the loop exactly when some entry of some row of the
    absolute change is at most [min_eps], the fourth column included; a
    round that stops is the last, a round that does not is followed by
    another while fewer than [max_num_iterations] rounds have run. *)
Lemma stop_test_any_entry (self : RigidBody T) (incident_ray_direction : list (vec4 T))
    (max_num_iterations : Z) (min_eps : T) :
  let r := align self incident_ray_direction max_num_iterations min_eps in
  (∀ lg, rounds r !! 0 = Some lg → log_eps lg = None ∧ log_break lg = false)
  ∧ (∀ i lg lg', rounds r !! i = Some lg → rounds r !! S i = Some lg' →
       let eps := zip_with (λ l x, vabs (vsub l x)) (log_loss lg) (log_loss lg') in
       log_eps lg' = Some eps
       ∧ (log_break lg' = true ↔
          ∃ v, v ∈ eps ∧ (sleb (vE v) min_eps = true ∨ sleb (vN v) min_eps = true
                          ∨ sleb (vU v) min_eps = true ∨ sleb (vW v) min_eps = true)))
  ∧ (∀ i lg, rounds r !! i = Some lg →
       (log_break lg = true → length (rounds r) = S i)
       ∧ (log_break lg = false → S i < Z.to_nat max_num_iterations →
          S i < length (rounds r)))
  ∧ length (rounds r) ≤ Z.to_nat max_num_iterations
  ∧ (length (actuator_list self) = 2 →
     Forall (λ lg, log_break lg = false) (rounds r) →
     length (rounds r) = Z.to_nat max_num_iterations).
Proof.
  cbv zeta. destruct (decide (length (actuator_list self) = 2)) as [E|NE].
  2:{ rewrite align_not_two by done. simpl. repeat split; try done. lia. }
  destruct (two_actuators self E) as (a1 & a2 & Ha).
  destruct (align_two self a1 a2 incident_ray_direction max_num_iterations min_eps Ha)
    as (Hr & Hn & Hbr & _).
  set (lgs := rounds _) in *. clearbody lgs.
  assert (Hlast : ∀ i lg, lgs !! i = Some lg → log_break lg = false →
                  length lgs = S i → Z.to_nat max_num_iterations ≤ S i).
  { intros i lg Hi Hb Hlen. destruct (decide (length lgs < Z.to_nat max_num_iterations))
      as [Hlt|]; [|lia].
    destruct (Hbr Hlt) as (lg' & Hl & Hb'). rewrite last_lookup, Hlen in Hl.
    simpl in Hl. congruence. }
  assert (Hpair : ∀ i lg lg', lgs !! i = Some lg → lgs !! S i = Some lg' →
    convergence min_eps (Some (log_loss lg)) (log_loss lg')
      = Ok (log_eps lg', log_break lg')
    ∧ length (log_loss lg) = length (log_loss lg')).
  { intros i lg lg' Hi Hi'.
    destruct (rounds_from_consecutive self a1 a2 min_eps _ lgs i lg lg'
                (initial_state_shaped _) Hr Hi Hi') as (st0 & Hs & F & Hb & F').
    destruct (round_facts_shaped self a1 a2 min_eps st0 lg Hs F) as [Hl Hs'].
    destruct (round_facts_shaped self a1 a2 min_eps _ lg' Hs' F') as [Hl' _].
    split; [apply (rf_convergence _ _ _ _ _ _ F')|].
    rewrite Hl, Hl'. simpl. by rewrite length_div_norm. }
  split; [|split; [|split; [|split]]].
  - intros lg Hi. destruct lgs as [|l lgs]; [done|]. injection Hi as ->.
    destruct Hr as [F _].
    pose proof (rf_convergence _ _ _ _ _ _ F) as Hc. simpl in Hc.
    split; congruence.
  - intros i lg lg' Hi Hi'. destruct (Hpair i lg lg' Hi Hi') as [Hc Hl].
    simpl in Hc. rewrite bcast2_same in Hc by done. simpl in Hc.
    injection Hc as <- <-. split; [done|]. apply any_le_spec.
  - intros i lg Hi. split.
    + intros Hb. by eapply rounds_from_break_last.
    + intros Hb Hlt. apply lookup_lt_Some in Hi as Hlen.
      destruct (decide (length lgs = S i)) as [Hl|]; [|lia].
      specialize (Hlast i lg Hi Hb Hl). lia.
  - done.
  - intros _ Hall. destruct (decide (length lgs < Z.to_nat max_num_iterations))
      as [Hlt|]; [|lia].
    destruct (Hbr Hlt) as (lg & Hl & Hb). rewrite Forall_forall in Hall.
    apply last_Some_elem_of in Hl. apply Hall in Hl. congruence.
Qed.

(** C4: when the actuator list does not hold exactly two actuators,
    [align] raises the assertion error before any round runs (no round is
    logged, the incident ray is as it was); with exactly two actuators it
    does not raise the assertion error. *)
Theorem C4_exactly_two_actuators (self : RigidBody T)
    (incident_ray_direction : list (vec4 T)) (max_num_iterations : Z) (min_eps : T) :
  (length (actuator_list self) ≠ 2 →
   align self incident_ray_direction max_num_iterations min_eps
   = Run (Raise AssertionError) incident_ray_direction [])
  ∧ (length (actuator_list self) = 2 →
     returned (align self incident_ray_direction max_num_iterations min_eps)
     ≠ Raise AssertionError).
Proof.
  split; [apply align_not_two|]. intros E.
  destruct (two_actuators self E) as (a1 & a2 & Ha).
  destruct (align_two self a1 a2 incident_ray_direction max_num_iterations min_eps Ha)
    as (_ & _ & _ & _ & ->).
  destruct (last _) as [lg|]; [|done].
  destruct (apply_offsets_ok self (log_orientation lg)) as (o' & -> & _). done.
Qed.

Lemma align_ray_after (self : RigidBody T) (ray : list (vec4 T)) (n : Z) (min_eps : T) :
  let r := align self ray n min_eps in
  ray_after r = Nat.iter (length (rounds r)) div_norm ray
  ∧ length (rounds r) ≤ Z.to_nat n
  ∧ ∀ o, returned r = Ok o → 1 ≤ length (rounds r).
Proof.
  cbv zeta. destruct (decide (length (actuator_list self) = 2)) as [E|NE].
  2:{ rewrite align_not_two by done. simpl. repeat split; [lia|done]. }
  destruct (two_actuators self E) as (a1 & a2 & Ha).
  destruct (align_two self a1 a2 ray n min_eps Ha) as (_ & Hn & _ & Hray & Hret).
  repeat split; [done..|]. intros o. rewrite Hret.
  destruct (rounds _) as [|lg lgs]; [done|]. simpl. lia.
Qed.

(** The incident ray after a call of [align_surface] that returns. *)
Lemma align_surface_ray_after (self : RigidBody T) (ray : list (vec4 T))
    (surface_points surface_normals : list (vec4 T)) aligned :
  (align_surface self ray surface_points surface_normals).1 = Ok aligned →
  ∃ k, 1 ≤ k ≤ 2
       ∧ (align_surface self ray surface_points surface_normals).2
         = Nat.iter k div_norm ray.
Proof.
  unfold align_surface. simpl.
  destruct (align_ray_after self ray 2 s1e_4) as (Hray & Hn & Hret).
  destruct (returned (align self ray 2 s1e_4)) as [o|e] eqn:Eo; [|by simpl].
  intros _. specialize (Hret o eq_refl). rewrite Hray.
  change (Z.to_nat 2) with 2 in Hn. eauto.
Qed.

Lemma align_round_tilts (self : RigidBody T) (a1 a2 : Actuator T) (min_eps e n u : T)
    (st : loop_state T) :
  align_round (with_concentrator_tilts self e n u) a1 a2 min_eps st
  = align_round self a1 a2 min_eps st.
Proof. reflexivity. Qed.

Lemma align_loop_tilts (self : RigidBody T) (a1 a2 : Actuator T) (min_eps e n u : T)
    (k : nat) (st : loop_state T) :
  align_loop (with_concentrator_tilts self e n u) a1 a2 min_eps k st
  = align_loop self a1 a2 min_eps k st.
Proof.
  revert st. induction k as [|k IH]; intros st; simpl; [done|].
  rewrite align_round_tilts. destruct (align_round _ _ _ _ _); try done.
  by rewrite IH.
Qed.

Lemma align_tilts (self : RigidBody T) (e n u : T)
    (ray : list (vec4 T)) (k : Z) (min_eps : T) :
  align (with_concentrator_tilts self e n u) ray k min_eps = align self ray k min_eps.
Proof.
  unfold align. simpl. destruct (actuator_list self) as [|a1 [|a2 [|a3 l]]]; try done.
  by rewrite align_loop_tilts.
Qed.

(** C8: two kinematics that differ in the three concentrator tilts only
    give the same call of [align] (returned orientation, incident ray
    afterwards and every round) and the same aligned surface points and
    normals. *)
Theorem C8_concentrator_tilts_unused (self : RigidBody T) (e n u e' n' u' : T)
    (incident_ray_direction : list (vec4 T)) (max_num_iterations : Z) (min_eps : T)
    (surface_points surface_normals : list (vec4 T)) :
  align (with_concentrator_tilts self e n u)
    incident_ray_direction max_num_iterations min_eps
  = align (with_concentrator_tilts self e' n' u')
      incident_ray_direction max_num_iterations min_eps
  ∧ align_surface (with_concentrator_tilts self e n u)
      incident_ray_direction surface_points surface_normals
    = align_surface (with_concentrator_tilts self e' n' u')
        incident_ray_direction surface_points surface_normals.
Proof.
  split; [by rewrite !align_tilts|]. unfold align_surface. by rewrite !align_tilts.
Qed.
End AlignFacts.

(** ** Zero offsets in exact arithmetic *)

Section Offsets.
Context {T : Type} `{SC : Scalar T} `{UT : Utils T}.

Lemma apply_offsets_map (self : RigidBody T) (o : list (mat4 T)) :
  apply_offsets self o
  = Ok (map (λ m,
      mat_mul
        (mat_mul
           (mat_mul m (rotate_e (kinematic_initial_orientation_offset_e
                                   (initial_orientation_offsets self))))
           (rotate_n (kinematic_initial_orientation_offset_n
                        (initial_orientation_offsets self))))
        (rotate_u (kinematic_initial_orientation_offset_u
                     (initial_orientation_offsets self)))) o).
Proof.
  unfold apply_offsets, bmm. rewrite bcast2_one_r. simpl.
  rewrite bcast2_one_r. simpl. rewrite bcast2_one_r. by rewrite !map_map.
Qed.

(** What a call returns: the orientation of the last round with the
    offsets applied, [TypeError] after no round, [AssertionError] without
    two actuators. *)
Lemma align_returned (self : RigidBody T) (ray : list (vec4 T)) (n : Z) (min_eps : T)
    (o : list (mat4 T)) :
  returned (align self ray n min_eps) = Ok o →
  ∃ lg, last (rounds (align self ray n min_eps)) = Some lg
        ∧ apply_offsets self (log_orientation lg) = Ok o.
Proof.
  destruct (decide (length (actuator_list self) = 2)) as [E|NE].
  2:{ by rewrite align_not_two. }
  destruct (two_actuators self E) as (a1 & a2 & Ha).
  destruct (align_two self a1 a2 ray n min_eps Ha) as (_ & _ & _ & _ & ->).
  destruct (last _) as [lg|]; [eauto|done].
Qed.

Context `{EX : !ExactScalar T}.









End Offsets.

(** The real numbers are an exact arithmetic. *)
Module ExactFacts.
Import Exact.


End ExactFacts.

(** ** Values in exact arithmetic with a not-a-number *)

Module XRFacts.
Import XR.
Local Open Scope R_scope.

(** Unfolds the tensor operations down to the operations on real numbers. *)
Ltac xr_unfold :=
  cbv [translate_enu rotate_e rotate_n rotate_u SpecUtils
       spec_translate_enu spec_rotate_e spec_rotate_n spec_rotate_u
       mat_mul mat_vec row_mat dot col0 col1 col2 col3 row0 row1 row2 row3
       vE vN vU vW eye vreal nan4 vadd vsub vabs vzip vmap sumsq
       sadd ssub smul sdiv sneg sabs ssin scos sasin satan2 ssqrt sleb
       szero sone spi s1e_4 xreal_scalar Exact.real_scalar
       lift1 lift2 xasin xleb].

(** Splits an equation between tensors of real numbers into its entries. *)
Ltac entries :=
  repeat match goal with
         | |- _ :: _ = _ :: _ => f_equal
         | |- M4 _ _ _ _ = M4 _ _ _ _ => f_equal
         | |- V4 _ _ _ _ = V4 _ _ _ _ => f_equal
         | |- Some _ = Some _ => f_equal
         end.

Ltac xr_solve :=
  xr_unfold; rewrite ?cos_0, ?sin_0; entries; lra.

Lemma rotate_e_0 : spec_rotate_e (Some 0) = eye.
Proof. xr_solve. Qed.

Lemma rotate_n_0 : spec_rotate_n (Some 0) = eye.
Proof. xr_solve. Qed.

Lemma rotate_u_0 : spec_rotate_u (Some 0) = eye.
Proof. xr_solve. Qed.

Lemma translate_enu_0 :
  spec_translate_enu (Some 0) (Some 0) (Some 0) = eye.
Proof. xr_solve. Qed.

Lemma mat_mul_eye_eye : mat_mul (T := xreal) eye eye = eye.
Proof. xr_solve. Qed.

Lemma chain_at_zero :
  forward_chain (UT := SpecUtils) scenario szero szero = eye.
Proof.
  unfold forward_chain, joint_1_stage, joint_2_stage. simpl.
  by rewrite rotate_e_0, rotate_n_0, rotate_u_0, translate_enu_0, !mat_mul_eye_eye.
Qed.

Lemma chain_at_nan :
  forward_chain (UT := SpecUtils) scenario None None = nan_matrix.
Proof.
  unfold forward_chain, joint_1_stage, joint_2_stage. simpl.
  rewrite rotate_e_0, rotate_n_0, translate_enu_0, !mat_mul_eye_eye.
  xr_unfold. reflexivity.
Qed.

Lemma normal_of_eye :
  mat_vec (T := xreal) eye (V4 szero (sneg sone) szero szero) = vreal (V4 0 (-1) 0 0).
Proof. xr_solve. Qed.

Lemma origin_of_eye :
  mat_vec (T := xreal) eye (V4 szero szero szero sone) = vreal (V4 0 0 0 1).
Proof. xr_solve. Qed.

Lemma mat_vec_nan (v : vec4 xreal) : mat_vec nan_matrix v = nan4.
Proof. reflexivity. Qed.

Lemma mat_mul_nan (m : mat4 xreal) : mat_mul nan_matrix m = nan_matrix.
Proof. reflexivity. Qed.

Lemma vsub_nan_r (v : vec4 xreal) : vsub v nan4 = nan4.
Proof. destruct v as [[?|] [?|] [?|] [?|]]; reflexivity. Qed.

Lemma vsub_nan_l (v : vec4 xreal) : vsub nan4 v = nan4.
Proof. reflexivity. Qed.

Lemma vadd_nan_r (v : vec4 xreal) : vadd v nan4 = nan4.
Proof. destruct v as [[?|] [?|] [?|] [?|]]; reflexivity. Qed.

Lemma lift2_None_r (f : R → R → R) (x : xreal) : lift2 f x None = None.
Proof. by destruct x. Qed.

Lemma analytical_solution_nan (self : RigidBody xreal) :
  analytical_solution self nan4 = (None, None).
Proof.
  unfold analytical_solution. simpl.
  repeat (rewrite !lift2_None_r; simpl). reflexivity.
Qed.

(** *** Norms of finite tensors *)

Lemma foldl_sumsq_vreal (t : list (vec4 R)) (a : R) :
  foldl (λ acc v, sadd acc (sumsq v)) (Some a) (map vreal t)
  = Some (foldl (λ acc v, sadd acc (sumsq v)) a t).
Proof. revert a. induction t as [|v t IH]; intros a; simpl; [done|]. apply IH. Qed.

Lemma tensor_sumsq_vreal (t : list (vec4 R)) :
  tensor_sumsq (map vreal t) = Some (tensor_sumsq t).
Proof. apply foldl_sumsq_vreal. Qed.

Lemma sumsq_nonneg (v : vec4 R) : 0 <= sumsq v.
Proof. xr_unfold. nra. Qed.

Lemma foldl_sumsq_nonneg (t : list (vec4 R)) (a : R) :
  0 <= a → 0 <= foldl (λ acc v, sadd acc (sumsq v)) a t.
Proof.
  revert a. induction t as [|v t IH]; intros a Ha; cbn [foldl]; [done|].
  apply IH. pose proof (sumsq_nonneg v). change (0 <= Rplus a (sumsq v)). lra.
Qed.

Lemma tensor_sumsq_nonneg (t : list (vec4 R)) : 0 <= tensor_sumsq t.
Proof. apply foldl_sumsq_nonneg. simpl. lra. Qed.

Lemma norm_vreal (t : list (vec4 R)) : norm (map vreal t) = Some (norm t).
Proof.
  unfold norm. rewrite tensor_sumsq_vreal. simpl.
  destruct (Rlt_dec _ _) as [H|_]; [|done].
  pose proof (tensor_sumsq_nonneg t). lra.
Qed.

Lemma norm_zero_iff (t : list (vec4 R)) : norm t = 0 ↔ tensor_sumsq t = 0.
Proof.
  unfold norm. simpl. split; intros H.
  - apply sqrt_eq_0; [apply tensor_sumsq_nonneg|done].
  - rewrite H. apply sqrt_0.
Qed.

(** Dividing a finite tensor by its norm: entry by entry in the real
    numbers when the norm is not zero, the not-a-number everywhere when it
    is. *)
Lemma div_norm_vreal (t : list (vec4 R)) :
  tensor_sumsq t ≠ 0 → div_norm (map vreal t) = map vreal (div_norm t).
Proof.
  intros H. unfold div_norm. rewrite norm_vreal, !map_map.
  apply map_ext. intros [e n u w]. xr_unfold. unfold xdiv.
  destruct (Req_dec_T (norm t) 0) as [E|_]; [|done].
  by apply norm_zero_iff in E.
Qed.

Lemma div_norm_vreal_zero (t : list (vec4 R)) :
  tensor_sumsq t = 0 → div_norm (map vreal t) = map (λ _, nan4) t.
Proof.
  intros H. unfold div_norm. rewrite norm_vreal, !map_map.
  apply map_ext. intros [e n u w]. xr_unfold. unfold xdiv.
  destruct (Req_dec_T (norm t) 0) as [_|E]; [done|].
  by apply norm_zero_iff in H.
Qed.

Lemma foldl_sumsq_scale (t : list (vec4 R)) (a c : R) :
  c ≠ 0 →
  foldl (λ acc v, sadd acc (sumsq v)) (a / (c * c)) (map (vmap (λ x, sdiv x c)) t)
  = foldl (λ acc v, sadd acc (sumsq v)) a t / (c * c).
Proof.
  intros Hc. revert a. induction t as [|v t IH]; intros a; simpl; [done|].
  rewrite <- IH. f_equal. xr_unfold. field. done.
Qed.

(** A finite tensor that is not zero has norm one once divided by its
    norm. *)
Lemma norm_div_norm (t : list (vec4 R)) :
  tensor_sumsq t ≠ 0 → norm (div_norm t) = 1.
Proof.
  intros H. pose proof (tensor_sumsq_nonneg t) as Hn.
  assert (Hs : sqrt (tensor_sumsq t) ≠ 0).
  { intros E. apply sqrt_eq_0 in E; done. }
  assert (E : tensor_sumsq (div_norm t) = tensor_sumsq t / (norm t * norm t)).
  { unfold tensor_sumsq at 2. rewrite <- (foldl_sumsq_scale t 0 (norm t)) by done.
    unfold tensor_sumsq, div_norm. cbv zeta. f_equal.
    change (0 = 0 / (norm t * norm t)). unfold Rdiv. by rewrite Rmult_0_l. }
  unfold norm at 1. rewrite E. change (sqrt (tensor_sumsq t / (norm t * norm t)) = 1).
  unfold norm. change (ssqrt (tensor_sumsq t)) with (sqrt (tensor_sumsq t)).
  rewrite sqrt_sqrt by done. unfold Rdiv. rewrite Rinv_r by done. apply sqrt_1.
Qed.

Lemma tensor_sumsq_div_norm (t : list (vec4 R)) :
  tensor_sumsq t ≠ 0 → tensor_sumsq (div_norm t) = 1.
Proof.
  intros H. pose proof (norm_div_norm t H) as Hn. unfold norm in Hn.
  rewrite <- (sqrt_sqrt (tensor_sumsq (div_norm t))) by apply tensor_sumsq_nonneg.
  change (ssqrt (tensor_sumsq (div_norm t))) with (sqrt (tensor_sumsq (div_norm t))) in Hn.
  rewrite Hn. lra.
Qed.

(** Dividing by the norm a second time changes nothing. *)
Lemma div_norm_idemp (t : list (vec4 R)) :
  tensor_sumsq t ≠ 0 → div_norm (div_norm t) = div_norm t.
Proof.
  intros H. unfold div_norm at 1. rewrite (norm_div_norm t H).
  transitivity (map (λ v, v) (div_norm t)); [|apply map_id].
  apply map_ext. intros [e n u w]. xr_unfold. entries; field.
Qed.

(** A tensor whose sum of squares is finite is a tensor of real numbers. *)
Lemma foldl_sumsq_finite (t : list (vec4 xreal)) (acc : xreal) (s : R) :
  foldl (λ acc v, sadd acc (sumsq v)) acc t = Some s →
  ∃ (a : R) (t' : list (vec4 R)),
    acc = Some a ∧ t = map vreal t'
    ∧ s = foldl (λ acc v, sadd acc (sumsq v)) a t'.
Proof.
  revert acc. induction t as [|v t IH]; intros acc; simpl.
  - intros ->. by exists s, [].
  - intros H. apply IH in H as (a' & t' & Ha & -> & ->).
    destruct acc as [a|]; [|done].
    destruct v as [[e|] [n|] [u|] [w|]]; try done.
    injection Ha as <-. by exists a, (V4 e n u w :: t').
Qed.

Lemma tensor_sumsq_finite (t : list (vec4 xreal)) (s : R) :
  tensor_sumsq t = Some s → ∃ t', t = map vreal t' ∧ s = tensor_sumsq t'.
Proof.
  intros H. apply foldl_sumsq_finite in H as (a & t' & [= <-] & -> & ->). eauto.
Qed.

Lemma xr_norm_div_norm (t : list (vec4 xreal)) (s : R) :
  tensor_sumsq t = Some s → s ≠ 0 → norm (div_norm t) = Some 1.
Proof.
  intros H Hs. apply tensor_sumsq_finite in H as (t' & -> & ->).
  rewrite div_norm_vreal, norm_vreal by done. f_equal. by apply norm_div_norm.
Qed.

Lemma xr_div_norm_idemp (t : list (vec4 xreal)) (s : R) :
  tensor_sumsq t = Some s → s ≠ 0 → div_norm (div_norm t) = div_norm t.
Proof.
  intros H Hs. apply tensor_sumsq_finite in H as (t' & -> & ->).
  rewrite !div_norm_vreal; try done.
  - by rewrite div_norm_idemp.
  - rewrite tensor_sumsq_div_norm by done. lra.
Qed.

Lemma xr_iter_div_norm (t : list (vec4 xreal)) (s : R) (k : nat) :
  tensor_sumsq t = Some s → s ≠ 0 → (1 <= k)%nat →
  Nat.iter k div_norm t = div_norm t.
Proof.
  intros H Hs Hk. destruct k as [|k]; [lia|]. clear Hk.
  induction k as [|k IH]; [done|].
  rewrite Nat.iter_succ, IH. by eapply xr_div_norm_idemp.
Qed.

(** *** The scenario of the specification, round by round *)

Lemma xr_div_norm_eval (t : list (vec4 R)) (n : R) :
  0 < n → tensor_sumsq t = n * n →
  div_norm (map vreal t)
  = map (λ v, vreal (V4 (vE v / n) (vN v / n) (vU v / n) (vW v / n))) t.
Proof.
  intros Hn E. rewrite div_norm_vreal by (rewrite E; nra).
  unfold div_norm. rewrite map_map.
  assert (norm t = n) as ->; [|done].
  unfold norm. rewrite E. apply sqrt_square. lra.
Qed.

Ltac real_sumsq := unfold tensor_sumsq; cbn [foldl]; xr_unfold; lra.

Lemma scenario_ray_div_norm : div_norm scenario_ray = scenario_ray.
Proof.
  change scenario_ray with (map vreal [V4 0 (-1) 0 0]).
  rewrite (xr_div_norm_eval _ 1) by (try lra; real_sumsq).
  xr_unfold. cbn [map]. entries; lra.
Qed.

Lemma scenario_reflect :
  div_norm [vsub (aim_point scenario) (vreal (V4 0 0 0 1))]
  = [vreal (V4 0 1 0 0)].
Proof.
  change [vsub _ _] with (map vreal [V4 (0 - 0) (100 - 0) (0 - 0) (1 - 1)]).
  rewrite (xr_div_norm_eval _ 100) by (try lra; real_sumsq).
  xr_unfold. cbn [map]. entries; lra.
Qed.

(** The incident ray and the reflect vector cancel: their sum is the zero
    vector, and dividing it by its norm gives the not-a-number. *)
Lemma scenario_desired :
  div_norm (zip_with vadd scenario_ray [vreal (V4 0 1 0 0)]) = [nan4].
Proof.
  change (zip_with _ _ _) with (map vreal [V4 (0 + 0) (-1 + 1) (0 + 0) (0 + 0)]).
  rewrite div_norm_vreal_zero by real_sumsq. reflexivity.
Qed.

Lemma div_norm_nan : div_norm [nan4] = [nan4].
Proof. reflexivity. Qed.

Lemma scenario_first_round (min_eps : xreal) :
  align_round (UT := SpecUtils) scenario identity_actuator identity_actuator min_eps
    (initial_state scenario_ray)
  = Next scenario_state_1 scenario_round_1.
Proof.
  unfold align_round. rewrite round_orientation_ok by done.
  cbn [initial_state actuator_steps st_incident_ray_direction last_iteration_loss
       map fst snd forward identity_actuator zip_with].
  rewrite chain_at_zero. cbn [map]. rewrite normal_of_eye, origin_of_eye.
  rewrite scenario_reflect, scenario_ray_div_norm.
  rewrite (bcast2_same vadd) by done. cbn [mbind result_bind].
  rewrite scenario_desired.
  rewrite (bcast2_same (λ d n, vabs (vsub d n))) by done.
  cbn [mbind result_bind zip_with convergence map].
  rewrite analytical_solution_nan. reflexivity.
Qed.

Lemma any_le_nan (min_eps : xreal) : any_le [nan4] min_eps = false.
Proof. reflexivity. Qed.

Lemma scenario_nan_round (min_eps : xreal) (o : list (mat4 xreal)) :
  align_round (UT := SpecUtils) scenario identity_actuator identity_actuator min_eps
    (LoopState [(None, None)] (Some o) (Some [nan4]) scenario_ray)
  = Next scenario_state_2 scenario_round_2.
Proof.
  unfold align_round. rewrite round_orientation_ok by done.
  cbn [actuator_steps st_incident_ray_direction last_iteration_loss
       map fst snd forward identity_actuator zip_with].
  rewrite chain_at_nan. cbn [map]. rewrite !mat_vec_nan, vsub_nan_r, div_norm_nan.
  rewrite scenario_ray_div_norm.
  rewrite (bcast2_same vadd) by done. cbn [mbind result_bind zip_with scenario_ray].
  rewrite vadd_nan_r, div_norm_nan.
  rewrite (bcast2_same (λ d n, vabs (vsub d n))) by done.
  cbn [mbind result_bind zip_with convergence].
  rewrite (bcast2_same (λ l x, vabs (vsub l x))) by done.
  cbn [mbind result_bind zip_with]. rewrite !vsub_nan_l.
  change (vabs nan4) with nan4. rewrite any_le_nan.
  cbn [map]. rewrite analytical_solution_nan. reflexivity.
Qed.

Lemma apply_offsets_nan :
  apply_offsets (UT := SpecUtils) scenario [nan_matrix] = Ok [nan_matrix].
Proof.
  unfold apply_offsets, bmm. rewrite !bcast2_one_r. cbn [mbind result_bind map].
  rewrite !bcast2_one_r. cbn [mbind result_bind map].
  rewrite !bcast2_one_r. by rewrite !mat_mul_nan.
Qed.

(** The call of the scenario with the default two rounds. *)
Lemma scenario_align (min_eps : xreal) :
  align (UT := SpecUtils) scenario scenario_ray 2 min_eps
  = Run (Ok [nan_matrix]) scenario_ray [scenario_round_1; scenario_round_2].
Proof.
  unfold align. cbn [actuator_list scenario].
  change (Z.to_nat 2) with 2%nat. cbn [align_loop].
  fold (initial_state scenario_ray). rewrite scenario_first_round.
  unfold scenario_state_1 at 1. rewrite scenario_nan_round.
  cbn [orientation scenario_state_2 st_incident_ray_direction].
  by rewrite apply_offsets_nan.
Qed.

(** *** Two rays in one batch *)

Lemma two_rays_div_norm :
  div_norm two_rays = [vreal (V4 (3/4) (1/4) (2/4) 0); vreal (V4 (1/4) (1/4) 0 0)].
Proof.
  change two_rays with (map vreal [V4 3 1 2 0; V4 1 1 0 0]).
  rewrite (xr_div_norm_eval _ 4) by (try lra; real_sumsq).
  xr_unfold. cbn [map]. entries; lra.
Qed.

Lemma two_rays_desired :
  div_norm (map (λ x, vadd x (vreal (V4 0 1 0 0)))
              [vreal (V4 (3/4) (1/4) (2/4) 0); vreal (V4 (1/4) (1/4) 0 0)])
  = [vreal (V4 (3/8) (5/8) (2/8) 0); vreal (V4 (1/8) (5/8) 0 0)].
Proof.
  change (map _ _) with
    (map vreal [V4 (3/4 + 0) (1/4 + 1) (2/4 + 0) (0 + 0);
                V4 (1/4 + 0) (1/4 + 1) (0 + 0) (0 + 0)]).
  rewrite (xr_div_norm_eval _ 2) by (try lra; real_sumsq).
  xr_unfold. cbn [map]. entries; lra.
Qed.

Lemma two_rays_first_round (min_eps : xreal) :
  ∃ st lg,
    align_round (UT := SpecUtils) scenario identity_actuator identity_actuator min_eps
      (initial_state two_rays) = Next st lg
    ∧ log_desired_reflect_vec lg = [vreal (V4 0 1 0 0)]
    ∧ log_desired_concentrator_normal lg
      = [vreal (V4 (3/8) (5/8) (2/8) 0); vreal (V4 (1/8) (5/8) 0 0)].
Proof.
  unfold align_round. rewrite round_orientation_ok by done.
  cbn [initial_state actuator_steps st_incident_ray_direction last_iteration_loss
       map fst snd forward identity_actuator zip_with].
  rewrite chain_at_zero. cbn [map]. rewrite normal_of_eye, origin_of_eye.
  rewrite scenario_reflect, two_rays_div_norm.
  rewrite bcast2_one_r. cbn [mbind result_bind].
  rewrite two_rays_desired.
  rewrite bcast2_one_r. cbn [mbind result_bind convergence].
  do 2 eexists. split; [reflexivity|]. split; reflexivity.
Qed.

Lemma not_unit_row : norm [vreal (V4 (3/8) (5/8) (2/8) 0)] ≠ Some 1.
Proof.
  change [vreal _] with (map vreal [V4 (3/8) (5/8) (2/8) 0]).
  rewrite norm_vreal. intros [= E].
  assert (H : tensor_sumsq [V4 (3/8) (5/8) (2/8) 0] = 1).
  { rewrite <- (sqrt_sqrt (tensor_sumsq _)) by apply tensor_sumsq_nonneg.
    unfold norm in E. simpl in E. rewrite E. lra. }
  revert H. unfold tensor_sumsq. cbn [foldl]. xr_unfold. lra.
Qed.

(** C5: in every round of [align] the desired reflect vector is the
    aim point minus the concentrator origins, divided by its norm, and the
    desired concentrator normal is the sum of the incident ray divided by
    its norm and the reflect vector, divided by its norm; the norm is that
    of the whole tensor, and each of the two has norm one when the tensor
    divided is finite and not zero, which for a batch of one row makes
    the row a unit vector. *)
Theorem C5_desired_normal `{UT : Utils xreal} (self : RigidBody xreal)
    (incident_ray_direction : list (vec4 xreal)) (max_num_iterations : Z)
    (min_eps : xreal) :
  Forall (λ lg,
    let reflect := map (vsub (aim_point self)) (log_concentrator_origins lg) in
    log_desired_reflect_vec lg = div_norm reflect
    ∧ (∀ s, tensor_sumsq reflect = Some s → s ≠ 0 →
         norm (log_desired_reflect_vec lg) = Some 1
         ∧ (length reflect = 1%nat → unit_rows (log_desired_reflect_vec lg)))
    ∧ ∃ desired,
        bcast2 vadd (div_norm (log_ray_before lg)) (log_desired_reflect_vec lg)
        = Ok desired
        ∧ log_desired_concentrator_normal lg = div_norm desired
        ∧ ∀ s, tensor_sumsq desired = Some s → s ≠ 0 →
            norm (log_desired_concentrator_normal lg) = Some 1
            ∧ (length desired = 1%nat →
               unit_rows (log_desired_concentrator_normal lg)))
    (rounds (align self incident_ray_direction max_num_iterations min_eps)).
Proof.
  assert (Hunit : ∀ (t : list (vec4 xreal)) s, tensor_sumsq t = Some s → s ≠ 0 →
    norm (div_norm t) = Some 1 ∧ (length t = 1%nat → unit_rows (div_norm t))).
  { intros t s Hs Hz. pose proof (xr_norm_div_norm t s Hs Hz) as Hn.
    split; [done|]. intros Hl. destruct t as [|v [|??]]; try done.
    unfold div_norm in *. cbn [map] in *. by repeat constructor. }
  eapply Forall_impl; [apply align_round_facts|].
  intros lg (a1 & a2 & st & F). cbv zeta.
  rewrite (rf_reflect _ _ _ _ _ _ F). split; [done|]. split; [apply Hunit|].
  destruct (rf_desired _ _ _ _ _ _ F) as (d0 & Ed & Edes).
  rewrite (rf_reflect _ _ _ _ _ _ F) in Ed.
  exists d0. rewrite Edes. split; [done|]. split; [done|]. apply Hunit.
Qed.

(** C5, as the specification states it, fails: in the scenario of the
    specification the desired normal is not-a-number, and with two rays in
    one batch the rows of the desired normal are shorter than one. *)
Lemma C5_not_always_unit_vectors :
  ¬ rounds_have_unit_vectors (align (UT := SpecUtils) scenario scenario_ray 2 s1e_4)
  ∧ ¬ rounds_have_unit_vectors (align (UT := SpecUtils) scenario two_rays 2 s1e_4).
Proof.
  split; unfold rounds_have_unit_vectors.
  - rewrite scenario_align. cbn [rounds]. intros H.
    apply Forall_cons in H as [[_ H] _]. cbn [scenario_round_1
      log_desired_concentrator_normal] in H.
    apply Forall_cons in H as [H _]. discriminate H.
  - destruct (two_rays_first_round s1e_4) as (st & lg & Er & _ & Hd).
    destruct (align_first_round (UT := SpecUtils) scenario _ _ two_rays 2 s1e_4
                st lg eq_refl eq_refl Er) as [lgs ->].
    intros H. apply Forall_cons in H as [[_ H] _]. rewrite Hd in H.
    apply Forall_cons in H as [H _]. by apply not_unit_row in H.
Qed.

(** C9: in the scenario of the specification (position (0,0,0), aim point
    (0,100,0), identity actuators, zero deviations and offsets, incident
    ray (0,-1,0)) the incident ray and the reflect vector cancel, so that
    the desired normal of the first round is the zero vector divided by
    its norm: not-a-number.  Both joint angles solved from it are
    not-a-number, and [align] returns, after its two rounds, the
    orientation every entry of which is not-a-number. *)
Theorem C9_scenario_is_degenerate :
  let r := align (UT := SpecUtils) scenario scenario_ray 2 s1e_4 in
  returned r = Ok [nan_matrix]
  ∧ ray_after r = scenario_ray
  ∧ map log_desired_concentrator_normal (rounds r) = [[nan4]; [nan4]]
  ∧ map log_solved (rounds r) = [Some [(None, None)]; Some [(None, None)]]
  ∧ map log_concentrator_normals (rounds r) = [[vreal (V4 0 (-1) 0 0)]; [nan4]].
Proof. cbv zeta. rewrite scenario_align. repeat split. Qed.

(** C9, as the specification states it, fails: the returned orientation is
    not finite, its normal is not near (0,1,0) and the solved angles are
    not near 0, whatever the tolerance. *)
Lemma C9_scenario_not_as_expected : ¬ ∃ tol, scenario_as_expected tol.
Proof.
  intros (tol & o & lg & j1 & j2 & Ho & (HE & _) & _).
  rewrite scenario_align in Ho. injection Ho as <-.
  destruct HE as (a & Ha & _). discriminate Ha.
Qed.
End XRFacts.

(** ** The constructor writes to the objects it is given *)

Module InitFacts.
Import Init.

(** The loop over the attributes replaces every tensor by the tensor moved
    to the device and leaves the other attributes alone. *)
Lemma move_attributes_moved (device : string) (d : gmap string value) :
  move_attributes device d = moved device d.
Proof.
  unfold move_attributes, moved.
  set (f := λ (attr_name : string) (attr_value : value) (acc : gmap string value),
              match attr_value with
              | VTensor t => <[attr_name := VTensor (to device t)]> acc
              | VOther _ => acc
              end).
  assert (H : ∀ b m k,
    map_fold f b m !! k
    = match m !! k with
      | Some (VTensor t) => Some (VTensor (to device t))
      | _ => b !! k
      end).
  { intros b m. induction m as [|i x m Hi Hfold IH] using map_first_key_ind; intros k.
    - by rewrite map_fold_empty, lookup_empty.
    - rewrite map_fold_insert_first_key by done.
      destruct (decide (k = i)) as [->|Hk].
      + rewrite lookup_insert_eq. destruct x as [t|s]; simpl.
        * by rewrite lookup_insert_eq.
        * by rewrite IH, Hi.
      + rewrite lookup_insert_ne by done. destruct x as [t|s]; simpl.
        * by rewrite lookup_insert_ne, IH.
        * by rewrite IH.  }
  apply map_eq. intros k. rewrite H, lookup_fmap.
  destruct (d !! k) as [[t|s]|]; done.
Qed.

Lemma moved_idemp (device : string) (d : gmap string value) :
  moved device (moved device d) = moved device d.
Proof.
  unfold moved. rewrite <- map_fmap_compose. apply map_fmap_ext.
  by intros k [t|s] _.
Qed.

Lemma move_object_spec (device : string) (l : loc)
    (h : gmap loc (gmap string value)) (d : gmap string value) :
  h !! l = Some d → move_object device l h = Some (<[l := moved device d]> h).
Proof. intros E. unfold move_object. rewrite E. simpl. by rewrite move_attributes_moved. Qed.

Lemma init_spec (h : gmap loc (gmap string value)) (lo ld : loc)
    (o_off o_dev : gmap string value) (device : string) :
  h !! lo = Some o_off → h !! ld = Some o_dev →
  ∃ h', init h (Some lo) (Some ld) device = Some (h', Instance ld lo)
        ∧ h' !! ld = Some (moved device o_dev)
        ∧ h' !! lo = Some (moved device o_off)
        ∧ ∀ l, l ≠ lo → l ≠ ld → h' !! l = h !! l.
Proof.
  intros Ho Hd. unfold init. simpl.
  rewrite (move_object_spec device ld h o_dev Hd). simpl.
  destruct (decide (lo = ld)) as [->|Hne].
  - rewrite (move_object_spec device ld _ (moved device o_dev))
      by apply lookup_insert_eq.
    simpl. eexists. split; [done|]. rewrite moved_idemp.
    assert (o_off = o_dev) as -> by congruence.
    repeat split; try apply lookup_insert_eq.
    intros l Hl _. by rewrite !lookup_insert_ne.
  - rewrite (move_object_spec device lo _ o_off)
      by (by rewrite lookup_insert_ne).
    simpl. eexists. split; [done|]. repeat split.
    + by rewrite lookup_insert_ne, lookup_insert_eq.
    + apply lookup_insert_eq.
    + intros l Hl Hl'. by rewrite !lookup_insert_ne.
Qed.

(** C10: [__init__] keeps the two configuration objects of the caller and
    replaces, in these very objects, every attribute that is a tensor by
    the tensor moved to the device; nothing else in the heap changes.  An
    instance made without the two arguments refers to the two default
    objects, the same for every such instance, so that making a second
    instance on another device moves the tensors the first instance
    sees. *)
Theorem C10_init_mutates_and_shares :
  (∀ (h : gmap loc (gmap string value)) (lo ld : loc)
     (o_off o_dev : gmap string value) (device : string),
     h !! lo = Some o_off → h !! ld = Some o_dev →
     ∃ h', init h (Some lo) (Some ld) device = Some (h', Instance ld lo)
           ∧ h' !! ld = Some (moved device o_dev)
           ∧ h' !! lo = Some (moved device o_off)
           ∧ ∀ l, l ≠ lo → l ≠ ld → h' !! l = h !! l)
  ∧ (∀ (h : gmap loc (gmap string value)) (device : string),
       init h None None device
       = init h (Some default_initial_orientation_offsets)
           (Some default_deviation_parameters) device)
  ∧ (∀ device1 device2 : string,
       ∃ h1 h2 self1 self2,
         init defined_heap None None device1 = Some (h1, self1)
         ∧ init h1 None None device2 = Some (h2, self2)
         ∧ self1 = self2
         ∧ h1 !! self_deviation_parameters self1
           = Some (moved device1 default_deviations_object)
         ∧ h1 !! self_initial_orientation_offsets self1
           = Some (moved device1 default_offsets_object)
         ∧ h2 !! self_deviation_parameters self1
           = Some (moved device2 default_deviations_object)
         ∧ h2 !! self_initial_orientation_offsets self1
           = Some (moved device2 default_offsets_object)).
Proof.
  split; [exact init_spec|]. split; [done|]. intros device1 device2.
  assert (Hmm : ∀ d, moved device2 (moved device1 d) = moved device2 d).
  { intros d. unfold moved. rewrite <- map_fmap_compose. apply map_fmap_ext.
    by intros k [t|s] _. }
  destruct (init_spec defined_heap default_initial_orientation_offsets
              default_deviation_parameters default_offsets_object
              default_deviations_object device1)
    as (h1 & E1 & Hd1 & Ho1 & _); [done..|].
  destruct (init_spec h1 default_initial_orientation_offsets
              default_deviation_parameters _ _ device2 Ho1 Hd1)
    as (h2 & E2 & Hd2 & Ho2 & _).
  exists h1, h2, (Instance default_deviation_parameters
                    default_initial_orientation_offsets),
    (Instance default_deviation_parameters default_initial_orientation_offsets).
  simpl. rewrite Hmm in Hd2, Ho2. done.
Qed.

(** C10 at a caller's heap: the caller's offsets object has its cpu
    tensor moved to the gpu. *)
Lemma C10_init_at_caller_heap :
  ∃ h', init caller_heap (Some 3%positive) (Some 4%positive) "cuda"
        = Some (h', Instance 4%positive 3%positive)
        ∧ h' !! 4%positive = Some (moved "cuda" default_deviations_object)
        ∧ h' !! 3%positive = Some (moved "cuda" caller_offsets)
        ∧ ∀ l, l ≠ 3%positive → l ≠ 4%positive → h' !! l = caller_heap !! l.
Proof.
  exact (proj1 C10_init_mutates_and_shares caller_heap 3%positive 4%positive
           caller_offsets default_deviations_object "cuda" eq_refl eq_refl).
Defined.
End InitFacts.

(** ** More about the loop: invariants along the rounds *)

Section Along.
Context {T : Type} `{SC : Scalar T} `{UT : Utils T}.
Variables (self : RigidBody T) (a1 a2 : Actuator T) (min_eps : T).
Variable P : loop_state T → Prop.
Hypothesis P_next : ∀ st lg,
  P st → round_facts self a1 a2 min_eps st lg → log_break lg = false →
  P (next_state self a1 a2 st lg).

(** A round of the loop started in a state that has every property the
    rounds hand on. *)
Lemma rounds_from_nth (st : loop_state T) (lgs : list (round_log T))
    (i : nat) (lg : round_log T) :
  P st → rounds_from self a1 a2 min_eps st lgs → lgs !! i = Some lg →
  ∃ st0, P st0 ∧ round_facts self a1 a2 min_eps st0 lg ∧ (i = 0 → st0 = st).
Proof.
  revert st i. induction lgs as [|l lgs IH]; intros st i HP H Hi; [done|].
  simpl in H. destruct H as [F H]. destruct i as [|i]; simpl in *.
  - injection Hi as ->. eauto.
  - destruct (log_break l) eqn:Hb; [by subst|].
    destruct (IH (next_state self a1 a2 st l) i) as (st0 & ? & ? & _); auto.
    exists st0. split; [done|]. split; [done|]. intros; lia.
Qed.

Lemma rounds_from_pair (st : loop_state T) (lgs : list (round_log T))
    (i : nat) (lg lg' : round_log T) :
  P st → rounds_from self a1 a2 min_eps st lgs →
  lgs !! i = Some lg → lgs !! S i = Some lg' →
  ∃ st0, P st0 ∧ round_facts self a1 a2 min_eps st0 lg ∧ log_break lg = false
         ∧ round_facts self a1 a2 min_eps (next_state self a1 a2 st0 lg) lg'.
Proof.
  revert st i. induction lgs as [|l lgs IH]; intros st i HP H Hi Hi'; [done|].
  simpl in H. destruct H as [F H]. destruct i as [|i]; simpl in *.
  - injection Hi as ->. destruct (log_break lg) eqn:Hb; [by subst|].
    destruct lgs as [|l2 lgs]; [done|]. injection Hi' as ->.
    simpl in H. destruct H as [F' _]. eauto.
  - destruct (log_break l) eqn:Hb; [by subst|].
    apply (IH (next_state self a1 a2 st l) i); auto.
Qed.
End Along.

Section Outcome.
Context {T : Type} `{SC : Scalar T} `{UT : Utils T}.

(** The batch sizes of a round: as many orientations as actuator steps, as
    many rows of the desired normal and of the loss as the incident ray
    has. *)
Lemma round_facts_lengths (self : RigidBody T) (a1 a2 : Actuator T) (min_eps : T)
    (st : loop_state T) (lg : round_log T) :
  shaped st → round_facts self a1 a2 min_eps st lg →
  length (log_orientation lg) = length (actuator_steps st)
  ∧ length (log_desired_concentrator_normal lg)
    = length (st_incident_ray_direction st)
  ∧ length (log_loss lg) = length (st_incident_ray_direction st).
Proof.
  intros Hs F.
  assert (Ho : length (log_orientation lg) = length (actuator_steps st)).
  { rewrite (rf_orientation _ _ _ _ _ _ F), length_zip_with,
      (rf_joint_1 _ _ _ _ _ _ F), (rf_joint_2 _ _ _ _ _ _ F), !length_map. lia. }
  assert (Hb : length (actuator_steps st) = 1
               ∨ length (actuator_steps st) = length (st_incident_ray_direction st)).
  { destruct Hs as [[? _]|[? _]]; auto. }
  destruct (rf_desired _ _ _ _ _ _ F) as (d0 & Ed & Edes).
  apply bcast2_total_eq in Ed.
  2:{ rewrite (rf_reflect _ _ _ _ _ _ F), !length_div_norm, length_map,
        (rf_origins _ _ _ _ _ _ F), length_map, Ho, (rf_ray _ _ _ _ _ _ F). done. }
  rewrite length_div_norm, (rf_ray _ _ _ _ _ _ F) in Ed.
  pose proof (rf_loss _ _ _ _ _ _ F) as El. apply bcast2_total_eq in El.
  2:{ rewrite Edes, length_div_norm, Ed, (rf_normals _ _ _ _ _ _ F), length_map, Ho. done. }
  rewrite Edes, length_div_norm, Ed in El.
  by rewrite Edes, length_div_norm.
Qed.

(** The first round never stops the loop, so the loop runs two rounds when
    it may. *)
Lemma align_at_least_two (self : RigidBody T) (a1 a2 : Actuator T)
    (ray : list (vec4 T)) (n : Z) (min_eps : T) :
  actuator_list self = [a1; a2] →
  Z.to_nat n `min` 2 ≤ length (rounds (align self ray n min_eps)).
Proof.
  intros Ha. destruct (align_two self a1 a2 ray n min_eps Ha)
    as (Hr & Hn & Hbr & _).
  set (lgs := rounds _) in *. clearbody lgs.
  destruct lgs as [|lg [|lg' lgs]]; simpl in *; [| |lia].
  - destruct (decide (0 < Z.to_nat n)) as [Hlt|]; [|lia].
    by destruct (Hbr Hlt) as (? & ? & _).
  - destruct (decide (1 < Z.to_nat n)) as [Hlt|]; [|lia].
    destruct (Hbr Hlt) as (l & [= <-] & Hb). destruct Hr as [F _].
    pose proof (rf_convergence _ _ _ _ _ _ F) as Hc. simpl in Hc. congruence.
Qed.

(** With two actuators and at least one round allowed, [align] returns:
    broadcasting never fails. *)
Lemma align_returns (self : RigidBody T) (incident_ray_direction : list (vec4 T))
    (max_num_iterations : Z) (min_eps : T) :
  length (actuator_list self) = 2 → (1 <= max_num_iterations)%Z →
  ∃ o, returned (align self incident_ray_direction max_num_iterations min_eps) = Ok o
       ∧ length o = (if decide (max_num_iterations = 1%Z)
                     then 1 else length incident_ray_direction).
Proof.
  intros E. destruct (two_actuators self E) as (a1 & a2 & Ha).
  intros Hn.
  pose proof (align_at_least_two self a1 a2 incident_ray_direction
                max_num_iterations min_eps Ha) as Hmin.
  destruct (align_two self a1 a2 incident_ray_direction max_num_iterations
              min_eps Ha) as (Hr & Hlen & _ & _ & Hret).
  set (r := align _ _ _ _) in *. clearbody r.
  set (P := λ st : loop_state T,
    shaped st ∧ length (st_incident_ray_direction st) = length incident_ray_direction
    ∧ (last_iteration_loss st ≠ None →
       length (actuator_steps st) = length incident_ray_direction)).
  assert (HP : ∀ st lg, P st → round_facts self a1 a2 min_eps st lg →
               log_break lg = false → P (next_state self a1 a2 st lg)).
  { intros st lg (Hs & Hl & _) F _.
    destruct (round_facts_shaped self a1 a2 min_eps st lg Hs F) as [_ Hs'].
    destruct (round_facts_lengths self a1 a2 min_eps st lg Hs F) as (_ & Hd & _).
    split; [done|]. simpl. rewrite length_div_norm, !length_map. split; [done|].
    intros _. congruence. }
  assert (HP0 : P (initial_state incident_ray_direction)).
  { split; [apply initial_state_shaped|]. by split. }
  destruct (last (rounds r)) as [lg|] eqn:Hl.
  2:{ apply last_None in Hl. rewrite Hl in Hmin. simpl in Hmin. lia. }
  rewrite Hret. rewrite apply_offsets_map. eexists. split; [done|].
  rewrite length_map. rewrite last_lookup in Hl.
  destruct (Nat.pred (length (rounds r))) as [|k] eqn:Hk.
  + destruct (rounds_from_nth self a1 a2 min_eps P HP _ _ 0 lg HP0 Hr Hl)
      as (st0 & (Hs & _) & F & Hst). specialize (Hst eq_refl). subst st0.
    destruct (round_facts_lengths _ _ _ _ _ _ Hs F) as (-> & _). simpl.
    destruct (decide (max_num_iterations = 1%Z)); [done|lia].
  + assert (Hprev : is_Some (rounds r !! k)) by (apply lookup_lt_is_Some; lia).
    destruct Hprev as [lg0 Hprev].
    destruct (rounds_from_pair self a1 a2 min_eps P HP _ _ k lg0 lg HP0 Hr Hprev Hl)
      as (st0 & (Hs & Hray & _) & F0 & Hb & F).
    destruct (round_facts_shaped self a1 a2 min_eps st0 lg0 Hs F0) as [_ Hs'].
    destruct (round_facts_lengths _ _ _ _ _ _ Hs' F) as (-> & _). simpl.
    destruct (round_facts_lengths _ _ _ _ _ _ Hs F0) as (_ & Hd & _).
    rewrite !length_map, Hd, Hray.
    destruct (decide (max_num_iterations = 1%Z)); [lia|done].
Qed.

(** What a call of [align] comes to, with two actuators: [TypeError] and
    an untouched ray when [max_num_iterations] allows no round; otherwise
    it returns, whatever the batch size of the incident ray (broadcasting
    never fails), one orientation after a single round and else as many
    orientations as the incident ray has rows. *)
Theorem align_outcome (self : RigidBody T) (incident_ray_direction : list (vec4 T))
    (max_num_iterations : Z) (min_eps : T) :
  length (actuator_list self) = 2 →
  let r := align self incident_ray_direction max_num_iterations min_eps in
  ((max_num_iterations <= 0)%Z →
   r = Run (Raise TypeError) incident_ray_direction [])
  ∧ ((1 <= max_num_iterations)%Z →
     ∃ o, returned r = Ok o
          ∧ length o = (if decide (max_num_iterations = 1%Z)
                        then 1 else length incident_ray_direction)).
Proof.
  intros E. cbv zeta. destruct (two_actuators self E) as (a1 & a2 & Ha). split.
  - intros Hn. unfold align. rewrite Ha.
    replace (Z.to_nat max_num_iterations) with 0 by lia. reflexivity.
  - by apply align_returns.
Qed.
End Outcome.

Section Composition.
Context {T : Type} `{SC : Scalar T} `{UT : Utils T}.

Lemma align_round_count (self : RigidBody T) (a1 a2 : Actuator T)
    (ray : list (vec4 T)) (n : Z) (min_eps : T) :
  actuator_list self = [a1; a2] → (1 <= n <= 2)%Z →
  length (rounds (align self ray n min_eps)) = Z.to_nat n.
Proof.
  intros Ha Hn. pose proof (align_at_least_two self a1 a2 ray n min_eps Ha).
  destruct (align_two self a1 a2 ray n min_eps Ha) as (_ & Hlen & _). lia.
Qed.

(** With a single round [align] returns the pose of the actuators at
    rest, with the offsets applied: incident ray, aim point and [min_eps]
    have no part in it, while the ray is divided by its norm all the
    same. *)
Theorem align_single_round (self : RigidBody T) (a1 a2 : Actuator T)
    (incident_ray_direction : list (vec4 T)) (min_eps : T) :
  actuator_list self = [a1; a2] →
  let r := align self incident_ray_direction 1 min_eps in
  returned r
  = apply_offsets self [forward_chain self (forward a1 szero) (forward a2 szero)]
  ∧ ray_after r = div_norm incident_ray_direction.
Proof.
  intros Ha. cbv zeta.
  pose proof (align_round_count self a1 a2 incident_ray_direction 1 min_eps Ha) as Hc.
  destruct (align_two self a1 a2 incident_ray_direction 1 min_eps Ha)
    as (Hr & _ & _ & Hray & Hret).
  rewrite Hret, Hray, Hc by lia.
  destruct (rounds _) as [|lg [|??]]; try (simpl in Hc; lia).
  destruct Hr as [F _]. simpl. split; [|done].
  rewrite (rf_orientation _ _ _ _ _ _ F), (rf_joint_1 _ _ _ _ _ _ F),
    (rf_joint_2 _ _ _ _ _ _ F). reflexivity.
Qed.

(** From one round to the next: the joint angles of a round are what the
    actuators give for the motor steps of the angles solved in the round
    before, and its incident ray is the ray of the round before divided
    by its norm. *)
Theorem align_rounds_chain (self : RigidBody T) (a1 a2 : Actuator T)
    (incident_ray_direction : list (vec4 T)) (max_num_iterations : Z) (min_eps : T)
    (i : nat) (lg lg' : round_log T) :
  actuator_list self = [a1; a2] →
  let r := align self incident_ray_direction max_num_iterations min_eps in
  rounds r !! i = Some lg → rounds r !! S i = Some lg' →
  ∃ solved,
    log_solved lg = Some solved
    ∧ log_joint_1_angles lg'
      = map (λ j, forward a1 (angles_to_motor_steps a1 j.1)) solved
    ∧ log_joint_2_angles lg'
      = map (λ j, forward a2 (angles_to_motor_steps a2 j.2)) solved
    ∧ log_ray_before lg' = div_norm (log_ray_before lg).
Proof.
  intros Ha. cbv zeta. intros Hi Hi'.
  destruct (align_two self a1 a2 incident_ray_direction max_num_iterations
              min_eps Ha) as (Hr & _).
  destruct (rounds_from_pair self a1 a2 min_eps (λ _, True) (λ _ _ _ _ _, I)
              _ _ i lg lg' I Hr Hi Hi') as (st0 & _ & F & Hb & F').
  exists (map (analytical_solution self) (log_desired_concentrator_normal lg)).
  rewrite (rf_solved _ _ _ _ _ _ F), Hb. split; [done|].
  rewrite (rf_joint_1 _ _ _ _ _ _ F'), (rf_joint_2 _ _ _ _ _ _ F'),
    (rf_ray _ _ _ _ _ _ F'), (rf_ray _ _ _ _ _ _ F). simpl.
  by rewrite !map_map.
Qed.
End Composition.

(** ** A batch of equal rows *)

Lemma elem_of_map {A B : Type} (f : A → B) (l : list A) (y : B) :
  y ∈ map f l ↔ ∃ x, y = f x ∧ x ∈ l.
Proof.
  rewrite list_elem_of_In, in_map_iff. split; intros (x & H1 & H2); exists x.
  - by rewrite list_elem_of_In.
  - by rewrite <- list_elem_of_In.
Qed.

Lemma uniform_map {A B : Type} (f : A → B) (l : list A) : uniform l → uniform (map f l).
Proof.
  intros H y1 y2 (x1 & -> & H1)%elem_of_map (x2 & -> & H2)%elem_of_map.
  f_equal. by apply H.
Qed.

Lemma elem_of_zip_with {A B C : Type} (f : A → B → C) (xs : list A) (ys : list B) (z : C) :
  z ∈ zip_with f xs ys → ∃ x y, z = f x y ∧ x ∈ xs ∧ y ∈ ys.
Proof.
  revert ys. induction xs as [|x xs IH]; intros [|y ys] H; simpl in H;
    try by apply elem_of_nil in H.
  apply elem_of_cons in H as [->|H].
  - exists x, y. repeat split; apply elem_of_cons; auto.
  - destruct (IH ys H) as (x' & y' & -> & ? & ?).
    exists x', y'. repeat split; apply elem_of_cons; auto.
Qed.

Lemma uniform_zip_with {A B C : Type} (f : A → B → C) (xs : list A) (ys : list B) :
  uniform xs → uniform ys → uniform (zip_with f xs ys).
Proof.
  intros Hx Hy z1 z2 (x1 & y1 & -> & ? & ?)%elem_of_zip_with
    (x2 & y2 & -> & ? & ?)%elem_of_zip_with.
  f_equal; [by apply Hx|by apply Hy].
Qed.

(** The three ways a broadcast comes out. *)
Lemma bcast2_cases {A B C : Type} (f : A → B → C) (xs : list A) (ys : list B)
    (zs : list C) :
  bcast2 f xs ys = Ok zs →
  zs = zip_with f xs ys
  ∨ (∃ x, xs = [x] ∧ zs = map (f x) ys)
  ∨ (∃ y, ys = [y] ∧ zs = map (λ x, f x y) xs).
Proof.
  unfold bcast2. destruct (decide _); [intros [= <-]; by left|].
  destruct xs as [|x [|x' xs]]; destruct ys as [|y [|y' ys]]; intros [= <-]; eauto.
Qed.

Lemma uniform_bcast2 {A B C : Type} (f : A → B → C) (xs : list A) (ys : list B)
    (zs : list C) :
  uniform xs → uniform ys → bcast2 f xs ys = Ok zs → uniform zs.
Proof.
  intros Hx Hy [->|[(x & -> & ->)|(y & -> & ->)]]%bcast2_cases.
  - by apply uniform_zip_with.
  - by apply uniform_map.
  - by apply uniform_map.
Qed.

Section BatchConsistency.
Context {T : Type} `{SC : Scalar T} `{UT : Utils T}.

Lemma uniform_div_norm (t : list (vec4 T)) : uniform t → uniform (div_norm t).
Proof. apply uniform_map. Qed.

Lemma round_uniform (self : RigidBody T) (a1 a2 : Actuator T) (min_eps : T)
    (st : loop_state T) (lg : round_log T) :
  uniform (actuator_steps st) → uniform (st_incident_ray_direction st) →
  round_facts self a1 a2 min_eps st lg →
  uniform (log_orientation lg) ∧ uniform (log_desired_concentrator_normal lg).
Proof.
  intros Hs Hray F.
  assert (Ho : uniform (log_orientation lg)).
  { rewrite (rf_orientation _ _ _ _ _ _ F), (rf_joint_1 _ _ _ _ _ _ F),
      (rf_joint_2 _ _ _ _ _ _ F).
    apply uniform_zip_with; by do 2 apply uniform_map. }
  split; [done|].
  destruct (rf_desired _ _ _ _ _ _ F) as (d0 & Ed & ->).
  apply uniform_div_norm. eapply uniform_bcast2; [| |exact Ed].
  - apply uniform_div_norm. by rewrite (rf_ray _ _ _ _ _ _ F).
  - rewrite (rf_reflect _ _ _ _ _ _ F), (rf_origins _ _ _ _ _ _ F).
    apply uniform_div_norm. by do 2 apply uniform_map.
Qed.

(** Batch consistency: when all rows of the incident ray are the same,
    all orientations [align] returns are the same. *)
Theorem align_batch_consistent (self : RigidBody T)
    (incident_ray_direction : list (vec4 T)) (max_num_iterations : Z) (min_eps : T)
    (o : list (mat4 T)) :
  uniform incident_ray_direction →
  returned (align self incident_ray_direction max_num_iterations min_eps) = Ok o →
  uniform o.
Proof.
  intros Hu Ho. destruct (decide (length (actuator_list self) = 2)) as [E|NE].
  2:{ by rewrite align_not_two in Ho. }
  destruct (two_actuators self E) as (a1 & a2 & Ha).
  destruct (align_two self a1 a2 incident_ray_direction max_num_iterations
              min_eps Ha) as (Hr & _).
  apply align_returned in Ho as (lg & Hl & Ho).
  rewrite apply_offsets_map in Ho. injection Ho as <-. apply uniform_map.
  rewrite last_lookup in Hl.
  set (P := λ st : loop_state T,
    uniform (actuator_steps st) ∧ uniform (st_incident_ray_direction st)).
  assert (HP : ∀ st lg, P st → round_facts self a1 a2 min_eps st lg →
               log_break lg = false → P (next_state self a1 a2 st lg)).
  { intros st l [Hs Hray] F _.
    destruct (round_uniform self a1 a2 min_eps st l Hs Hray F) as [_ Hd].
    split; simpl; [by do 2 apply uniform_map|by apply uniform_div_norm]. }
  assert (HP0 : P (initial_state incident_ray_direction)).
  { split; [|done]. simpl. intros x y Hx Hy.
    apply list_elem_of_singleton in Hx, Hy. congruence. }
  destruct (rounds_from_nth self a1 a2 min_eps P HP _ _ _ lg HP0 Hr Hl)
    as (st0 & [Hs Hray] & F & _).
  by destruct (round_uniform self a1 a2 min_eps st0 lg Hs Hray F).
Qed.
End BatchConsistency.

(** ** What does not matter, and [align_surface] *)

Section Irrelevant.
Context {T : Type} `{SC : Scalar T} `{UT : Utils T}.

Lemma align_loop_unread (self : RigidBody T) (a1 a2 : Actuator T)
    (min_eps first_e second_u position_w : T) (k : nat) (st : loop_state T) :
  align_loop (with_unread_parts self first_e second_u position_w) a1 a2 min_eps k st
  = align_loop self a1 a2 min_eps k st.
Proof.
  revert st. induction k as [|k IH]; intros st; simpl; [done|].
  change (align_round (with_unread_parts self first_e second_u position_w)
            a1 a2 min_eps st)
    with (align_round self a1 a2 min_eps st).
  destruct (align_round _ _ _ _ _); try done. by rewrite IH.
Qed.

(** [align] and [align_surface] read neither [first_joint_tilt_e] nor
    [second_joint_tilt_u] nor the fourth entry of the position: whatever
    their values, the call is the same. *)
Theorem align_unread_parts (self : RigidBody T) (first_e second_u position_w : T)
    (incident_ray_direction : list (vec4 T)) (max_num_iterations : Z) (min_eps : T)
    (surface_points surface_normals : list (vec4 T)) :
  align (with_unread_parts self first_e second_u position_w)
    incident_ray_direction max_num_iterations min_eps
  = align self incident_ray_direction max_num_iterations min_eps
  ∧ align_surface (with_unread_parts self first_e second_u position_w)
      incident_ray_direction surface_points surface_normals
    = align_surface self incident_ray_direction surface_points surface_normals.
Proof.
  assert (H : ∀ n eps,
    align (with_unread_parts self first_e second_u position_w)
      incident_ray_direction n eps
    = align self incident_ray_direction n eps).
  { intros n eps. unfold align. simpl.
    destruct (actuator_list self) as [|a1 [|a2 [|a3 l]]]; try done.
    by rewrite align_loop_unread. }
  split; [apply H|]. unfold align_surface. by rewrite H.
Qed.

(** The desired normal of a round is a matter of the state it starts in,
    not of [min_eps]. *)
Lemma round_facts_desired (self : RigidBody T) (a1 a2 : Actuator T)
    (min_eps min_eps' : T) (st : loop_state T) (lg lg' : round_log T) :
  round_facts self a1 a2 min_eps st lg → round_facts self a1 a2 min_eps' st lg' →
  log_orientation lg = log_orientation lg'
  ∧ log_desired_concentrator_normal lg = log_desired_concentrator_normal lg'.
Proof.
  intros F F'.
  assert (Ho : log_orientation lg = log_orientation lg').
  { by rewrite (rf_orientation _ _ _ _ _ _ F), (rf_orientation _ _ _ _ _ _ F'),
      (rf_joint_1 _ _ _ _ _ _ F), (rf_joint_1 _ _ _ _ _ _ F'),
      (rf_joint_2 _ _ _ _ _ _ F), (rf_joint_2 _ _ _ _ _ _ F'). }
  split; [done|].
  destruct (rf_desired _ _ _ _ _ _ F) as (d0 & Ed & ->).
  destruct (rf_desired _ _ _ _ _ _ F') as (d0' & Ed' & ->).
  rewrite (rf_reflect _ _ _ _ _ _ F), (rf_origins _ _ _ _ _ _ F),
    (rf_ray _ _ _ _ _ _ F) in Ed.
  rewrite (rf_reflect _ _ _ _ _ _ F'), (rf_origins _ _ _ _ _ _ F'),
    (rf_ray _ _ _ _ _ _ F'), <- Ho in Ed'.
  congruence.
Qed.

(** With the default of two rounds, [min_eps] has no effect on what
    [align] returns nor on the incident ray afterwards: the test it is
    used in comes after the orientation of the second round is computed,
    and stops a loop that is over anyway. *)
Theorem align_two_rounds_min_eps (self : RigidBody T)
    (incident_ray_direction : list (vec4 T)) (min_eps min_eps' : T) :
  returned (align self incident_ray_direction 2 min_eps)
  = returned (align self incident_ray_direction 2 min_eps')
  ∧ ray_after (align self incident_ray_direction 2 min_eps)
    = ray_after (align self incident_ray_direction 2 min_eps').
Proof.
  destruct (decide (length (actuator_list self) = 2)) as [E|NE].
  2:{ by rewrite !align_not_two. }
  destruct (two_actuators self E) as (a1 & a2 & Ha).
  pose proof (align_round_count self a1 a2 incident_ray_direction 2 min_eps Ha) as Hc.
  pose proof (align_round_count self a1 a2 incident_ray_direction 2 min_eps' Ha) as Hc'.
  destruct (align_two self a1 a2 incident_ray_direction 2 min_eps Ha)
    as (Hr & _ & _ & Hray & Hret).
  destruct (align_two self a1 a2 incident_ray_direction 2 min_eps' Ha)
    as (Hr' & _ & _ & Hray' & Hret').
  rewrite Hret, Hret', Hray, Hray', Hc, Hc' by lia. split; [|done].
  destruct (rounds (align self incident_ray_direction 2 min_eps))
    as [|l1 [|l2 [|??]]]; try (simpl in Hc; lia).
  destruct (rounds (align self incident_ray_direction 2 min_eps'))
    as [|l1' [|l2' [|??]]]; try (simpl in Hc'; lia).
  simpl in Hr, Hr'. destruct Hr as (F1 & Hr), Hr' as (F1' & Hr').
  destruct (log_break l1); [done|]. destruct (log_break l1'); [done|].
  destruct Hr as [F2 _], Hr' as [F2' _].
  destruct (round_facts_desired _ _ _ _ _ _ _ _ F1 F1') as [_ Hd].
  assert (Hst : actuator_steps (next_state self a1 a2 (initial_state incident_ray_direction) l1)
                = actuator_steps (next_state self a1 a2 (initial_state incident_ray_direction) l1')).
  { simpl. by rewrite Hd. }
  simpl last. f_equal.
  rewrite (rf_orientation _ _ _ _ _ _ F2), (rf_orientation _ _ _ _ _ _ F2'),
    (rf_joint_1 _ _ _ _ _ _ F2), (rf_joint_1 _ _ _ _ _ _ F2'),
    (rf_joint_2 _ _ _ _ _ _ F2), (rf_joint_2 _ _ _ _ _ _ F2').
  by rewrite Hst.
Qed.

Lemma bcast2_mismatch {A B C : Type} (f : A → B → C) (xs : list A) (ys : list B) :
  length xs ≠ length ys → length xs ≠ 1 → length ys ≠ 1 →
  bcast2 f xs ys = Raise RuntimeError.
Proof.
  intros H Hx Hy. unfold bcast2. rewrite decide_False by done.
  destruct xs as [|x [|x' xs]]; destruct ys as [|y [|y' ys]]; simpl in *; done.
Qed.

(** [align_surface] on a single incident ray, with two actuators: it
    returns as many points and normals as it is given, each the one
    orientation that [align] returns applied to it, points and normals
    alike, and the ray has been divided by its norm twice. *)
Theorem align_surface_single_ray (self : RigidBody T) (d : vec4 T)
    (surface_points surface_normals : list (vec4 T)) :
  length (actuator_list self) = 2 →
  ∃ o, returned (align self [d] 2 s1e_4) = Ok [o]
       ∧ align_surface self [d] surface_points surface_normals
         = (Ok (map (mat_vec o) surface_points, map (mat_vec o) surface_normals),
            div_norm (div_norm [d])).
Proof.
  intros E. destruct (two_actuators self E) as (a1 & a2 & Ha).
  destruct (align_returns self [d] 2 s1e_4 E) as (o & Ho & Hlen); [lia|]. simpl in Hlen.
  destruct o as [|m [|??]]; try done. exists m. split; [done|].
  unfold align_surface. rewrite Ho. simpl. rewrite !bcast2_one_l. simpl.
  f_equal. destruct (align_two self a1 a2 [d] 2 s1e_4 Ha) as (_ & _ & _ & -> & _).
  by rewrite (align_round_count self a1 a2 [d] 2 s1e_4 Ha) by lia.
Qed.

(** How [align_surface] fails: with the [AssertionError] of [align] and an
    untouched ray when there are not two actuators; with torch's
    [RuntimeError] when the incident ray has several rows and the surface
    points are neither one nor as many as these rows.  With two actuators
    the incident ray has been divided by its norm twice, whether the call
    then fails or not. *)
Theorem align_surface_raises (self : RigidBody T)
    (incident_ray_direction surface_points surface_normals : list (vec4 T)) :
  (length (actuator_list self) ≠ 2 →
   align_surface self incident_ray_direction surface_points surface_normals
   = (Raise AssertionError, incident_ray_direction))
  ∧ (length (actuator_list self) = 2 →
     length incident_ray_direction ≠ 1 → length surface_points ≠ 1 →
     length surface_points ≠ length incident_ray_direction →
     (align_surface self incident_ray_direction surface_points surface_normals).1
     = Raise RuntimeError)
  ∧ (length (actuator_list self) = 2 →
     (align_surface self incident_ray_direction surface_points surface_normals).2
     = div_norm (div_norm incident_ray_direction)).
Proof.
  split; [|split].
  - intros NE. unfold align_surface. by rewrite align_not_two.
  - intros E H1 H2 H3.
    destruct (align_returns self incident_ray_direction 2 s1e_4 E)
      as (o & Ho & Hlen); [lia|]. simpl in Hlen.
    unfold align_surface. rewrite Ho. simpl.
    rewrite (bcast2_mismatch mat_vec o surface_points);
      [done|rewrite Hlen; intros HH; by apply H3|by rewrite Hlen|done].
  - intros E. destruct (two_actuators self E) as (a1 & a2 & Ha).
    unfold align_surface. simpl.
    destruct (align_two self a1 a2 incident_ray_direction 2 s1e_4 Ha)
      as (_ & _ & _ & -> & _).
    by rewrite (align_round_count self a1 a2 incident_ray_direction 2 s1e_4 Ha)
      by lia.
Qed.
End Irrelevant.

(** ** The fourth entry of the loss *)

Lemma Forall_map_elem {A B : Type} (P : A → Prop) (Q : B → Prop) (f : A → B)
    (l : list A) :
  (∀ x, P x → Q (f x)) → Forall P l → Forall Q (map f l).
Proof.
  intros H Hl. apply Forall_forall. intros y (x & -> & Hx)%elem_of_map.
  apply H. by eapply Forall_forall in Hl.
Qed.

Lemma Forall_zip_with_elem {A B C : Type} (P : A → Prop) (Q : B → Prop)
    (R : C → Prop) (f : A → B → C) (xs : list A) (ys : list B) :
  (∀ x y, P x → Q y → R (f x y)) → Forall P xs → Forall Q ys →
  Forall R (zip_with f xs ys).
Proof.
  intros H Hx Hy. apply Forall_forall.
  intros z (x & y & -> & Hinx & Hiny)%elem_of_zip_with.
  apply H; [by eapply Forall_forall in Hx|by eapply Forall_forall in Hy].
Qed.

Lemma Forall_bcast2 {A B C : Type} (P : A → Prop) (Q : B → Prop)
    (R : C → Prop) (f : A → B → C) (xs : list A) (ys : list B) (zs : list C) :
  (∀ x y, P x → Q y → R (f x y)) → Forall P xs → Forall Q ys →
  bcast2 f xs ys = Ok zs → Forall R zs.
Proof.
  intros H Hx Hy [->|[(x & -> & ->)|(y & -> & ->)]]%bcast2_cases.
  - by eapply Forall_zip_with_elem.
  - apply Forall_inv in Hx. eapply Forall_map_elem; [|exact Hy]. eauto.
  - apply Forall_inv in Hy. eapply Forall_map_elem; [|exact Hx]. eauto.
Qed.

Module Homogeneous.
Import XR XRFacts.
Local Open Scope R_scope.

Lemma zero_or_nan_div (x y : xreal) : zero_or_nan x → zero_or_nan (xdiv x y).
Proof.
  intros [->| ->]; [by left|]. destruct y as [b|]; simpl; [|by left].
  destruct (Req_dec_T b 0); [by left|]. right. f_equal. unfold Rdiv. apply Rmult_0_l.
Qed.

Lemma zero_or_nan_add (x y : xreal) :
  zero_or_nan x → zero_or_nan y → zero_or_nan (lift2 Rplus x y).
Proof. intros [->| ->] [->| ->]; try by left. right. simpl. f_equal. lra. Qed.

Lemma zero_or_nan_abs_sub (x y : xreal) :
  zero_or_nan x → zero_or_nan y → zero_or_nan (lift1 Rabs (lift2 Rminus x y)).
Proof.
  intros [->| ->] [->| ->]; try by left. right. simpl. f_equal.
  rewrite Rminus_diag. apply Rabs_R0.
Qed.

Lemma zero_or_nan_one_sub (y : xreal) :
  one_or_nan y → zero_or_nan (lift2 Rminus (Some 1) y).
Proof. intros [->| ->]; [by left|]. right. simpl. f_equal. lra. Qed.

Lemma fourth_zero_div_norm (t : list (vec4 xreal)) :
  fourth_zero t → fourth_zero (div_norm t).
Proof.
  apply Forall_map_elem. intros v Hv. simpl. by apply zero_or_nan_div.
Qed.

(** The product of the last row of a homogeneous matrix with a column is
    the fourth entry of the column, unless it is not-a-number. *)
Lemma dot_last_row (r c : vec4 xreal) :
  zero_or_nan (vE r) → zero_or_nan (vN r) → zero_or_nan (vU r) → one_or_nan (vW r) →
  dot r c = None ∨ dot r c = vW c.
Proof.
  destruct r as [a b c' d], c as [x y z w]. simpl.
  intros [->| ->] [->| ->] [->| ->] [->| ->];
    destruct x, y, z, w; simpl; auto; right; unfold dot; simpl; f_equal; lra.
Qed.

Lemma homogeneous_mul (a b : mat4 xreal) :
  homogeneous a → homogeneous b → homogeneous (mat_mul a b).
Proof.
  intros (HE & HN & HU & HW) (HE' & HN' & HU' & HW').
  unfold homogeneous, mat_mul. cbn [row3 row_mat vE vN vU vW]. repeat split.
  - destruct (dot_last_row (row3 a) (col0 b) HE HN HU HW) as [->| ->];
      [by left|exact HE'].
  - destruct (dot_last_row (row3 a) (col1 b) HE HN HU HW) as [->| ->];
      [by left|exact HN'].
  - destruct (dot_last_row (row3 a) (col2 b) HE HN HU HW) as [->| ->];
      [by left|exact HU'].
  - destruct (dot_last_row (row3 a) (col3 b) HE HN HU HW) as [->| ->];
      [by left|exact HW'].
Qed.

Lemma homogeneous_eye : homogeneous eye.
Proof. repeat split; by right. Qed.

Section Builders.
Context `{UT : Utils xreal}.
Hypothesis translate_homogeneous : ∀ e n u, homogeneous (translate_enu e n u).
Hypothesis rotate_e_homogeneous : ∀ e, homogeneous (rotate_e e).
Hypothesis rotate_n_homogeneous : ∀ n, homogeneous (rotate_n n).
Hypothesis rotate_u_homogeneous : ∀ u, homogeneous (rotate_u u).

Lemma forward_chain_homogeneous (self : RigidBody xreal) (j1 j2 : xreal) :
  homogeneous (forward_chain self j1 j2).
Proof.
  unfold forward_chain, joint_1_stage, joint_2_stage. cbv zeta.
  repeat apply homogeneous_mul; auto using homogeneous_eye.
Qed.

(** The fourth entry of the loss of a round is zero or not-a-number, for
    an aim point with fourth entry 1 and an incident ray with fourth
    entries 0. *)
Lemma round_fourth_zero (self : RigidBody xreal) (a1 a2 : Actuator xreal)
    (min_eps : xreal) (st : loop_state xreal) (lg : round_log xreal) :
  vW (aim_point self) = Some 1 →
  fourth_zero (st_incident_ray_direction st) →
  round_facts self a1 a2 min_eps st lg →
  fourth_zero (log_loss lg).
Proof.
  intros Haim Hray F.
  assert (Ho : Forall homogeneous (log_orientation lg)).
  { rewrite (rf_orientation _ _ _ _ _ _ F).
    apply (Forall_zip_with_elem (λ _, True) (λ _, True)).
    - intros. apply forward_chain_homogeneous.
    - by apply Forall_forall.
    - by apply Forall_forall. }
  assert (Hn : fourth_zero (log_concentrator_normals lg)).
  { rewrite (rf_normals _ _ _ _ _ _ F). eapply Forall_map_elem; [|exact Ho].
    intros o (HE & HN & HU & HW). cbn [mat_vec vW].
    by destruct (dot_last_row (row3 o) (V4 szero (sneg sone) szero szero)
                   HE HN HU HW) as [->| ->]; [left|right]. }
  assert (Horig : Forall (λ v, one_or_nan (vW v)) (log_concentrator_origins lg)).
  { rewrite (rf_origins _ _ _ _ _ _ F). eapply Forall_map_elem; [|exact Ho].
    intros o (HE & HN & HU & HW). cbn [mat_vec vW].
    by destruct (dot_last_row (row3 o) (V4 szero szero szero sone)
                   HE HN HU HW) as [->| ->]; [left|right]. }
  assert (Hrefl : fourth_zero (log_desired_reflect_vec lg)).
  { rewrite (rf_reflect _ _ _ _ _ _ F). apply fourth_zero_div_norm.
    eapply Forall_map_elem; [|exact Horig].
    intros v Hv. cbn [vsub vzip vW]. rewrite Haim. by apply zero_or_nan_one_sub. }
  destruct (rf_desired _ _ _ _ _ _ F) as (d0 & Ed & Edes).
  assert (Hd : fourth_zero (log_desired_concentrator_normal lg)).
  { rewrite Edes. apply fourth_zero_div_norm.
    refine (Forall_bcast2 (λ v, zero_or_nan (vW v)) (λ v, zero_or_nan (vW v))
              (λ v, zero_or_nan (vW v)) _ _ _ _ _ _ _ Ed); [| |done].
    - intros x y Hx Hy. cbn [vadd vzip vW]. by apply zero_or_nan_add.
    - apply fourth_zero_div_norm. by rewrite (rf_ray _ _ _ _ _ _ F). }
  refine (Forall_bcast2 (λ v, zero_or_nan (vW v)) (λ v, zero_or_nan (vW v))
            (λ v, zero_or_nan (vW v)) _ _ _ _ _ _ _ (rf_loss _ _ _ _ _ _ F));
    [|done|done].
  intros x y Hx Hy. cbn [vabs vsub vmap vzip vW]. by apply zero_or_nan_abs_sub.
Qed.

(** Points with fourth entry 1 and directions with fourth entry 0 make
    the convergence test succeed on the fourth entry: in every round the
    fourth entries of the loss are zero or not-a-number, so from the
    second round on, one finite fourth entry of the change stops the loop
    for any [min_eps] that is not negative.  The loop runs a third round
    only when every fourth entry of the change is not-a-number. *)
Theorem fourth_entry_stops_loop (self : RigidBody xreal)
    (incident_ray_direction : list (vec4 xreal)) (max_num_iterations : Z)
    (min_eps : R) :
  vW (aim_point self) = Some 1 →
  Forall (λ v, vW v = Some 0) incident_ray_direction →
  0 <= min_eps →
  let r := align self incident_ray_direction max_num_iterations (Some min_eps) in
  Forall (λ lg,
    fourth_zero (log_loss lg)
    ∧ ∀ eps, log_eps lg = Some eps → (∃ v, v ∈ eps ∧ is_Some (vW v)) →
        log_break lg = true) (rounds r)
  ∧ ∀ lg eps, rounds r !! 1%nat = Some lg → log_eps lg = Some eps →
      (∃ v, v ∈ eps ∧ is_Some (vW v)) → length (rounds r) = 2%nat.
Proof.
  intros Haim Hray He. cbv zeta.
  destruct (decide (length (actuator_list self) = 2%nat)) as [E|NE].
  2:{ rewrite align_not_two by done. simpl. split; [constructor|done]. }
  destruct (two_actuators self E) as (a1 & a2 & Ha).
  destruct (align_two self a1 a2 incident_ray_direction max_num_iterations
              (Some min_eps) Ha) as (Hr & _).
  set (lgs := rounds _) in *. clearbody lgs.
  set (P := λ st : loop_state xreal,
    fourth_zero (st_incident_ray_direction st)
    ∧ ∀ l, last_iteration_loss st = Some l → fourth_zero l).
  assert (HP : ∀ st lg, P st → round_facts self a1 a2 (Some min_eps) st lg →
               log_break lg = false → P (next_state self a1 a2 st lg)).
  { intros st lg [H1 H2] F _. split; simpl.
    - by apply fourth_zero_div_norm.
    - intros l [= <-]. by eapply round_fourth_zero. }
  assert (HP0 : P (initial_state incident_ray_direction)).
  { split; [|done]. simpl. eapply Forall_impl; [exact Hray|].
    intros v Hv. by right. }
  assert (Hall : Forall (λ lg,
    fourth_zero (log_loss lg)
    ∧ ∀ eps, log_eps lg = Some eps → (∃ v, v ∈ eps ∧ is_Some (vW v)) →
        log_break lg = true) lgs).
  { apply Forall_forall. intros lg [i Hi]%list_elem_of_lookup.
    destruct (rounds_from_nth self a1 a2 (Some min_eps) P HP _ _ i lg HP0 Hr Hi)
      as (st0 & [H1 H2] & F & _).
    pose proof (round_fourth_zero self a1 a2 (Some min_eps) st0 lg Haim H1 F) as Hl.
    split; [done|]. intros eps Heps (v & Hv & Hfin).
    pose proof (rf_convergence _ _ _ _ _ _ F) as Hc. unfold convergence in Hc.
    destruct (last_iteration_loss st0) as [l|] eqn:Elast; [|congruence].
    destruct (bcast2 _ l (log_loss lg)) as [eps'|] eqn:Eb; simpl in Hc; [|done].
    injection Hc as Heps' Hb. rewrite <- Heps' in Heps. injection Heps as ->.
    assert (Hz : fourth_zero eps).
    { refine (Forall_bcast2 (λ v, zero_or_nan (vW v)) (λ v, zero_or_nan (vW v))
                (λ v, zero_or_nan (vW v)) _ _ _ _ _ _ _ Eb); [|by apply H2|done].
      intros x y Hx Hy. cbn [vabs vsub vmap vzip vW]. by apply zero_or_nan_abs_sub. }
    rewrite <- Hb. apply (any_le_spec (Some min_eps)). exists v. split; [done|].
    do 3 right. eapply Forall_forall in Hz; [|exact Hv].
    destruct Hz as [Hz|Hz]; rewrite Hz in *; [by destruct Hfin|].
    simpl. by destruct (Rle_dec 0 min_eps). }
  split; [done|]. intros lg eps Hi Heps Hfin.
  eapply rounds_from_break_last; [exact Hr|exact Hi|].
  eapply Forall_forall in Hall; [|by eapply list_elem_of_lookup_2].
  by eapply Hall.
Qed.
End Builders.
End Homogeneous.

(** ** The scenario with a ray that does not cancel the reflect vector *)

Module NorthFacts.
Import XR XRFacts North.
Local Open Scope R_scope.

Lemma north_ray_div_norm : div_norm north_ray = north_ray.
Proof.
  change north_ray with (map vreal [V4 0 1 0 0]).
  rewrite (xr_div_norm_eval _ 1) by (try lra; real_sumsq).
  xr_unfold. cbn [map]. entries; lra.
Qed.

Lemma north_desired :
  div_norm (zip_with vadd north_ray [vreal (V4 0 1 0 0)]) = [vreal (V4 0 1 0 0)].
Proof.
  change (zip_with _ _ _) with (map vreal [V4 (0 + 0) (1 + 1) (0 + 0) (0 + 0)]).
  rewrite (xr_div_norm_eval _ 2) by (try lra; real_sumsq).
  xr_unfold. cbn [map]. entries; lra.
Qed.

Lemma north_loss_1 :
  zip_with (λ d n, vabs (vsub d n)) [vreal (V4 0 1 0 0)] [vreal (V4 0 (-1) 0 0)]
  = [vreal (V4 0 2 0 0)].
Proof.
  cbn [zip_with]. xr_unfold. entries; rewrite Rabs_right; lra.
Qed.

Lemma north_loss_2 :
  zip_with (λ d n, vabs (vsub d n)) [vreal (V4 0 1 0 0)] [vreal (V4 0 1 0 0)]
  = [vreal (V4 0 0 0 0)].
Proof.
  cbn [zip_with]. xr_unfold. entries; rewrite Rabs_right; lra.
Qed.

Lemma north_eps :
  zip_with (λ l x, vabs (vsub l x)) [vreal (V4 0 2 0 0)] [vreal (V4 0 0 0 0)]
  = [vreal (V4 0 2 0 0)].
Proof.
  cbn [zip_with]. xr_unfold. entries; rewrite Rabs_right; lra.
Qed.

Lemma north_stops : any_le [vreal (V4 0 2 0 0)] (s1e_4 (T := xreal)) = true.
Proof.
  unfold any_le, vany. cbn [existsb vreal vE]. xr_unfold.
  destruct (Rle_dec 0 (1 / 10000)) as [_|H]; [done|]. exfalso. apply H. lra.
Qed.

Lemma north_joint_2 :
  sneg (sasin (sdiv (sneg (Some 0)) (scos (Some 0)))) = Some 0 :> xreal.
Proof.
  cbn [sneg sasin sdiv scos xreal_scalar lift1 xdiv].
  rewrite cos_0. destruct (Req_dec_T 1 0) as [H|_]; [lra|].
  replace (- 0 / 1) with 0 by lra. cbn [xasin].
  destruct (Rle_dec (Rabs 0) 1) as [_|H].
  - cbn [lift1]. f_equal. rewrite asin_0. lra.
  - exfalso. apply H. rewrite Rabs_R0. lra.
Qed.

Lemma atan2_0_1 : atan2 0 1 = 0.
Proof.
  unfold atan2. destruct (Rlt_dec 0 1) as [_|H]; [|lra].
  replace (0 / 1) with 0 by lra. apply atan_0.
Qed.

Lemma north_solution :
  analytical_solution scenario (vreal (V4 0 1 0 0)) = (Some (- PI), Some 0).
Proof.
  unfold analytical_solution.
  cbn [deviation_parameters scenario zero_deviations second_joint_translation_e
       second_joint_translation_n vE vN vU vreal].
  rewrite north_joint_2. xr_unfold. rewrite cos_0, sin_0.
  f_equal. f_equal.
  match goal with
  | |- atan2 ?y ?x - PI = _ => replace y with 0 by lra; replace x with 1 by lra
  end.
  rewrite atan2_0_1. lra.
Qed.

Lemma chain_turned :
  forward_chain (UT := SpecUtils) scenario (Some (- PI)) (Some 0) = turned.
Proof.
  unfold forward_chain, joint_1_stage, joint_2_stage. simpl.
  rewrite rotate_e_0, rotate_n_0, rotate_u_0, translate_enu_0, !mat_mul_eye_eye.
  xr_unfold. rewrite cos_neg, sin_neg, cos_PI, sin_PI. unfold turned.
  xr_unfold. entries; lra.
Qed.

Lemma normal_of_turned :
  mat_vec turned (V4 szero (sneg sone) szero szero) = vreal (V4 0 1 0 0).
Proof. unfold turned. xr_solve. Qed.

Lemma origin_of_turned :
  mat_vec turned (V4 szero szero szero sone) = vreal (V4 0 0 0 1).
Proof. unfold turned. xr_solve. Qed.

Lemma apply_offsets_turned :
  apply_offsets (UT := SpecUtils) scenario [turned] = Ok [turned].
Proof.
  rewrite apply_offsets_map. simpl.
  rewrite rotate_e_0, rotate_n_0, rotate_u_0. do 2 f_equal.
  unfold turned. xr_solve.
Qed.

Lemma north_first_round (min_eps : xreal) :
  align_round (UT := SpecUtils) scenario identity_actuator identity_actuator min_eps
    (initial_state north_ray)
  = Next (LoopState [(Some (- PI), Some 0)] (Some [eye])
            (Some [vreal (V4 0 2 0 0)]) north_ray) north_round_1.
Proof.
  unfold align_round. rewrite round_orientation_ok by done.
  cbn [initial_state actuator_steps st_incident_ray_direction last_iteration_loss
       map fst snd forward identity_actuator zip_with].
  rewrite chain_at_zero. cbn [map]. rewrite normal_of_eye, origin_of_eye.
  rewrite scenario_reflect, north_ray_div_norm.
  rewrite (bcast2_same vadd) by done. cbn [mbind result_bind].
  rewrite north_desired.
  rewrite (bcast2_same (λ d n, vabs (vsub d n))) by done.
  rewrite north_loss_1.
  cbn [mbind result_bind convergence map].
  rewrite north_solution. reflexivity.
Qed.

Lemma north_second_round :
  align_round (UT := SpecUtils) scenario identity_actuator identity_actuator s1e_4
    (LoopState [(Some (- PI), Some 0)] (Some [eye])
       (Some [vreal (V4 0 2 0 0)]) north_ray)
  = Broke (LoopState [(Some (- PI), Some 0)] (Some [turned])
             (Some [vreal (V4 0 2 0 0)]) north_ray) north_round_2.
Proof.
  unfold align_round. rewrite round_orientation_ok by done.
  cbn [actuator_steps st_incident_ray_direction last_iteration_loss
       map fst snd forward identity_actuator zip_with].
  rewrite chain_turned. cbn [map]. rewrite normal_of_turned, origin_of_turned.
  rewrite scenario_reflect, north_ray_div_norm.
  rewrite (bcast2_same vadd) by done. cbn [mbind result_bind].
  rewrite north_desired.
  rewrite (bcast2_same (λ d n, vabs (vsub d n))) by done.
  rewrite north_loss_2.
  cbn [mbind result_bind convergence].
  rewrite (bcast2_same (λ l x, vabs (vsub l x))) by done.
  rewrite north_eps. cbn [mbind result_bind]. rewrite north_stops. reflexivity.
Qed.

(** The call: the loop stops in its second round, and the concentrator
    normal of the orientation returned is the desired normal (0,1,0). *)
Lemma north_align :
  align (UT := SpecUtils) scenario north_ray 2 s1e_4
  = Run (Ok [turned]) north_ray [north_round_1; north_round_2].
Proof.
  unfold align. cbn [actuator_list scenario].
  change (Z.to_nat 2) with 2%nat. cbn [align_loop].
  fold (initial_state north_ray). rewrite north_first_round.
  rewrite north_second_round.
  cbn [orientation st_incident_ray_direction].
  by rewrite apply_offsets_turned.
Qed.
End NorthFacts.

(** ** Constructing again, and the statements above at given inputs *)

Module InitMore.
Import Init InitFacts.

(** Constructing a second kinematic from the same two objects on the same
    device changes nothing any more: the first construction has moved
    every tensor already. *)
Theorem init_again (h : gmap loc (gmap string value)) (lo ld : loc)
    (o_off o_dev : gmap string value) (device : string) :
  h !! lo = Some o_off → h !! ld = Some o_dev →
  ∃ h1, init h (Some lo) (Some ld) device = Some (h1, Instance ld lo)
        ∧ init h1 (Some lo) (Some ld) device = Some (h1, Instance ld lo).
Proof.
  intros Ho Hd.
  destruct (init_spec h lo ld o_off o_dev device Ho Hd) as (h1 & E1 & Hd1 & Ho1 & _).
  destruct (init_spec h1 lo ld _ _ device Ho1 Hd1) as (h2 & E2 & Hd2 & Ho2 & Hf).
  exists h1. split; [done|]. rewrite E2. do 2 f_equal.
  apply map_eq. intros l. rewrite moved_idemp in Hd2, Ho2.
  destruct (decide (l = lo)) as [->|?]; [congruence|].
  destruct (decide (l = ld)) as [->|?]; [congruence|]. by apply Hf.
Qed.

Lemma init_again_at_caller_heap :
  (caller_heap !! 3%positive = Some caller_offsets
   ∧ caller_heap !! 4%positive = Some default_deviations_object)
  ∧ ∃ h1, init caller_heap (Some 3%positive) (Some 4%positive) "cuda"
          = Some (h1, Instance 4%positive 3%positive)
          ∧ init h1 (Some 3%positive) (Some 4%positive) "cuda"
            = Some (h1, Instance 4%positive 3%positive).
Proof.
  split; [split; reflexivity|].
  exact (init_again caller_heap 3%positive 4%positive caller_offsets
           default_deviations_object "cuda" eq_refl eq_refl).
Defined.
End InitMore.

Module AtInputs.
Import XR XRFacts North NorthFacts Homogeneous.
Local Open Scope R_scope.

Lemma align_outcome_at_north :
  length (actuator_list scenario) = 2%nat
  ∧ ∃ o, returned (align (UT := SpecUtils) scenario twin_rays 2 s1e_4) = Ok o
         ∧ length o = 2%nat.
Proof.
  split; [reflexivity|].
  exact (proj2 (align_outcome (UT := SpecUtils) scenario twin_rays 2 s1e_4 eq_refl)
           ltac:(lia)).
Defined.

Lemma align_single_round_at_north :
  actuator_list scenario = [identity_actuator; identity_actuator]
  ∧ returned (align (UT := SpecUtils) scenario north_ray 1 s1e_4)
    = apply_offsets (UT := SpecUtils) scenario
        [forward_chain (UT := SpecUtils) scenario szero szero]
  ∧ ray_after (align (UT := SpecUtils) scenario north_ray 1 s1e_4)
    = div_norm north_ray.
Proof.
  split; [reflexivity|].
  exact (align_single_round (UT := SpecUtils) scenario identity_actuator
           identity_actuator north_ray s1e_4 eq_refl).
Defined.

Lemma north_rounds :
  rounds (align (UT := SpecUtils) scenario north_ray 2 s1e_4) !! 0%nat
  = Some north_round_1
  ∧ rounds (align (UT := SpecUtils) scenario north_ray 2 s1e_4) !! 1%nat
    = Some north_round_2.
Proof. rewrite north_align. split; reflexivity. Qed.

Lemma align_rounds_chain_at_north :
  (actuator_list scenario = [identity_actuator; identity_actuator]
   ∧ rounds (align (UT := SpecUtils) scenario north_ray 2 s1e_4) !! 0%nat
     = Some north_round_1
   ∧ rounds (align (UT := SpecUtils) scenario north_ray 2 s1e_4) !! 1%nat
     = Some north_round_2)
  ∧ ∃ solved,
      log_solved north_round_1 = Some solved
      ∧ log_joint_1_angles north_round_2
        = map (λ j, forward identity_actuator
                      (angles_to_motor_steps identity_actuator j.1)) solved
      ∧ log_joint_2_angles north_round_2
        = map (λ j, forward identity_actuator
                      (angles_to_motor_steps identity_actuator j.2)) solved
      ∧ log_ray_before north_round_2 = div_norm (log_ray_before north_round_1).
Proof.
  split; [split; [reflexivity|exact north_rounds]|].
  exact (align_rounds_chain (UT := SpecUtils) scenario identity_actuator
           identity_actuator north_ray 2 s1e_4 0 north_round_1 north_round_2
           eq_refl (proj1 north_rounds) (proj2 north_rounds)).
Defined.

Lemma twin_rays_uniform : uniform twin_rays.
Proof.
  intros x y Hx Hy. unfold twin_rays in *.
  apply elem_of_cons in Hx as [->|Hx%list_elem_of_singleton];
    apply elem_of_cons in Hy as [->|Hy%list_elem_of_singleton]; congruence.
Qed.

Lemma align_batch_consistent_at_twins :
  uniform twin_rays
  ∧ ∃ o, returned (align (UT := SpecUtils) scenario twin_rays 2 s1e_4) = Ok o
         ∧ uniform o.
Proof.
  split; [exact twin_rays_uniform|].
  destruct (align_returns (UT := SpecUtils) scenario twin_rays 2 s1e_4 eq_refl)
    as (o & Ho & _); [lia|].
  exists o. split; [exact Ho|].
  exact (align_batch_consistent (UT := SpecUtils) scenario twin_rays 2 s1e_4 o
           twin_rays_uniform Ho).
Defined.

Lemma align_surface_single_ray_at_north :
  length (actuator_list scenario) = 2%nat
  ∧ ∃ o, returned (align (UT := SpecUtils) scenario [vreal (V4 0 1 0 0)] 2 s1e_4)
         = Ok [o]
         ∧ align_surface (UT := SpecUtils) scenario [vreal (V4 0 1 0 0)]
             two_points two_points
           = (Ok (map (mat_vec o) two_points, map (mat_vec o) two_points),
              div_norm (div_norm [vreal (V4 0 1 0 0)])).
Proof.
  split; [reflexivity|].
  exact (align_surface_single_ray (UT := SpecUtils) scenario (vreal (V4 0 1 0 0))
           two_points two_points eq_refl).
Defined.

Lemma spec_translate_homogeneous (e n u : xreal) :
  homogeneous (spec_translate_enu e n u).
Proof. repeat split; by right. Qed.

Lemma spec_rotate_e_homogeneous (e : xreal) : homogeneous (spec_rotate_e e).
Proof. repeat split; by right. Qed.

Lemma spec_rotate_n_homogeneous (n : xreal) : homogeneous (spec_rotate_n n).
Proof. repeat split; by right. Qed.

Lemma spec_rotate_u_homogeneous (u : xreal) : homogeneous (spec_rotate_u u).
Proof. repeat split; by right. Qed.

Lemma fourth_entry_stops_loop_at_north :
  let r := align (UT := SpecUtils) scenario north_ray 2 (Some (1 / 10000)) in
  (vW (aim_point scenario) = Some 1
   ∧ Forall (λ v, vW v = Some 0) north_ray
   ∧ 0 <= 1 / 10000)
  ∧ Forall (λ lg,
      fourth_zero (log_loss lg)
      ∧ ∀ eps, log_eps lg = Some eps → (∃ v, v ∈ eps ∧ is_Some (vW v)) →
          log_break lg = true) (rounds r)
  ∧ ∀ lg eps, rounds r !! 1%nat = Some lg → log_eps lg = Some eps →
      (∃ v, v ∈ eps ∧ is_Some (vW v)) → length (rounds r) = 2%nat.
Proof.
  assert (H1 : vW (aim_point scenario) = Some 1) by reflexivity.
  assert (H2 : Forall (λ v : vec4 xreal, vW v = Some 0) north_ray)
    by (by repeat constructor).
  assert (H3 : 0 <= 1 / 10000) by lra.
  split; [done|].
  exact (fourth_entry_stops_loop (UT := SpecUtils) spec_translate_homogeneous
           spec_rotate_e_homogeneous spec_rotate_n_homogeneous
           spec_rotate_u_homogeneous scenario north_ray 2 (1 / 10000) H1 H2 H3).
Defined.
End AtInputs.

(** ** The rounds of a call that returns *)

Section RoundsOfCall.
Context {T : Type} `{SC : Scalar T} `{UT : Utils T}.
Local Open Scope scalar_scope.

Lemma inverse_solve_analytical (self : RigidBody T) (m : vec4 T) :
  inverse_solve (second_joint_translation_e (deviation_parameters self))
    (second_joint_translation_n (deviation_parameters self)) m
  = analytical_solution self m.
Proof. reflexivity. Qed.

Lemma sized_next (self : RigidBody T) (a1 a2 : Actuator T) (min_eps : T)
    (ray : list (vec4 T)) (st : loop_state T) (lg : round_log T) :
  sized ray st → round_facts self a1 a2 min_eps st lg → log_break lg = false →
  sized ray (next_state self a1 a2 st lg).
Proof.
  intros [Hs Hl] F _.
  destruct (round_facts_shaped self a1 a2 min_eps st lg Hs F) as [_ Hs'].
  split; [done|]. simpl. by rewrite length_div_norm.
Qed.

Lemma sized_initial (ray : list (vec4 T)) : sized ray (initial_state ray).
Proof. split; [apply initial_state_shaped|done]. Qed.

(** With two actuators and a round allowed, a first round runs: on the
    angles of the actuators at zero motor steps and on the incident ray as
    passed in, without a convergence test, and it solves joint angles for
    as many rows as the ray has. *)
Lemma align_first (self : RigidBody T) (a1 a2 : Actuator T)
    (ray : list (vec4 T)) (n : Z) (min_eps : T) :
  actuator_list self = [a1; a2] → (1 <= n)%Z →
  ∃ lg, rounds (align self ray n min_eps) !! 0 = Some lg
        ∧ round_facts self a1 a2 min_eps (initial_state ray) lg
        ∧ log_break lg = false
        ∧ length (log_desired_concentrator_normal lg) = length ray.
Proof.
  intros Ha Hn.
  pose proof (align_at_least_two self a1 a2 ray n min_eps Ha) as Hmin.
  destruct (align_two self a1 a2 ray n min_eps Ha) as (Hr & _).
  destruct (rounds (align self ray n min_eps)) as [|lg lgs]; [simpl in Hmin; lia|].
  destruct Hr as [F _]. exists lg. split; [done|]. split; [done|].
  pose proof (rf_convergence _ _ _ _ _ _ F) as Hc. simpl in Hc.
  split; [congruence|].
  by destruct (round_facts_lengths self a1 a2 min_eps _ lg
                 (initial_state_shaped ray) F) as (_ & ? & _).
Qed.

(** Two rounds that follow each other: the earlier one solved joint
    angles for as many rows as the ray has, and the later one started from
    the motor steps of these. *)
Lemma align_consecutive (self : RigidBody T) (a1 a2 : Actuator T)
    (ray : list (vec4 T)) (n : Z) (min_eps : T) (i : nat) (lg lg' : round_log T) :
  actuator_list self = [a1; a2] →
  rounds (align self ray n min_eps) !! i = Some lg →
  rounds (align self ray n min_eps) !! S i = Some lg' →
  log_break lg = false
  ∧ log_solved lg
    = Some (map (analytical_solution self) (log_desired_concentrator_normal lg))
  ∧ length (log_desired_concentrator_normal lg) = length ray
  ∧ log_joint_1_angles lg'
    = map (λ m, forward a1 (angles_to_motor_steps a1 (analytical_solution self m).1))
        (log_desired_concentrator_normal lg)
  ∧ log_joint_2_angles lg'
    = map (λ m, forward a2 (angles_to_motor_steps a2 (analytical_solution self m).2))
        (log_desired_concentrator_normal lg).
Proof.
  intros Ha Hi Hi'.
  destruct (align_two self a1 a2 ray n min_eps Ha) as (Hr & _).
  destruct (rounds_from_pair self a1 a2 min_eps (sized ray)
              (sized_next self a1 a2 min_eps ray) _ _ i lg lg'
              (sized_initial ray) Hr Hi Hi') as (st0 & [Hs Hl] & F & Hb & F').
  split; [done|]. rewrite (rf_solved _ _ _ _ _ _ F), Hb. split; [done|].
  destruct (round_facts_lengths self a1 a2 min_eps st0 lg Hs F) as (_ & Hd & _).
  split; [congruence|].
  rewrite (rf_joint_1 _ _ _ _ _ _ F'), (rf_joint_2 _ _ _ _ _ _ F'). simpl.
  by rewrite !map_map.
Qed.

(** Every round of a call runs on a desired normal of as many rows as the
    incident ray has. *)
Lemma align_desired_rows (self : RigidBody T) (a1 a2 : Actuator T)
    (ray : list (vec4 T)) (n : Z) (min_eps : T) :
  actuator_list self = [a1; a2] →
  Forall (λ lg, length (log_desired_concentrator_normal lg) = length ray)
    (rounds (align self ray n min_eps)).
Proof.
  intros Ha. destruct (align_two self a1 a2 ray n min_eps Ha) as (Hr & _).
  apply Forall_forall. intros lg [i Hi]%list_elem_of_lookup.
  destruct (rounds_from_nth self a1 a2 min_eps (sized ray)
              (sized_next self a1 a2 min_eps ray) _ _ i lg
              (sized_initial ray) Hr Hi) as (st0 & [Hs Hl] & F & _).
  destruct (round_facts_lengths self a1 a2 min_eps st0 lg Hs F) as (_ & Hd & _).
  congruence.
Qed.

(** With two actuators and a round allowed there is a last round, and the
    call returns its orientation with the offsets applied. *)
Lemma align_last (self : RigidBody T) (ray : list (vec4 T)) (n : Z) (min_eps : T) :
  length (actuator_list self) = 2 → (1 <= n)%Z →
  ∃ lg, last (rounds (align self ray n min_eps)) = Some lg
        ∧ returned (align self ray n min_eps)
          = apply_offsets self (log_orientation lg).
Proof.
  intros E Hn. destruct (two_actuators self E) as (a1 & a2 & Ha).
  pose proof (align_at_least_two self a1 a2 ray n min_eps Ha) as Hmin.
  destruct (align_two self a1 a2 ray n min_eps Ha) as (_ & _ & _ & _ & Hret).
  destruct (last (rounds (align self ray n min_eps))) as [lg|] eqn:Hl; [eauto|].
  apply last_None in Hl. rewrite Hl in Hmin. simpl in Hmin. lia.
Qed.

(** C1: a call of [align] with two actuators and at least one round
    allowed runs a first round on the joint angles that the actuators give
    for zero motor steps, and every later round on the joint angles that
    the actuators give for the motor steps of the angles solved in the
    round before, one pair for each row of the incident ray.  In every
    round the orientation of each pair of joint angles is the forward
    chain (identity, translation by the position, joint-1 stage, joint-2
    stage, concentrator translation, in that order), the concentrator
    normal is the orientation applied to (0,-1,0,0) and the concentrator
    origin the orientation applied to (0,0,0,1); origin and normal are
    what the desired reflect vector and the loss of the round are computed
    from.  The orientation of the last round is what the call returns,
    with the offsets applied. *)
Theorem C1_forward_chain (self : RigidBody T) (a1 a2 : Actuator T)
    (incident_ray_direction : list (vec4 T)) (max_num_iterations : Z) (min_eps : T) :
  actuator_list self = [a1; a2] → (1 <= max_num_iterations)%Z →
  let r := align self incident_ray_direction max_num_iterations min_eps in
  (∃ lg, rounds r !! 0 = Some lg
         ∧ log_joint_1_angles lg = [forward a1 szero]
         ∧ log_joint_2_angles lg = [forward a2 szero])
  ∧ (∀ i lg lg', rounds r !! i = Some lg → rounds r !! S i = Some lg' →
       ∃ solved,
         log_solved lg = Some solved
         ∧ length solved = length incident_ray_direction
         ∧ log_joint_1_angles lg'
           = map (λ j, forward a1 (angles_to_motor_steps a1 j.1)) solved
         ∧ log_joint_2_angles lg'
           = map (λ j, forward a2 (angles_to_motor_steps a2 j.2)) solved)
  ∧ Forall (λ lg,
      length (log_joint_1_angles lg) = length (log_joint_2_angles lg)
      ∧ log_orientation lg
        = zip_with (forward_chain self) (log_joint_1_angles lg) (log_joint_2_angles lg)
      ∧ log_concentrator_normals lg
        = map (λ o, mat_vec o (V4 szero (- sone) szero szero)) (log_orientation lg)
      ∧ log_concentrator_origins lg
        = map (λ o, mat_vec o (V4 szero szero szero sone)) (log_orientation lg)
      ∧ log_desired_reflect_vec lg
        = div_norm (map (vsub (aim_point self)) (log_concentrator_origins lg))
      ∧ bcast2 (λ d n, vabs (vsub d n))
          (log_desired_concentrator_normal lg) (log_concentrator_normals lg)
        = Ok (log_loss lg))
      (rounds r)
  ∧ (∃ lg, last (rounds r) = Some lg
           ∧ returned r = apply_offsets self (log_orientation lg)).
Proof.
  intros Ha Hn. cbv zeta. split; [|split; [|split]].
  - destruct (align_first self a1 a2 incident_ray_direction max_num_iterations
                min_eps Ha Hn) as (lg & Hi & F & _).
    exists lg. split; [done|].
    by rewrite (rf_joint_1 _ _ _ _ _ _ F), (rf_joint_2 _ _ _ _ _ _ F).
  - intros i lg lg' Hi Hi'.
    destruct (align_consecutive self a1 a2 incident_ray_direction
                max_num_iterations min_eps i lg lg' Ha Hi Hi')
      as (_ & Hs & Hl & H1 & H2).
    exists (map (analytical_solution self) (log_desired_concentrator_normal lg)).
    split; [done|]. rewrite length_map, !map_map. by repeat split.
  - eapply Forall_impl; [apply align_round_facts|].
    intros lg (b1 & b2 & st & F). simpl. repeat split; try apply F.
    rewrite (rf_joint_1 _ _ _ _ _ _ F), (rf_joint_2 _ _ _ _ _ _ F).
    by rewrite !length_map.
  - apply align_last; [by rewrite Ha|done].
Qed.

(** C2: a call of [align] with two actuators and at least one round
    allowed solves in its first round, which never stops the loop, and in
    every later round that does not stop the loop, for each row m of the
    desired normal (as many rows as the incident ray has), the second
    angle -arcsin(-m_E / cos(second_joint_translation_n)) and the first
    angle atan2(a*(-m_U) - b*(-m_N), a*(-m_N) + b*(-m_U)) - pi with the
    stated a and b; the joint angles of the next round are the ones the
    actuators give for the motor steps of these.  The round that stops the
    loop solves nothing: it is the last round, and its orientation is
    returned. *)
Theorem C2_analytic_inverse_solve (self : RigidBody T) (a1 a2 : Actuator T)
    (incident_ray_direction : list (vec4 T)) (max_num_iterations : Z) (min_eps : T) :
  actuator_list self = [a1; a2] → (1 <= max_num_iterations)%Z →
  let solve :=
    inverse_solve (second_joint_translation_e (deviation_parameters self))
      (second_joint_translation_n (deviation_parameters self)) in
  let r := align self incident_ray_direction max_num_iterations min_eps in
  (∃ lg, rounds r !! 0 = Some lg
         ∧ log_ray_before lg = incident_ray_direction
         ∧ length (log_desired_concentrator_normal lg) = length incident_ray_direction
         ∧ log_solved lg = Some (map solve (log_desired_concentrator_normal lg)))
  ∧ Forall (λ lg,
      length (log_desired_concentrator_normal lg) = length incident_ray_direction
      ∧ log_solved lg
        = if log_break lg then None
          else Some (map solve (log_desired_concentrator_normal lg)))
      (rounds r)
  ∧ (∀ i lg lg', rounds r !! i = Some lg → rounds r !! S i = Some lg' →
       log_solved lg = Some (map solve (log_desired_concentrator_normal lg))
       ∧ length (log_desired_concentrator_normal lg) = length incident_ray_direction
       ∧ log_joint_1_angles lg'
         = map (λ m, forward a1 (angles_to_motor_steps a1 (solve m).1))
             (log_desired_concentrator_normal lg)
       ∧ log_joint_2_angles lg'
         = map (λ m, forward a2 (angles_to_motor_steps a2 (solve m).2))
             (log_desired_concentrator_normal lg))
  ∧ (∀ i lg, rounds r !! i = Some lg → log_break lg = true →
       log_solved lg = None
       ∧ length (rounds r) = S i
       ∧ returned r = apply_offsets self (log_orientation lg)).
Proof.
  intros Ha Hn. cbv zeta.
  assert (Hall : Forall (λ lg,
    log_solved lg
    = if log_break lg then None
      else Some (map (analytical_solution self) (log_desired_concentrator_normal lg)))
    (rounds (align self incident_ray_direction max_num_iterations min_eps))).
  { eapply Forall_impl; [apply align_round_facts|].
    intros lg (b1 & b2 & st & F). apply (rf_solved _ _ _ _ _ _ F). }
  split; [|split; [|split]].
  - destruct (align_first self a1 a2 incident_ray_direction max_num_iterations
                min_eps Ha Hn) as (lg & Hi & F & Hb & Hl).
    exists lg. split; [done|]. split; [apply (rf_ray _ _ _ _ _ _ F)|].
    split; [done|]. by rewrite (rf_solved _ _ _ _ _ _ F), Hb.
  - apply Forall_and. split; [|exact Hall].
    by apply (align_desired_rows self a1 a2).
  - intros i lg lg' Hi Hi'.
    destruct (align_consecutive self a1 a2 incident_ray_direction
                max_num_iterations min_eps i lg lg' Ha Hi Hi')
      as (_ & Hs & Hl & H1 & H2).
    by repeat split.
  - intros i lg Hi Hb.
    destruct (align_two self a1 a2 incident_ray_direction max_num_iterations
                min_eps Ha) as (Hr & _ & _ & _ & Hret).
    pose proof (rounds_from_break_last self a1 a2 min_eps _ _ i lg Hr Hi Hb) as Hlen.
    split; [|split; [done|]].
    + rewrite Forall_forall in Hall.
      rewrite (Hall lg) by (by eapply list_elem_of_lookup_2). by rewrite Hb.
    + rewrite Hret, last_lookup, Hlen. simpl. by rewrite Hi.
Qed.
End RoundsOfCall.

(** ** Zero offsets, for a call that returns *)

Section ZeroOffsets.
Context {T : Type} `{SC : Scalar T} `{UT : Utils T} `{EX : !ExactScalar T}.

End ZeroOffsets.

(** ** The scenario with a tilted first joint, round by round *)

Module TiltedFacts.
Import XR XRFacts Tilted.
Local Open Scope R_scope.

Ltac abs_entries :=
  cbn [zip_with]; xr_unfold; entries;
  unfold Rabs; destruct (Rcase_abs _); lra.

Lemma sqrt2_sqrt2 : sqrt 2 * sqrt 2 = 2.
Proof. apply sqrt_sqrt. lra. Qed.

Lemma sqrt2_pos : 0 < sqrt 2.
Proof. apply sqrt_lt_R0. lra. Qed.

Lemma inv_sqrt2 : 1 / sqrt 2 = sqrt 2 / 2.
Proof.
  pose proof sqrt2_sqrt2. pose proof sqrt2_pos.
  apply (Rmult_eq_reg_r (sqrt 2)); [|lra].
  unfold Rdiv. rewrite Rmult_assoc, Rinv_l by lra. lra.
Qed.

Lemma cos_first_angle : cos (PI / 4 - PI) = - (sqrt 2 / 2).
Proof. rewrite cos_minus, cos_PI, sin_PI, cos_PI4, inv_sqrt2. lra. Qed.

Lemma sin_first_angle : sin (PI / 4 - PI) = - (sqrt 2 / 2).
Proof. rewrite sin_minus, cos_PI, sin_PI, sin_PI4, inv_sqrt2. lra. Qed.

Lemma cos_second_angle : cos (asin (1 / 3)) = 2 * sqrt 2 / 3.
Proof.
  rewrite cos_asin by lra. apply sqrt_lem_1.
  - unfold Rsqr. lra.
  - pose proof sqrt2_pos. lra.
  - pose proof sqrt2_sqrt2. unfold Rsqr. nra.
Qed.

Lemma sin_second_angle : sin (asin (1 / 3)) = 1 / 3.
Proof. apply sin_asin. lra. Qed.

Lemma oblique_div_norm : div_norm oblique_ray = oblique_unit_ray.
Proof.
  change oblique_ray with (map vreal [V4 4 (-1) 8 0]).
  rewrite (xr_div_norm_eval _ 9) by (try lra; real_sumsq).
  unfold oblique_unit_ray. xr_unfold. cbn [map]. entries; lra.
Qed.

Lemma oblique_unit_div_norm : div_norm oblique_unit_ray = oblique_unit_ray.
Proof.
  change oblique_unit_ray with (map vreal [V4 (4/9) (-1/9) (8/9) 0]).
  rewrite (xr_div_norm_eval _ 1) by (try lra; real_sumsq).
  xr_unfold. cbn [map]. entries; lra.
Qed.

Lemma tilted_reflect :
  div_norm [vsub (aim_point tilted_scenario) (vreal (V4 0 0 0 1))]
  = [vreal (V4 0 1 0 0)].
Proof. exact scenario_reflect. Qed.

Lemma oblique_desired :
  div_norm (zip_with vadd oblique_unit_ray [vreal (V4 0 1 0 0)])
  = [vreal (V4 (1/3) (2/3) (2/3) 0)].
Proof.
  change (zip_with _ _ _) with
    (map vreal [V4 (4/9 + 0) (-1/9 + 1) (8/9 + 0) (0 + 0)]).
  rewrite (xr_div_norm_eval _ (4/3)) by (try lra; real_sumsq).
  xr_unfold. cbn [map]. entries; lra.
Qed.

Lemma chain_quarter_turn :
  forward_chain (UT := SpecUtils) tilted_scenario szero szero = quarter_turn.
Proof.
  unfold forward_chain, joint_1_stage, joint_2_stage. simpl.
  rewrite rotate_e_0, rotate_n_0, rotate_u_0, translate_enu_0, !mat_mul_eye_eye.
  xr_unfold. rewrite cos_PI2, sin_PI2. unfold quarter_turn.
  xr_unfold. entries; lra.
Qed.

Lemma chain_second_orientation :
  forward_chain (UT := SpecUtils) tilted_scenario
    (Some (PI / 4 - PI)) (Some (asin (1 / 3)))
  = second_orientation.
Proof.
  unfold forward_chain, joint_1_stage, joint_2_stage. simpl.
  rewrite rotate_e_0, rotate_n_0, translate_enu_0, !mat_mul_eye_eye.
  xr_unfold.
  rewrite cos_PI2, sin_PI2, cos_first_angle, sin_first_angle,
    cos_second_angle, sin_second_angle.
  unfold second_orientation. xr_unfold.
  pose proof sqrt2_sqrt2. entries; nra.
Qed.

Lemma normal_of_quarter_turn :
  mat_vec quarter_turn (V4 szero (sneg sone) szero szero) = vreal (V4 1 0 0 0).
Proof. unfold quarter_turn. xr_solve. Qed.

Lemma origin_of_quarter_turn :
  mat_vec quarter_turn (V4 szero szero szero sone) = vreal (V4 0 0 0 1).
Proof. unfold quarter_turn. xr_solve. Qed.

Lemma normal_of_second_orientation :
  mat_vec second_orientation (V4 szero (sneg sone) szero szero)
  = vreal (V4 (-2/3) (1/3) (2/3) 0).
Proof. unfold second_orientation. xr_solve. Qed.

Lemma origin_of_second_orientation :
  mat_vec second_orientation (V4 szero szero szero sone) = vreal (V4 0 0 0 1).
Proof. unfold second_orientation. xr_solve. Qed.

Lemma tilted_loss_1 :
  zip_with (λ d n, vabs (vsub d n))
    [vreal (V4 (1/3) (2/3) (2/3) 0)] [vreal (V4 1 0 0 0)]
  = [vreal (V4 (2/3) (2/3) (2/3) 0)].
Proof. abs_entries. Qed.

Lemma tilted_loss_2 :
  zip_with (λ d n, vabs (vsub d n))
    [vreal (V4 (1/3) (2/3) (2/3) 0)] [vreal (V4 (-2/3) (1/3) (2/3) 0)]
  = [vreal (V4 1 (1/3) 0 0)].
Proof. abs_entries. Qed.

Lemma tilted_eps :
  zip_with (λ l x, vabs (vsub l x))
    [vreal (V4 (2/3) (2/3) (2/3) 0)] [vreal (V4 1 (1/3) 0 0)]
  = [vreal (V4 (1/3) (1/3) (2/3) 0)].
Proof. abs_entries. Qed.

Lemma tilted_stops :
  any_le [vreal (V4 (1/3) (1/3) (2/3) 0)] (s1e_4 (T := xreal)) = true.
Proof.
  unfold any_le, vany. cbn [existsb vreal vE vN vU vW]. xr_unfold.
  destruct (Rle_dec 0 (1 / 10000)) as [_|H]; [|exfalso; apply H; lra].
  by rewrite !orb_true_r.
Qed.

Lemma tilted_joint_2 :
  sneg (sasin (sdiv (sneg (Some (1 / 3))) (scos (Some 0)))) = Some (asin (1 / 3))
  :> xreal.
Proof.
  cbn [sneg sasin sdiv scos xreal_scalar lift1 xdiv].
  rewrite cos_0. destruct (Req_dec_T 1 0) as [H|_]; [lra|].
  replace (- (1 / 3) / 1) with (- (1 / 3)) by lra. cbn [xasin].
  destruct (Rle_dec (Rabs (- (1 / 3))) 1) as [_|H].
  - cbn [lift1]. f_equal. rewrite asin_opp. lra.
  - exfalso. apply H. rewrite Rabs_Ropp, Rabs_right; lra.
Qed.

Lemma atan2_diagonal (x : R) : 0 < x → atan2 x x = PI / 4.
Proof.
  intros Hx. unfold atan2. destruct (Rlt_dec 0 x) as [_|H]; [|lra].
  replace (x / x) with 1 by (field; lra). apply atan_1.
Qed.

Lemma tilted_solution :
  analytical_solution tilted_scenario (vreal (V4 (1/3) (2/3) (2/3) 0))
  = (Some (PI / 4 - PI), Some (asin (1 / 3))).
Proof.
  unfold analytical_solution.
  cbn [deviation_parameters tilted_scenario tilted_deviations
       second_joint_translation_e second_joint_translation_n vE vN vU vreal].
  rewrite tilted_joint_2. xr_unfold.
  rewrite cos_0, sin_0, cos_second_angle, sin_second_angle.
  f_equal. f_equal.
  match goal with
  | |- atan2 ?y ?x - PI = _ =>
      replace y with (4 * sqrt 2 / 9) by lra;
      replace x with (4 * sqrt 2 / 9) by lra
  end.
  rewrite atan2_diagonal; [done|]. pose proof sqrt2_pos. lra.
Qed.

Lemma apply_offsets_second_orientation :
  apply_offsets (UT := SpecUtils) tilted_scenario [second_orientation]
  = Ok [second_orientation].
Proof.
  rewrite apply_offsets_map. simpl.
  rewrite rotate_e_0, rotate_n_0, rotate_u_0. do 2 f_equal.
  unfold second_orientation. xr_solve.
Qed.

Lemma tilted_first_round (min_eps : xreal) :
  align_round (UT := SpecUtils) tilted_scenario identity_actuator identity_actuator
    min_eps (initial_state oblique_ray)
  = Next (LoopState [(Some (PI / 4 - PI), Some (asin (1 / 3)))] (Some [quarter_turn])
            (Some [vreal (V4 (2/3) (2/3) (2/3) 0)]) oblique_unit_ray) tilted_round_1.
Proof.
  unfold align_round. rewrite round_orientation_ok by done.
  cbn [initial_state actuator_steps st_incident_ray_direction last_iteration_loss
       map fst snd forward identity_actuator zip_with].
  rewrite chain_quarter_turn. cbn [map].
  rewrite normal_of_quarter_turn, origin_of_quarter_turn.
  rewrite tilted_reflect, oblique_div_norm.
  rewrite (bcast2_same vadd) by done. cbn [mbind result_bind].
  rewrite oblique_desired.
  rewrite (bcast2_same (λ d n, vabs (vsub d n))) by done.
  rewrite tilted_loss_1.
  cbn [mbind result_bind convergence map].
  rewrite tilted_solution. reflexivity.
Qed.

Lemma tilted_second_round :
  align_round (UT := SpecUtils) tilted_scenario identity_actuator identity_actuator
    s1e_4
    (LoopState [(Some (PI / 4 - PI), Some (asin (1 / 3)))] (Some [quarter_turn])
       (Some [vreal (V4 (2/3) (2/3) (2/3) 0)]) oblique_unit_ray)
  = Broke (LoopState [(Some (PI / 4 - PI), Some (asin (1 / 3)))]
             (Some [second_orientation])
             (Some [vreal (V4 (2/3) (2/3) (2/3) 0)]) oblique_unit_ray)
      tilted_round_2.
Proof.
  unfold align_round. rewrite round_orientation_ok by done.
  cbn [actuator_steps st_incident_ray_direction last_iteration_loss
       map fst snd forward identity_actuator zip_with].
  rewrite chain_second_orientation. cbn [map].
  rewrite normal_of_second_orientation, origin_of_second_orientation.
  rewrite tilted_reflect, oblique_unit_div_norm.
  rewrite (bcast2_same vadd) by done. cbn [mbind result_bind].
  rewrite oblique_desired.
  rewrite (bcast2_same (λ d n, vabs (vsub d n))) by done.
  rewrite tilted_loss_2.
  cbn [mbind result_bind convergence].
  rewrite (bcast2_same (λ l x, vabs (vsub l x))) by done.
  rewrite tilted_eps. cbn [mbind result_bind]. rewrite tilted_stops. reflexivity.
Qed.

(** The call with three rounds allowed: the loop stops in its second. *)
Lemma tilted_align :
  align (UT := SpecUtils) tilted_scenario oblique_ray 3 s1e_4
  = Run (Ok [second_orientation]) oblique_unit_ray [tilted_round_1; tilted_round_2].
Proof.
  unfold align. cbn [actuator_list tilted_scenario].
  change (Z.to_nat 3) with 3%nat. cbn [align_loop].
  fold (initial_state oblique_ray). rewrite tilted_first_round.
  rewrite tilted_second_round.
  cbn [orientation st_incident_ray_direction].
  by rewrite apply_offsets_second_orientation.
Qed.

(** C3: with the first joint tilted about U by pi/2, identity actuators,
    aim point (0,100,0), incident ray (4,-1,8) and three rounds allowed,
    [align] stops in its second round.  In that round the concentrator
    normal is (-2/3,1/3,2/3) while the desired normal is (1/3,2/3,2/3),
    and the loss has changed by 1/3, 1/3 and 2/3 in the three components
    of the normal, each more than [min_eps] = 0.0001: the test succeeds on
    the fourth column of the loss alone, which is 0 in both rounds. *)
Theorem C3_stops_on_fourth_column :
  let r := align (UT := SpecUtils) tilted_scenario oblique_ray 3 s1e_4 in
  ∃ lg1 lg2 : round_log xreal,
    rounds r = [lg1; lg2]
    ∧ log_eps lg1 = None ∧ log_break lg1 = false
    ∧ log_loss lg1 = [vreal (V4 (2/3) (2/3) (2/3) 0)]
    ∧ log_concentrator_normals lg2 = [vreal (V4 (-2/3) (1/3) (2/3) 0)]
    ∧ log_desired_concentrator_normal lg2 = [vreal (V4 (1/3) (2/3) (2/3) 0)]
    ∧ log_loss lg2 = [vreal (V4 1 (1/3) 0 0)]
    ∧ log_eps lg2 = Some [vreal (V4 (1/3) (1/3) (2/3) 0)]
    ∧ log_break lg2 = true
    ∧ sleb (Some (1/3)) (s1e_4 (T := xreal)) = false
    ∧ sleb (Some (2/3)) (s1e_4 (T := xreal)) = false
    ∧ sleb (Some 0) (s1e_4 (T := xreal)) = true
    ∧ returned r = Ok [second_orientation].
Proof.
  cbv zeta. rewrite tilted_align. exists tilted_round_1, tilted_round_2.
  repeat split; cbn [sleb xreal_scalar xleb s1e_4].
  - destruct (Rle_dec (1 / 3) (1 / 10000)) as [H|_]; [lra|done].
  - destruct (Rle_dec (2 / 3) (1 / 10000)) as [H|_]; [lra|done].
  - destruct (Rle_dec 0 (1 / 10000)) as [_|H]; [done|]. exfalso. apply H. lra.
Qed.
End TiltedFacts.

(** ** A call of [align] on the tensors of the caller *)

Section OnTensorsFacts.
Context {T : Type} `{SC : Scalar T} `{UT : Utils T}.
Implicit Types (h : tensors T) (o : RigidBodyObject T) (l : positive).

Lemma rows_at_Some h l t : rows_at h l = Some t → h !! l = Some (Rows t).
Proof. unfold rows_at. destruct (h !! l) as [[]|]; congruence. Qed.

Lemma rows_at_insert h l t : rows_at (<[l := Rows t]> h) l = Some t.
Proof. unfold rows_at. by rewrite lookup_insert_eq. Qed.

Lemma rows_at_insert_ne h l l' t :
  l ≠ l' → rows_at (<[l := Rows t]> h) l' = rows_at h l'.
Proof. intros. unfold rows_at. by rewrite lookup_insert_ne. Qed.

Lemma insert_rows_same h l t : rows_at h l = Some t → <[l := Rows t]> h = h.
Proof. intros H. apply insert_id. by apply rows_at_Some. Qed.

(** Writing rows to the tensor of the incident ray changes no tensor of a
    single entry. *)
Lemma entry_at_insert h l t0 t l' :
  rows_at h l = Some t0 → entry_at (<[l := Rows t]> h) l' = entry_at h l'.
Proof.
  intros H%rows_at_Some. unfold entry_at. destruct (decide (l = l')) as [<-|?].
  - by rewrite lookup_insert_eq, H.
  - by rewrite lookup_insert_ne.
Qed.

Lemma deviations_at_insert h l t0 t d :
  rows_at h l = Some t0 →
  deviations_at (<[l := Rows t]> h) d = deviations_at h d.
Proof.
  intros H. unfold deviations_at. by rewrite !(entry_at_insert h l t0 t _ H).
Qed.

Lemma offsets_at_insert h l t0 t f :
  rows_at h l = Some t0 →
  offsets_at (<[l := Rows t]> h) f = offsets_at h f.
Proof.
  intros H. unfold offsets_at. by rewrite !(entry_at_insert h l t0 t _ H).
Qed.

Lemma vec_at_insert h l t0 t l' v :
  rows_at h l = Some t0 → length t = length t0 → vec_at h l' = Some v →
  ∃ v', vec_at (<[l := Rows t]> h) l' = Some v' ∧ (l ≠ l' → v' = v).
Proof.
  intros H%rows_at_Some Hl Hv. unfold vec_at in *.
  destruct (decide (l = l')) as [<-|?].
  - rewrite lookup_insert_eq. rewrite H in Hv.
    destruct t0 as [|v0 [|??]]; try done. destruct t as [|v' [|??]]; try done.
    exists v'. split; [done|]. done.
  - rewrite lookup_insert_ne by done. eauto.
Qed.

(** After a write of as many rows to the tensor of the incident ray, the
    attributes of the kinematic are still there, and they are the same
    unless the incident ray is the position or the aim point itself. *)
Lemma self_at_insert h o l t0 t self :
  rows_at h l = Some t0 → length t = length t0 → self_at h o = Some self →
  ∃ self', self_at (<[l := Rows t]> h) o = Some self'
           ∧ (l ≠ position_at o → l ≠ aim_point_at o → self' = self).
Proof.
  intros H Hl. unfold self_at.
  rewrite (deviations_at_insert h l t0 t _ H), (offsets_at_insert h l t0 t _ H).
  destruct (vec_at h (position_at o)) as [p|] eqn:Ep; simpl; [|done].
  destruct (vec_at h (aim_point_at o)) as [a|] eqn:Ea; simpl; [|done].
  destruct (deviations_at h _) as [d|]; simpl; [|done].
  destruct (offsets_at h _) as [f|]; simpl; [|done].
  intros [= <-].
  destruct (vec_at_insert h l t0 t _ p H Hl Ep) as (p' & -> & Hp).
  destruct (vec_at_insert h l t0 t _ a H Hl Ea) as (a' & -> & Ha). simpl.
  eexists. split; [done|]. intros ??. by rewrite Hp, Ha.
Qed.

Lemma with_ray_same (st : loop_state T) : with_ray st (st_incident_ray_direction st) = st.
Proof. by destruct st. Qed.

Lemma length_iter_div_norm (k : nat) (t : list (vec4 T)) :
  length (Nat.iter k div_norm t) = length t.
Proof. induction k as [|k IH]; simpl; [done|]. by rewrite length_div_norm. Qed.

(** The loop on the caller's tensors raises nothing, runs a round when it
    may, and leaves every tensor as it was but the incident ray, which it
    has divided by its norm once per round. *)
Lemma align_loop_at_total o (a1 a2 : Actuator T) (min_eps : T) l (n : nat)
    (st : loop_state T) h :
  shaped st → rows_at h l = Some (st_incident_ray_direction st) →
  is_Some (self_at h o) →
  ∃ stf k,
    k ≤ n
    ∧ align_loop_at o a1 a2 min_eps l n st h
      = Some (inr stf,
              <[l := Rows (Nat.iter k div_norm (st_incident_ray_direction st))]> h)
    ∧ (1 ≤ n → 1 ≤ k)
    ∧ (1 ≤ n ∨ is_Some (orientation st) → is_Some (orientation stf)).
Proof.
  revert st h. induction n as [|n IH]; intros st h Hs Hr [self Hself].
  - exists st, 0. split; [done|]. simpl. rewrite insert_rows_same by done.
    split; [done|]. split; [lia|]. intros [?|?]; [lia|done].
  - simpl. rewrite Hself, Hr. simpl. rewrite with_ray_same.
    destruct (align_round_total self a1 a2 min_eps st Hs)
      as (st' & lg & [[Er Hs']|Er]); rewrite Er.
    + apply align_round_next in Er as (_ & _ & Hst).
      assert (Hray : st_incident_ray_direction st'
                     = div_norm (st_incident_ray_direction st)) by by rewrite Hst.
      assert (Hor : is_Some (orientation st')) by (rewrite Hst; simpl; eauto).
      destruct (self_at_insert h o l _ (st_incident_ray_direction st') self Hr)
        as (self' & Hself' & _); [by rewrite Hray, length_div_norm|done|].
      destruct (IH st' (<[l := Rows (st_incident_ray_direction st')]> h) Hs')
        as (stf & k & Hk & -> & _ & Ho); [apply rows_at_insert|eauto|].
      exists stf, (S k). split; [lia|]. split.
      * by rewrite insert_insert_eq, Hray, <- Nat.iter_succ_r.
      * split; [lia|]. intros _. apply Ho. by right.
    + apply align_round_broke in Er as (_ & _ & ->).
      exists (break_state st lg), 1. split; [lia|]. split; [done|].
      split; [done|]. intros _. simpl. eauto.
Qed.

(** The loop on the caller's tensors is the loop of [align_loop] when the
    incident ray is neither the position nor the aim point of the
    kinematic. *)
Lemma align_loop_at_align o (self : RigidBody T) (a1 a2 : Actuator T) (min_eps : T)
    l (n : nat) (st : loop_state T) h :
  self_at h o = Some self → l ≠ position_at o → l ≠ aim_point_at o →
  rows_at h l = Some (st_incident_ray_direction st) →
  align_loop_at o a1 a2 min_eps l n st h
  = Some match (align_loop self a1 a2 min_eps n st).1 with
         | inl (e, ray) => (inl e, <[l := Rows ray]> h)
         | inr stf => (inr stf, <[l := Rows (st_incident_ray_direction stf)]> h)
         end.
Proof.
  intros Hself Hp Ha. revert st h Hself.
  induction n as [|n IH]; intros st h Hself Hr; simpl.
  - by rewrite insert_rows_same.
  - rewrite Hself, Hr. simpl. rewrite with_ray_same.
    destruct (align_round self a1 a2 min_eps st) as [st' lg|st' lg|e ray] eqn:Er;
      [|done..].
    destruct (self_at_insert h o l _ (st_incident_ray_direction st') self Hr)
      as (self' & Hself' & Heq); [|done|].
    { apply align_round_next in Er as (_ & _ & ->). simpl.
      by rewrite length_div_norm. }
    rewrite (Heq Hp Ha) in Hself'.
    rewrite (IH st' _ Hself' (rows_at_insert _ _ _)).
    destruct (align_loop self a1 a2 min_eps n st') as [[[e ray]|stf] lgs]; simpl;
      by rewrite insert_insert_eq.
Qed.

(** A call on the caller's tensors is the call of [align], and leaves the
    incident ray of [ray_after] in the caller's tensor, when the incident
    ray is neither the position nor the aim point of the kinematic. *)
Lemma align_at_align h o (self : RigidBody T) l (ray : list (vec4 T))
    (n : Z) (min_eps : T) :
  self_at h o = Some self → l ≠ position_at o → l ≠ aim_point_at o →
  rows_at h l = Some ray →
  align_at h o l n min_eps
  = Some (returned (align self ray n min_eps),
          <[l := Rows (ray_after (align self ray n min_eps))]> h).
Proof.
  intros Hself Hp Ha Hr. unfold align_at, align.
  assert (Hact : actuator_list self = actuator_list_of o).
  { revert Hself. unfold self_at.
    destruct (vec_at h (position_at o)); simpl; [|done].
    destruct (vec_at h (aim_point_at o)); simpl; [|done].
    destruct (deviations_at h _); simpl; [|done].
    destruct (offsets_at h _); simpl; [|done]. by intros [= <-]. }
  rewrite Hact.
  destruct (actuator_list_of o) as [|a1 [|a2 [|a3 acts]]];
    try (by rewrite insert_rows_same).
  rewrite Hr. simpl.
  rewrite (align_loop_at_align o self a1 a2 min_eps l _
             (LoopState [(szero, szero)] None None ray) h Hself Hp Ha Hr). simpl.
  destruct (align_loop self a1 a2 min_eps (Z.to_nat n) _) as [[[e ray']|stf] lgs]
    eqn:El; simpl; [done|].
  destruct (orientation stf) as [ori|] eqn:Eo; simpl; [|done].
  destruct (self_at_insert h o l ray (st_incident_ray_direction stf) self Hr)
    as (self' & -> & Heq); [|done|].
  { destruct (align_loop_total self a1 a2 min_eps (Z.to_nat n)
                (LoopState [(szero, szero)] None None ray))
      as (stf' & lgs' & El' & _ & _ & Hray & _); [by left|].
    rewrite El in El'. injection El' as <- <-. rewrite Hray.
    apply length_iter_div_norm. }
  simpl. by rewrite (Heq Hp Ha).
Qed.

(** A call with two actuators and a round allowed returns, and leaves
    every tensor as it was but the incident ray, which holds the ray
    divided by its norm once per round that ran. *)
Lemma align_at_returns h o l (ray : list (vec4 T)) (n : Z) (min_eps : T) :
  is_Some (self_at h o) → rows_at h l = Some ray →
  length (actuator_list_of o) = 2 → (1 <= n)%Z →
  ∃ orientation k,
    1 ≤ k ≤ Z.to_nat n
    ∧ align_at h o l n min_eps
      = Some (Ok orientation, <[l := Rows (Nat.iter k div_norm ray)]> h).
Proof.
  intros Hself Hr Hact Hn. unfold align_at.
  destruct (actuator_list_of o) as [|a1 [|a2 [|a3 acts]]]; try done.
  rewrite Hr. simpl.
  destruct (align_loop_at_total o a1 a2 min_eps l (Z.to_nat n)
              (LoopState [(szero, szero)] None None ray) h)
    as (stf & k & Hk & -> & Hk1 & Ho); [by left|done|done|].
  simpl. destruct Ho as [ori Ho]; [left; lia|]. rewrite Ho.
  destruct Hself as [self Hself].
  destruct (self_at_insert h o l ray (Nat.iter k div_norm ray) self Hr)
    as (self' & -> & _); [apply length_iter_div_norm|done|].
  simpl. destruct (apply_offsets_ok self' ori) as (o' & -> & _).
  exists o', k. split; [|done]. split; [apply Hk1|]; lia.
Qed.

(** A call that raises before the first round leaves every tensor as it
    was. *)
Lemma align_at_raises h o l (ray : list (vec4 T)) (n : Z) (min_eps : T) :
  rows_at h l = Some ray →
  (length (actuator_list_of o) ≠ 2 →
   align_at h o l n min_eps = Some (Raise AssertionError, h))
  ∧ (length (actuator_list_of o) = 2 → (n <= 0)%Z →
     align_at h o l n min_eps = Some (Raise TypeError, h)).
Proof.
  intros Hr. unfold align_at. split.
  - intros Hact. by destruct (actuator_list_of o) as [|a1 [|a2 [|a3 acts]]].
  - intros Hact Hn. destruct (actuator_list_of o) as [|a1 [|a2 [|a3 acts]]]; try done.
    rewrite Hr. simpl. by replace (Z.to_nat n) with 0 by lia.
Qed.

(** [align_surface] with two actuators: whatever becomes of the surface
    tensors, the incident ray has been divided by its norm. *)
Lemma align_surface_at_ray h o l points_at normals_at (ray : list (vec4 T)) :
  is_Some (self_at h o) → rows_at h l = Some ray →
  is_Some (rows_at h points_at) → is_Some (rows_at h normals_at) →
  length (actuator_list_of o) = 2 →
  ∃ res k,
    1 ≤ k ≤ 2
    ∧ align_surface_at h o l points_at normals_at
      = Some (res, <[l := Rows (Nat.iter k div_norm ray)]> h).
Proof.
  intros Hself Hr Hp Hn Hact. unfold align_surface_at.
  destruct (align_at_returns h o l ray 2 s1e_4 Hself Hr Hact)
    as (ori & k & Hk & ->); [lia|].
  simpl.
  assert (Hrows : ∀ l', is_Some (rows_at h l') →
            is_Some (rows_at (<[l := Rows (Nat.iter k div_norm ray)]> h) l')).
  { intros l' Hl'. destruct (decide (l = l')) as [<-|?].
    - rewrite rows_at_insert. eauto.
    - by rewrite rows_at_insert_ne. }
  destruct (Hrows _ Hp) as [pts ->]. destruct (Hrows _ Hn) as [nrm ->]. simpl.
  eexists _, k. split; [|done]. change (Z.to_nat 2) with 2 in Hk. lia.
Qed.
End OnTensorsFacts.

Module OnTensorsXR.
Import XR XRFacts Caller.
Local Open Scope R_scope.

(** C6: on the tensors of the caller, a call of [align] with two
    actuators and at least one round allowed returns, and afterwards the
    tensor that was passed as incident ray holds the ray divided by its
    norm once for every round that ran, at least one; for a finite ray
    that is not zero this is the ray divided by its norm, of norm one.
    Every other tensor of the caller is as it was before the call.
    [align_surface] does the same, whatever becomes of its surface
    tensors.  A call that raises before the first round (not two
    actuators, or no round allowed) leaves the incident ray, as every
    tensor, as it was. *)
Theorem C6_incident_ray_overwritten `{UT : Utils xreal} (h : tensors xreal)
    (o : RigidBodyObject xreal) (ray_at : positive)
    (incident_ray_direction : list (vec4 xreal)) (max_num_iterations : Z)
    (min_eps : xreal) (points_at normals_at : positive) :
  is_Some (self_at h o) → rows_at h ray_at = Some incident_ray_direction →
  (length (actuator_list_of o) = 2%nat → (1 <= max_num_iterations)%Z →
   ∃ orientation h' k,
     (1 <= k <= Z.to_nat max_num_iterations)%nat
     ∧ align_at h o ray_at max_num_iterations min_eps = Some (Ok orientation, h')
     ∧ rows_at h' ray_at = Some (Nat.iter k div_norm incident_ray_direction)
     ∧ (∀ l, l ≠ ray_at → h' !! l = h !! l)
     ∧ ∀ q, tensor_sumsq incident_ray_direction = Some q → q ≠ 0 →
         rows_at h' ray_at = Some (div_norm incident_ray_direction)
         ∧ norm (div_norm incident_ray_direction) = Some 1)
  ∧ (length (actuator_list_of o) = 2%nat →
     is_Some (rows_at h points_at) → is_Some (rows_at h normals_at) →
     ∃ res h' k,
       (1 <= k <= 2)%nat
       ∧ align_surface_at h o ray_at points_at normals_at = Some (res, h')
       ∧ rows_at h' ray_at = Some (Nat.iter k div_norm incident_ray_direction)
       ∧ (∀ l, l ≠ ray_at → h' !! l = h !! l)
       ∧ ∀ q, tensor_sumsq incident_ray_direction = Some q → q ≠ 0 →
           rows_at h' ray_at = Some (div_norm incident_ray_direction))
  ∧ (length (actuator_list_of o) ≠ 2%nat →
     align_at h o ray_at max_num_iterations min_eps = Some (Raise AssertionError, h))
  ∧ (length (actuator_list_of o) = 2%nat → (max_num_iterations <= 0)%Z →
     align_at h o ray_at max_num_iterations min_eps = Some (Raise TypeError, h)).
Proof.
  intros Hself Hr. split; [|split; [|apply (align_at_raises h o ray_at _ _ _ Hr)]].
  - intros Hact Hn.
    destruct (align_at_returns h o ray_at incident_ray_direction max_num_iterations
                min_eps Hself Hr Hact Hn) as (ori & k & Hk & Ha).
    eexists ori, _, k. split; [done|]. split; [exact Ha|].
    split; [apply rows_at_insert|]. split.
    + intros l Hl. by rewrite lookup_insert_ne.
    + intros q Hq Hz. rewrite rows_at_insert.
      rewrite (xr_iter_div_norm _ q) by (done || lia).
      split; [done|]. by eapply xr_norm_div_norm.
  - intros Hact Hp Hn.
    destruct (align_surface_at_ray h o ray_at points_at normals_at
                incident_ray_direction Hself Hr Hp Hn Hact) as (res & k & Hk & Ha).
    eexists res, _, k. split; [done|]. split; [exact Ha|].
    split; [apply rows_at_insert|]. split.
    + intros l Hl. by rewrite lookup_insert_ne.
    + intros q Hq Hz. rewrite rows_at_insert.
      by rewrite (xr_iter_div_norm _ q) by (done || lia).
Qed.
End OnTensorsXR.

(** ** The statements about the rounds of a call, at given inputs *)

Section OneRound.
Context {T : Type} `{SC : Scalar T} `{UT : Utils T}.

End OneRound.

Module RoundsAtNorth.
Import XR XRFacts North NorthFacts.
Local Open Scope R_scope.

(** C1 at the scenario with the incident ray (0,1,0) and two rounds: the
    first round runs on the angles 0 and 0 with the identity as
    orientation, the second on the solved angles -pi and 0, and its
    orientation, the half turn about E, is returned. *)
Lemma C1_forward_chain_at_north :
  let r := align (UT := SpecUtils) scenario north_ray 2 s1e_4 in
  (actuator_list scenario = [identity_actuator; identity_actuator] ∧ (1 <= 2)%Z)
  ∧ ((∃ lg, rounds r !! 0%nat = Some lg
            ∧ log_joint_1_angles lg = [forward identity_actuator szero]
            ∧ log_joint_2_angles lg = [forward identity_actuator szero])
     ∧ (∀ i lg lg', rounds r !! i = Some lg → rounds r !! S i = Some lg' →
          ∃ solved,
            log_solved lg = Some solved
            ∧ length solved = length north_ray
            ∧ log_joint_1_angles lg'
              = map (λ j, forward identity_actuator
                            (angles_to_motor_steps identity_actuator j.1)) solved
            ∧ log_joint_2_angles lg'
              = map (λ j, forward identity_actuator
                            (angles_to_motor_steps identity_actuator j.2)) solved)
     ∧ Forall (λ lg,
         length (log_joint_1_angles lg) = length (log_joint_2_angles lg)
         ∧ log_orientation lg
           = zip_with (forward_chain (UT := SpecUtils) scenario)
               (log_joint_1_angles lg) (log_joint_2_angles lg)
         ∧ log_concentrator_normals lg
           = map (λ o, mat_vec o (V4 szero (sneg sone) szero szero)) (log_orientation lg)
         ∧ log_concentrator_origins lg
           = map (λ o, mat_vec o (V4 szero szero szero sone)) (log_orientation lg)
         ∧ log_desired_reflect_vec lg
           = div_norm (map (vsub (aim_point scenario)) (log_concentrator_origins lg))
         ∧ bcast2 (λ d n, vabs (vsub d n))
             (log_desired_concentrator_normal lg) (log_concentrator_normals lg)
           = Ok (log_loss lg))
         (rounds r)
     ∧ (∃ lg, last (rounds r) = Some lg
              ∧ returned r
                = apply_offsets (UT := SpecUtils) scenario (log_orientation lg)))
  ∧ map log_joint_1_angles (rounds r) = [[Some 0]; [Some (- PI)]]
  ∧ map log_joint_2_angles (rounds r) = [[Some 0]; [Some 0]]
  ∧ map log_orientation (rounds r) = [[eye]; [turned]]
  ∧ map log_concentrator_normals (rounds r)
    = [[vreal (V4 0 (-1) 0 0)]; [vreal (V4 0 1 0 0)]]
  ∧ returned r = Ok [turned].
Proof.
  cbv zeta. split; [split; [reflexivity|lia]|]. split.
  - exact (C1_forward_chain (UT := SpecUtils) scenario identity_actuator
             identity_actuator north_ray 2 s1e_4 eq_refl ltac:(lia)).
  - rewrite north_align. repeat split.
Defined.

(** C2 at the same call: the first round solves the angles -pi and 0 from
    the desired normal (0,1,0), the second round runs on them, stops the
    loop and solves nothing. *)
Lemma C2_analytic_inverse_solve_at_north :
  let solve :=
    inverse_solve (second_joint_translation_e (deviation_parameters scenario))
      (second_joint_translation_n (deviation_parameters scenario)) in
  let r := align (UT := SpecUtils) scenario north_ray 2 s1e_4 in
  (actuator_list scenario = [identity_actuator; identity_actuator] ∧ (1 <= 2)%Z)
  ∧ ((∃ lg, rounds r !! 0%nat = Some lg
            ∧ log_ray_before lg = north_ray
            ∧ length (log_desired_concentrator_normal lg) = length north_ray
            ∧ log_solved lg = Some (map solve (log_desired_concentrator_normal lg)))
     ∧ Forall (λ lg,
         length (log_desired_concentrator_normal lg) = length north_ray
         ∧ log_solved lg
           = if log_break lg then None
             else Some (map solve (log_desired_concentrator_normal lg)))
         (rounds r)
     ∧ (∀ i lg lg', rounds r !! i = Some lg → rounds r !! S i = Some lg' →
          log_solved lg = Some (map solve (log_desired_concentrator_normal lg))
          ∧ length (log_desired_concentrator_normal lg) = length north_ray
          ∧ log_joint_1_angles lg'
            = map (λ m, forward identity_actuator
                          (angles_to_motor_steps identity_actuator (solve m).1))
                (log_desired_concentrator_normal lg)
          ∧ log_joint_2_angles lg'
            = map (λ m, forward identity_actuator
                          (angles_to_motor_steps identity_actuator (solve m).2))
                (log_desired_concentrator_normal lg))
     ∧ (∀ i lg, rounds r !! i = Some lg → log_break lg = true →
          log_solved lg = None
          ∧ length (rounds r) = S i
          ∧ returned r
            = apply_offsets (UT := SpecUtils) scenario (log_orientation lg)))
  ∧ map log_desired_concentrator_normal (rounds r)
    = [[vreal (V4 0 1 0 0)]; [vreal (V4 0 1 0 0)]]
  ∧ map log_solved (rounds r) = [Some [(Some (- PI), Some 0)]; None]
  ∧ map log_break (rounds r) = [false; true].
Proof.
  cbv zeta. split; [split; [reflexivity|lia]|]. split.
  - exact (C2_analytic_inverse_solve (UT := SpecUtils) scenario identity_actuator
             identity_actuator north_ray 2 s1e_4 eq_refl ltac:(lia)).
  - rewrite north_align. repeat split.
Defined.

(** C2, as the specification states it, fails: the round that stops the
    loop makes no inverse solve.  In the scenario with the incident ray
    (0,1,0) that is the second of the two rounds. *)
Lemma C2_no_solve_in_stopping_round :
  ¬ every_round_solves scenario (align (UT := SpecUtils) scenario north_ray 2 s1e_4).
Proof.
  unfold every_round_solves. rewrite north_align. cbn [rounds]. intros H.
  apply Forall_cons in H as [_ H]. apply Forall_cons in H as [H _].
  discriminate H.
Qed.
End RoundsAtNorth.

(** ** Zero offsets, at a kinematic on real numbers *)

Module ZeroOffsetsAtHeliostat.
Import Exact ExactFacts AtRest XRFacts.
Local Open Scope R_scope.



End ZeroOffsetsAtHeliostat.

(** ** The incident ray of a caller *)

Module CallerFacts.
Import XR XRFacts Caller OnTensorsXR.
Local Open Scope R_scope.

Lemma caller_self : self_at caller_tensors scenario_object = Some scenario.
Proof. reflexivity. Qed.

Lemma caller_ray : rows_at caller_tensors 30 = Some long_ray.
Proof. reflexivity. Qed.

Lemma long_ray_div_norm : div_norm long_ray = [vreal (V4 0 1 0 0)].
Proof.
  change long_ray with (map vreal [V4 0 2 0 0]).
  rewrite (xr_div_norm_eval _ 2) by (try lra; real_sumsq).
  xr_unfold. cbn [map]. entries; lra.
Qed.

Lemma long_ray_sumsq : tensor_sumsq long_ray = Some 4.
Proof.
  change long_ray with (map vreal [V4 0 2 0 0]). rewrite tensor_sumsq_vreal.
  f_equal. real_sumsq.
Qed.

(** C6 at the tensors of a caller of the scenario, whose incident ray is
    (0,2,0): after the call with the default two rounds the tensor of the
    ray holds (0,1,0), and every other tensor is as it was. *)
Lemma C6_incident_ray_overwritten_at_caller :
  (is_Some (self_at caller_tensors scenario_object)
   ∧ rows_at caller_tensors 30 = Some long_ray)
  ∧ (length (actuator_list_of scenario_object) = 2%nat ∧ (1 <= 2)%Z)
  ∧ ∃ orientation h',
      align_at (UT := SpecUtils) caller_tensors scenario_object 30 2 s1e_4
      = Some (Ok orientation, h')
      ∧ rows_at h' 30 = Some [vreal (V4 0 1 0 0)]
      ∧ ∀ l, l ≠ 30%positive → h' !! l = caller_tensors !! l.
Proof.
  split; [split; [exists scenario; exact caller_self|exact caller_ray]|].
  split; [split; [reflexivity|lia]|].
  destruct (proj1 (C6_incident_ray_overwritten (UT := SpecUtils) caller_tensors
                     scenario_object 30 long_ray 2 s1e_4 31 32
                     (ex_intro _ scenario caller_self) caller_ray)
              eq_refl ltac:(lia))
    as (orientation & h' & k & _ & Ha & _ & Hf & Hq).
  exists orientation, h'. split; [exact Ha|]. split; [|exact Hf].
  destruct (Hq 4 long_ray_sumsq ltac:(lra)) as [Hr _].
  rewrite Hr. f_equal. exact long_ray_div_norm.
Defined.

(** C6, as the specification states it, fails: a call that raises before
    the first round leaves the incident ray as it was.  With no round
    allowed, the ray (0,2,0) of the caller is still (0,2,0) after the
    call. *)
Lemma C6_not_after_every_call :
  ¬ normalized_after_call (UT := SpecUtils) caller_tensors scenario_object 30 0 s1e_4.
Proof.
  intros (ray & res & h' & Hr & Ha & Hn).
  rewrite caller_ray in Hr. injection Hr as <-.
  rewrite (proj2 (align_at_raises (UT := SpecUtils) caller_tensors scenario_object
                    30 long_ray 0 s1e_4 caller_ray) eq_refl) in Ha by lia.
  injection Ha as <- <-. rewrite caller_ray, long_ray_div_norm in Hn.
  injection Hn as Hn. lra.
Qed.
End CallerFacts.
